(** * Verification of the emitter package (ArthurHlt/emitter)

    A shallow embedding of the in-process publish/subscribe engine:
    the topic registry, wildcard resolution, middleware application,
    the dispatch performed by [Emit], the delivery primitive [send]
    and the per-subscription worker [observe].

    Conventions of the embedding.
    - A Go [string] is a Rocq [string] (a sequence of bytes).
    - [Flag] is Go's [int]; only bitwise-or and equality are applied
      to it, so it is a [Z] and no wrap-around can occur.
    - A [sync.Map] is an association list: [Range] visits the entries
      in list order, and since the statements quantify over every list
      they hold for every iteration order of the Go map.
    - Heap objects that the code shares by pointer (events, channels,
      what a subject points to) live in explicit stores indexed by
      location.
    - A Go panic is the [Panic] outcome of the result type [Res].
    - Goroutines are steps on the state: the part of [Emit] that runs
      in the caller is one step and returns the delivery tasks it
      launched, each task is one step ([deliver]), and the random
      choice of a [select] among ready cases is a parameter.
    - A channel records whether a receiver is parked on it: [make]
      gives a channel without one, and the worker of a subscription
      parks ([park]) when it reaches its receive on an empty mailbox. *)

From stdpp Require Import base list strings functions.
From Stdlib Require Import ZArith Lia Bool Ascii String List.
Import ListNotations.
Local Open Scope string_scope.
Local Open Scope list_scope.

(** ** The glob primitive: Go's [path.Match]

    The emitter delegates matching to the standard library.  The
    general theorems below are stated for an arbitrary matcher; the
    concrete one transcribed here is used to evaluate the emitter on
    concrete topics.  A pattern is scanned byte by byte; a [?] and a
    bracket expression consume one UTF-8 encoded rune of the name, and
    the bounds of a range are runes. *)

Module GoPath.

Inductive error := ErrBadPattern.

(** [utf8.DecodeRuneInString]: the first rune of the string and its
    width in bytes; an invalid or short encoding gives [RuneError] and
    the width 1, the empty string [RuneError] and the width 0. *)
Definition RuneError : N := 65533.

Definition between (lo hi b : N) : bool := ((lo <=? b) && (b <=? hi))%N.

Definition DecodeRuneInString (s : string) : N * nat :=
  match s with
  | EmptyString => (RuneError, 0)
  | String c0 rest =>
      let s0 := N_of_ascii c0 in
      if (s0 <? 128)%N then (s0, 1)
      else if ((s0 <? 194) || (244 <? s0))%N then (RuneError, 1)
      else
        let size := if (s0 <? 224)%N then 2
                    else if (s0 <? 240)%N then 3 else 4 in
        let lo := if (s0 =? 224)%N then 160%N
                  else if (s0 =? 240)%N then 144%N else 128%N in
        let hi := if (s0 =? 237)%N then 159%N
                  else if (s0 =? 244)%N then 143%N else 191%N in
        if (String.length s <? size)%nat then (RuneError, 1)
        else
          match rest with
          | String c1 rest1 =>
              let s1 := N_of_ascii c1 in
              if negb (between lo hi s1) then (RuneError, 1)
              else if (size =? 2)%nat then
                (N.lor (N.shiftl (N.land s0 31) 6) (N.land s1 63), 2)
              else
                match rest1 with
                | String c2 rest2 =>
                    let s2 := N_of_ascii c2 in
                    if negb (between 128 191 s2) then (RuneError, 1)
                    else if (size =? 3)%nat then
                      (N.lor (N.shiftl (N.land s0 15) 12)
                         (N.lor (N.shiftl (N.land s1 63) 6) (N.land s2 63)), 3)
                    else
                      match rest2 with
                      | String c3 _ =>
                          let s3 := N_of_ascii c3 in
                          if negb (between 128 191 s3) then (RuneError, 1)
                          else
                            (N.lor (N.shiftl (N.land s0 7) 18)
                               (N.lor (N.shiftl (N.land s1 63) 12)
                                  (N.lor (N.shiftl (N.land s2 63) 6)
                                     (N.land s3 63))), 4)
                      | EmptyString => (RuneError, 1)
                      end
                | EmptyString => (RuneError, 1)
                end
          | EmptyString => (RuneError, 1)
          end
  end.

Fixpoint drop (n : nat) (s : string) : string :=
  match n, s with
  | S n', String _ s' => drop n' s'
  | _, _ => s
  end.

Definition is_char (c : ascii) (d : string) : bool :=
  match d with
  | String d0 EmptyString => Ascii.eqb c d0
  | _ => false
  end.

Fixpoint strip_stars (pattern : string) : bool * string :=
  match pattern with
  | String c rest =>
      if is_char c "*" then (true, snd (strip_stars rest)) else (false, pattern)
  | EmptyString => (false, pattern)
  end.

Definition cons_chunk (c : ascii) (r : string * string) : string * string :=
  (String c (fst r), snd r).

(** The [Scan] loop of [scanChunk]: the chunk ends at the first star
    that is outside a bracket expression. *)
Fixpoint scan (pattern : string) (inrange : bool) : string * string :=
  match pattern with
  | EmptyString => (EmptyString, EmptyString)
  | String c rest =>
      if is_char c "\" then
        match rest with
        | String d rest' => cons_chunk c (cons_chunk d (scan rest' inrange))
        | EmptyString => (String c EmptyString, EmptyString)
        end
      else if is_char c "[" then cons_chunk c (scan rest true)
      else if is_char c "]" then cons_chunk c (scan rest false)
      else if is_char c "*" then
        if inrange then cons_chunk c (scan rest inrange) else (EmptyString, pattern)
      else cons_chunk c (scan rest inrange)
  end.

Definition scanChunk (pattern : string) : bool * string * string :=
  let '(star, p) := strip_stars pattern in
  let '(chunk, rest) := scan p false in
  (star, chunk, rest).

Definition is_empty (s : string) : bool :=
  match s with EmptyString => true | _ => false end.

(** [getEsc]: a possibly escaped rune of a bracket expression. *)
Definition getEsc (chunk : string) : option (N * string) :=
  match chunk with
  | EmptyString => None
  | String c rest =>
      if is_char c "-" || is_char c "]" then None
      else
        let chunk1 := if is_char c "\" then rest else chunk in
        if is_empty chunk1 then None
        else
          let '(r, n) := DecodeRuneInString chunk1 in
          let nchunk := drop n chunk1 in
          if (N.eqb r RuneError && Nat.eqb n 1) || is_empty nchunk then None
          else Some (r, nchunk)
  end.

(** The range-parsing loop of a bracket expression; [None] is
    [ErrBadPattern]. *)
Fixpoint class_loop (fuel : nat) (chunk : string) (r : N)
    (matched : bool) (nrange : nat) : option (string * bool) :=
  match fuel with
  | O => None
  | S fuel' =>
      match chunk with
      | String c rest =>
          if is_char c "]" && negb (Nat.eqb nrange 0) then Some (rest, matched)
          else class_range fuel' chunk r matched nrange
      | EmptyString => class_range fuel' chunk r matched nrange
      end
  end
with class_range (fuel : nat) (chunk : string) (r : N)
    (matched : bool) (nrange : nat) : option (string * bool) :=
  match fuel with
  | O => None
  | S fuel' =>
      match getEsc chunk with
      | None => None
      | Some (lo, chunk1) =>
          let next hi chunk2 :=
            let m := between lo hi r in
            class_loop fuel' chunk2 r (matched || m) (S nrange) in
          match chunk1 with
          | String d rest1 =>
              if is_char d "-" then
                match getEsc rest1 with
                | None => None
                | Some (hi, chunk2) => next hi chunk2
                end
              else next lo chunk1
          | EmptyString => next lo chunk1
          end
      end
  end.

Record chunk_result := ChunkResult {
  cr_rest : string;
  cr_ok : bool;
  cr_err : option error
}.

Definition tail (s : string) : string :=
  match s with String _ s' => s' | EmptyString => EmptyString end.

Definition head_is (s : string) (d : string) : bool :=
  match s with String c _ => is_char c d | EmptyString => false end.

Definition head (s : string) : ascii :=
  match s with String c _ => c | EmptyString => zero end.

Fixpoint matchChunk_loop (fuel : nat) (chunk s : string) (failed : bool)
    : chunk_result :=
  match chunk with
  | EmptyString =>
      if failed then ChunkResult EmptyString false None
      else ChunkResult s true None
  | String c chunk' =>
      match fuel with
      | O => ChunkResult EmptyString false (Some ErrBadPattern)
      | S fuel' =>
          let failed := failed || is_empty s in
          if is_char c "[" then
            let '(r0, n) := DecodeRuneInString s in
            let r := if failed then 0%N else r0 in
            let s1 := if failed then s else drop n s in
            let negated := head_is chunk' "^" in
            let chunk1 := if negated then tail chunk' else chunk' in
            match class_loop (2 * String.length chunk1 + 2) chunk1 r false 0 with
            | None => ChunkResult EmptyString false (Some ErrBadPattern)
            | Some (chunk2, m) =>
                matchChunk_loop fuel' chunk2 s1 (failed || Bool.eqb m negated)
            end
          else if is_char c "?" then
            if failed then matchChunk_loop fuel' chunk' s failed
            else matchChunk_loop fuel' chunk'
                   (drop (snd (DecodeRuneInString s)) s) (head_is s "/")
          else
            let lit (d : ascii) (chunk2 : string) :=
              if failed then matchChunk_loop fuel' chunk2 s failed
              else matchChunk_loop fuel' chunk2 (tail s)
                     (negb (Ascii.eqb d (head s))) in
            if is_char c "\" then
              match chunk' with
              | EmptyString => ChunkResult EmptyString false (Some ErrBadPattern)
              | String d chunk'' => lit d chunk''
              end
            else lit c chunk'
      end
  end.

Definition matchChunk (chunk s : string) : chunk_result :=
  matchChunk_loop (String.length chunk) chunk s false.

Inductive star_result :=
  | StarFound (t : string)
  | StarError
  | StarNone.

(** The loop that lets a leading star skip [i+1] bytes of the name;
    a star never skips a slash. *)
Fixpoint star_loop (chunk : string) (last : bool) (name : string) : star_result :=
  match name with
  | EmptyString => StarNone
  | String c name' =>
      if is_char c "/" then StarNone
      else
        let r := matchChunk chunk name' in
        if cr_ok r then
          if last && negb (is_empty (cr_rest r)) then star_loop chunk last name'
          else StarFound (cr_rest r)
        else
          match cr_err r with
          | Some _ => StarError
          | None => star_loop chunk last name'
          end
  end.

(** The final loop of [Match]: the rest of the pattern is checked for
    syntax before a plain "no match" is reported. *)
Fixpoint check_rest (fuel : nat) (pattern : string) : option error :=
  match fuel with
  | O => None
  | S fuel' =>
      if is_empty pattern then None
      else
        let '(_, chunk, rest) := scanChunk pattern in
        match cr_err (matchChunk chunk EmptyString) with
        | Some e => Some e
        | None => check_rest fuel' rest
        end
  end.

Fixpoint has_slash (name : string) : bool :=
  match name with
  | EmptyString => false
  | String c name' => is_char c "/" || has_slash name'
  end.

Fixpoint Match_loop (fuel : nat) (pattern name : string) : bool * option error :=
  if is_empty pattern then (is_empty name, None)
  else
    match fuel with
    | O => (false, Some ErrBadPattern)
    | S fuel' =>
        let '(star, chunk, rest) := scanChunk pattern in
        if star && is_empty chunk then (negb (has_slash name), None)
        else
          let r := matchChunk chunk name in
          if cr_ok r && (is_empty (cr_rest r) || negb (is_empty rest)) then
            Match_loop fuel' rest (cr_rest r)
          else
            match cr_err r with
            | Some e => (false, Some e)
            | None =>
                let fail :=
                  match check_rest (String.length rest) rest with
                  | Some e => (false, Some e)
                  | None => (false, None)
                  end in
                if star then
                  match star_loop chunk (is_empty rest) name with
                  | StarFound t => Match_loop fuel' rest t
                  | StarError => (false, Some ErrBadPattern)
                  | StarNone => fail
                  end
                else fail
            end
    end.

Definition Match (pattern name : string) : bool * option error :=
  Match_loop (String.length pattern) pattern name.

End GoPath.


(** ** Results of code that may panic *)

Inductive Res (A : Type) :=
  | Ok (a : A)
  | Panic.
Arguments Ok {A} a.
Arguments Panic {A}.

Definition bindR {A B} (r : Res A) (k : A -> Res B) : Res B :=
  match r with
  | Ok a => k a
  | Panic => Panic
  end.

Notation "'try' p <- r ; k" := (bindR r (fun x => let 'p := x in k))
  (at level 10, p pattern, r at level 100, k at level 200).

(** ** Flags (emitter.go) *)

Definition Flag := Z.

Definition FlagOnce : Flag := Z.shiftl 1 0.
Definition FlagVoid : Flag := Z.shiftl 1 1.
Definition FlagSkip : Flag := Z.shiftl 1 2.

(** The test [(f | bit) == f] that the code uses to read a flag. *)
Definition has_flag (f bit : Flag) : bool := Z.eqb (Z.lor f bit) f.

(** ** Events (event.go)

    [any] is a dynamically typed value over a small universe of Go
    types, among them a pointer type: a value of type [TPtr] is the
    address of a cell of the store, standing for the payloads (pointers,
    maps, slices) that are shared by whoever holds the value.  An event
    object is one of the two provided implementations of the [Event]
    interface, and an [Event] is a pointer into the store of event
    objects. *)

Inductive GoType := TString | TInt | TBool | TPtr.

#[global] Instance GoType_eq_dec : EqDecision GoType.
Proof. solve_decision. Defined.

Definition GoVal (T : GoType) : Type :=
  match T with
  | TString => string
  | TInt => Z
  | TBool => bool
  | TPtr => nat
  end.

Inductive any :=
  | nil_any
  | box (T : GoType) (v : GoVal T).

Inductive EventObj :=
  | BasicEvent (topic : string) (flag : Flag) (subject : any)
  | EventOf (T : GoType) (topic : string) (flag : Flag) (subject : GoVal T).

Definition obj_Topic (o : EventObj) : string :=
  match o with
  | BasicEvent t _ _ => t
  | EventOf _ t _ _ => t
  end.

Definition obj_Flag (o : EventObj) : Flag :=
  match o with
  | BasicEvent _ f _ => f
  | EventOf _ _ f _ => f
  end.

Definition obj_SetFlag (o : EventObj) (flag : Flag) : EventObj :=
  match o with
  | BasicEvent t _ s => BasicEvent t flag s
  | EventOf T t _ s => EventOf T t flag s
  end.

Definition obj_Subject (o : EventObj) : any :=
  match o with
  | BasicEvent _ _ s => s
  | EventOf T _ _ s => box T s
  end.

(** [Clone] copies the three fields into a new object of the same
    concrete type; a subject that is a pointer is copied as a pointer,
    so the copy and the original share what it points to. *)
Definition obj_Clone (o : EventObj) : EventObj :=
  match o with
  | BasicEvent t f s => BasicEvent t f s
  | EventOf T t f s => EventOf T t f s
  end.

Abbreviation Event := nat (only parsing).

(** The store: the event objects, the next free location, and the
    cells that the pointers of the payloads lead to. *)
Record Heap := mkHeap {
  objs : Event -> EventObj;
  next : Event;
  cells : nat -> Z
}.

Definition Topic (h : Heap) (e : Event) : string := obj_Topic (objs h e).
Definition GetFlag (h : Heap) (e : Event) : Flag := obj_Flag (objs h e).
Definition Subject (h : Heap) (e : Event) : any := obj_Subject (objs h e).

Definition SetFlag (e : Event) (flag : Flag) (h : Heap) : Heap :=
  mkHeap (<[e := obj_SetFlag (objs h e) flag]> (objs h)) (next h) (cells h).

Definition alloc (o : EventObj) (h : Heap) : Event * Heap :=
  (next h, mkHeap (<[next h := o]> (objs h)) (S (next h)) (cells h)).

Definition Clone (e : Event) (h : Heap) : Event * Heap :=
  alloc (obj_Clone (objs h e)) h.

Definition NewEvent (topic : string) (subject : any) (h : Heap) : Event * Heap :=
  alloc (BasicEvent topic 0%Z subject) h.

Definition NewEventOf (T : GoType) (topic : string) (subject : GoVal T)
    (h : Heap) : Event * Heap :=
  alloc (EventOf T topic 0%Z subject) h.

(** ** Middlewares

    A middleware is a [func(Event)]: it receives the pointer and
    mutates the store. *)

Definition Middleware := Event -> Heap -> Heap.

Definition Once : Middleware :=
  fun e h => SetFlag e (Z.lor (GetFlag h e) FlagOnce) h.
Definition Void : Middleware :=
  fun e h => SetFlag e (Z.lor (GetFlag h e) FlagVoid) h.
Definition Skip : Middleware :=
  fun e h => SetFlag e (Z.lor (GetFlag h e) FlagSkip) h.

Definition applyMiddlewares (e : Event) (fns : list Middleware) (h : Heap) : Heap :=
  fold_left (fun h fn => fn e h) fns h.

(** ** [sync.Map] with string keys *)

Definition smap (V : Type) := list (string * V).

Fixpoint Load {V} (k : string) (m : smap V) : option V :=
  match m with
  | [] => None
  | (k', v) :: m' => if String.eqb k' k then Some v else Load k m'
  end.

(** [Store] overwrites the value of an existing key where it stands
    and adds a new key otherwise. *)
Fixpoint Store {V} (k : string) (v : V) (m : smap V) : smap V :=
  match m with
  | [] => [(k, v)]
  | (k', v') :: m' =>
      if String.eqb k' k then (k, v) :: m' else (k', v') :: Store k v m'
  end.

Fixpoint Delete {V} (k : string) (m : smap V) : smap V :=
  match m with
  | [] => []
  | (k', v') :: m' =>
      if String.eqb k' k then Delete k m' else (k', v') :: Delete k m'
  end.

Definition keys {V} (m : smap V) : list string := map fst m.

(** [Range f]: call [f] on every entry until it returns [false]. *)
Fixpoint Range {V St} (m : smap V) (f : string -> V -> St -> St * bool)
    (st : St) : St :=
  match m with
  | [] => st
  | (k, v) :: m' =>
      let '(st', continue) := f k v st in
      if continue then Range m' f st' else st'
  end.

(** [Range] with a callback that may panic. *)
Fixpoint RangeR {V St} (m : smap V) (f : string -> V -> St -> Res (St * bool))
    (st : St) : Res St :=
  match m with
  | [] => Ok st
  | (k, v) :: m' =>
      try (st', continue) <- f k v st;
      if continue then RangeR m' f st' else Ok st'
  end.

(** ** Channels

    A channel of events: its capacity, the events sent and not yet
    taken by the receiver, whether it is closed, and whether the
    receiving worker is parked on it (a parked receiver lets one send
    through even when the buffer has no room, which is the only way
    through an unbuffered channel). *)

Record Chan := mkChan {
  ch_cap : nat;
  ch_buf : list Event;
  ch_closed : bool;
  ch_recv : bool
}.

(** [make(chan Event, capacity)] for a capacity that the runtime
    accepts: the new channel is open and empty, and no receiver is
    parked on it yet. *)
Definition make_chan (capacity : nat) : Chan := mkChan capacity [] false false.

(** [make] itself panics when the capacity is beyond what the runtime
    can allocate; [limit] is that bound, which depends on the
    platform. *)
Definition make_chan_checked (limit capacity : nat) : Res Chan :=
  if (capacity <=? limit)%nat then Ok (make_chan capacity) else Panic.

(** The worker reaches its receive on an empty mailbox and parks
    there. *)
Definition park (c : Chan) : Chan :=
  match ch_buf c with
  | [] => mkChan (ch_cap c) [] (ch_closed c) true
  | _ => c
  end.

Definition has_room (c : Chan) : bool :=
  (length (ch_buf c) <? ch_cap c + (if ch_recv c then 1 else 0))%nat.

Definition enqueue (e : Event) (c : Chan) : Chan :=
  mkChan (ch_cap c) (ch_buf c ++ [e]) (ch_closed c) false.

Definition close_chan (c : Chan) : Res Chan :=
  if ch_closed c then Panic
  else Ok (mkChan (ch_cap c) (ch_buf c) true (ch_recv c)).

(** ** The emitter (emitter.go, listener.go) *)

Section Emitter.

(** [W] is the state that listeners act on; [path_Match] is the glob
    primitive, returning the match and the syntax error, if any. *)
Variable W : Type.
Variable path_Match : string -> string -> bool * option GoPath.error.

(** A listener: its identity (the [%p] rendering that keys the
    registry) and its handling method. *)
Record Listener := mkListener {
  lptr : string;
  Handle : EventObj -> W -> Res W
}.

Definition ListenerFunc (p : string) (fn : EventObj -> W -> Res W) : Listener :=
  mkListener p fn.

(** The type assertion of an event to a pointer to [EventOf[T]]. *)
Definition assert_EventOf (T : GoType) (o : EventObj)
    : option (string * Flag * GoVal T) :=
  match o with
  | EventOf T' t f s =>
      match decide (T' = T) with
      | left H => Some (t, f, eq_rect T' GoVal s T H)
      | right _ => None
      end
  | BasicEvent _ _ _ => None
  end.

Definition ListenerFuncOf (T : GoType) (p : string)
    (fn : string * Flag * GoVal T -> W -> Res W) : Listener :=
  mkListener p (fun e w =>
    match assert_EventOf T e with
    | None => Ok w
    | Some typedEvent => fn typedEvent w
    end).

Record listenerManager := mkListenerManager {
  ch : nat;
  lm_middlewares : list Middleware;
  listener : Listener
}.

(** The [Emitter] struct ([Cap], [listMans], [middlewares]) together
    with the two stores of shared objects: channels and events. *)
Record State := mkState {
  Cap : nat;
  listMans : smap (smap listenerManager);
  middlewares : smap (list Middleware);
  chans : nat -> Chan;
  next_chan : nat;
  heap : Heap
}.

Definition set_listMans (s : State) (m : smap (smap listenerManager)) : State :=
  mkState (Cap s) m (middlewares s) (chans s) (next_chan s) (heap s).
Definition set_middlewares (s : State) (m : smap (list Middleware)) : State :=
  mkState (Cap s) (listMans s) m (chans s) (next_chan s) (heap s).
Definition set_chans (s : State) (c : nat -> Chan) : State :=
  mkState (Cap s) (listMans s) (middlewares s) c (next_chan s) (heap s).
Definition set_heap (s : State) (h : Heap) : State :=
  mkState (Cap s) (listMans s) (middlewares s) (chans s) (next_chan s) h.

Definition New (capacity : nat) (h : Heap) : State :=
  mkState capacity [] [] (fun _ => make_chan 0) 0 h.

(** [newListenerManager] makes the mailbox and starts its worker,
    which has not reached its receive when the call returns: it parks
    on the mailbox in a later step ([park]).  The capacity is one that
    [make] accepts; [On_checked] below has the check. *)
Definition newListenerManager (s : State) (l : Listener)
    (mws : list Middleware) : listenerManager * State :=
  (mkListenerManager (next_chan s) mws l,
   mkState (Cap s) (listMans s) (middlewares s)
     (<[next_chan s := make_chan (Cap s)]> (chans s)) (S (next_chan s))
     (heap s)).

Definition Use (s : State) (pattern : string) (mws : list Middleware) : State :=
  match mws with
  | [] => set_middlewares s (Delete pattern (middlewares s))
  | _ => set_middlewares s (Store pattern mws (middlewares s))
  end.

Definition On (s : State) (topic : string) (l : Listener)
    (mws : list Middleware) : State :=
  let '(lm, s1) := newListenerManager s l mws in
  let rawMan := match Load topic (listMans s1) with
                | Some sm => sm
                | None => []
                end in
  set_listMans s1 (Store topic (Store (lptr l) lm rawMan) (listMans s1)).

(** [On] as a call, with the check that [make] performs first: a
    capacity beyond [limit] makes the call panic before anything is
    stored. *)
Definition On_checked (limit : nat) (s : State) (topic : string)
    (l : Listener) (mws : list Middleware) : Res State :=
  try _ <- make_chan_checked limit (Cap s);
  Ok (On s topic l mws).

Definition Emitter_Once (s : State) (topic : string) (l : Listener)
    (mws : list Middleware) : State :=
  On s topic l (mws ++ [Once]).

(** [matched]: the registered topics that the query resolves to, and
    the error the iteration stopped on, if any. *)
Definition matched (s : State) (topic : string)
    : list string * option GoPath.error :=
  Range (listMans s)
    (fun curTopic _ '(acc, _) =>
       let '(m, err) := path_Match topic curTopic in
       match err with
       | Some e => ((acc, Some e), false)
       | None =>
           if m then ((acc ++ [curTopic], None), true)
           else if fst (path_Match curTopic topic)
                then ((acc ++ [curTopic], None), true)
                else ((acc, None), true)
       end)
    ([], None).

Definition close_at (c : nat -> Chan) (i : nat) : Res (nat -> Chan) :=
  try c' <- close_chan (c i); Ok (<[i := c']> c).

Definition drop (smListeners : smap listenerManager) (c : nat -> Chan)
    (l : Listener) : Res (smap listenerManager * (nat -> Chan)) :=
  let ptrAddr := lptr l in
  match Load ptrAddr smListeners with
  | None => Ok (smListeners, c)
  | Some listMan =>
      try c' <- close_at c (ch listMan);
      Ok (Delete ptrAddr smListeners, c')
  end.

Fixpoint dropMany (smListeners : smap listenerManager) (c : nat -> Chan)
    (listeners : list Listener) : Res (smap listenerManager * (nat -> Chan)) :=
  match listeners with
  | [] => Ok (smListeners, c)
  | l :: ls =>
      try (sm', c') <- drop smListeners c l;
      dropMany sm' c' ls
  end.

Definition dropAll (smListeners : smap listenerManager) (c : nat -> Chan)
    : Res (smap listenerManager * (nat -> Chan)) :=
  RangeR smListeners
    (fun key listMan '(sm, c) =>
       try c' <- close_at c (ch listMan);
       Ok ((Delete key sm, c'), true))
    (smListeners, c).

(** One round of the loop of [Off]: the registry is ranged over and
    the entry of [_topic] is emptied, or relieved of the given
    listeners and deleted when nothing is left in it.  The inner map is
    a pointer in the code; here its new contents are stored back under
    its key. *)
Definition Off_topic (listeners : list Listener) (s : State) (_topic : string)
    : Res State :=
  RangeR (listMans s)
    (fun topicRaw smRaw s =>
       if negb (String.eqb topicRaw _topic) then Ok (s, true)
       else
         match listeners with
         | [] =>
             try (_, c') <- dropAll smRaw (chans s);
             Ok (set_listMans (set_chans s c') (Delete topicRaw (listMans s)),
                 true)
         | _ =>
             try (sm', c') <- dropMany smRaw (chans s) listeners;
             let shouldRemove := match sm' with [] => true | _ => false end in
             if shouldRemove
             then Ok (set_listMans (set_chans s c')
                        (Delete topicRaw (listMans s)), true)
             else Ok (set_listMans (set_chans s c')
                        (Store topicRaw sm' (listMans s)), true)
         end)
    s.

Fixpoint foldR {A St} (f : St -> A -> Res St) (l : list A) (st : St) : Res St :=
  match l with
  | [] => Ok st
  | a :: l' => try st' <- f st a; foldR f l' st'
  end.

Definition Off (s : State) (topic : string) (listeners : list Listener)
    : Res State :=
  let '(match_, _) := matched s topic in
  foldR (Off_topic listeners) match_ s.

Definition Listeners (s : State) (topic : string) : list Listener :=
  let '(match_, _) := matched s topic in
  fold_left
    (fun listeners _topic =>
       Range (listMans s)
         (fun topicRaw smRaw listeners =>
            if negb (String.eqb topicRaw _topic) then (listeners, true)
            else (Range smRaw
                    (fun _ lRaw listeners => (listeners ++ [listener lRaw], true))
                    listeners, true))
         listeners)
    match_ [].

Definition Topics (s : State) : list string :=
  Range (listMans s) (fun topicRaw _ acc => (acc ++ [topicRaw], true)) [].

Definition getMiddlewares (s : State) (topic : string) : list Middleware :=
  Range (middlewares s)
    (fun pattern mws acc =>
       if fst (path_Match pattern topic) then (acc ++ mws, true)
       else if fst (path_Match topic pattern) then (acc ++ mws, true)
       else (acc, true))
    [].

(** *** Delivery: [send] and [pushEvent]

    A [select] over [<-done] and [ch <- e]: a case is ready when it can
    proceed ([done] is closed; the mailbox has room or is closed, the
    latter making the send panic); among several ready cases Go picks
    one at random, which [choice] stands for.  Without a ready case
    the [default] branch runs if there is one, else the sender blocks. *)

Inductive Selected := SelDone | SelSend | SelDefault | SelBlock.

Definition select (choice done_closed : bool) (c : Chan) (has_default : bool)
    : Selected :=
  let send_ready := ch_closed c || has_room c in
  if done_closed && send_ready then (if choice then SelDone else SelSend)
  else if done_closed then SelDone
  else if send_ready then SelSend
  else if has_default then SelDefault
  else SelBlock.

(** [ch <- e] once selected: sending on a closed channel panics. *)
Definition chan_send (c : Chan) (e : Event) : Res Chan :=
  if ch_closed c then Panic else Ok (enqueue e c).

Inductive SendOutcome :=
  | Returned (sent canceled : bool) (c : Chan)
  | Blocked.

(** The body of [send], before the deferred [recover]. *)
Definition send_body (choice done_closed : bool) (c : Chan) (e : Event)
    (wait : bool) : Res SendOutcome :=
  match select choice done_closed c (negb wait) with
  | SelDone => Ok (Returned false true c)
  | SelSend => try c' <- chan_send c e; Ok (Returned true false c')
  | SelDefault => Ok (Returned false false c)
  | SelBlock => Ok Blocked
  end.

(** [send]: the deferred function recovers a panic and resets both
    results. *)
Definition send (choice done_closed : bool) (c : Chan) (e : Event)
    (wait : bool) : SendOutcome :=
  match send_body choice done_closed c e wait with
  | Ok r => r
  | Panic => Returned false false c
  end.

Inductive PushOutcome :=
  | Pushed (success remove : bool) (err : option GoPath.error) (c : Chan)
  | PushBlocked.

Definition pushEvent (choice done_closed : bool) (lstnr : Chan) (h : Heap)
    (event : Event) : PushOutcome :=
  let isOnce := has_flag (GetFlag h event) FlagOnce in
  let isSkip := has_flag (GetFlag h event) FlagSkip in
  match send choice done_closed lstnr event (negb isSkip) with
  | Blocked => PushBlocked
  | Returned sent canceled c =>
      let remove :=
        if negb sent && negb canceled then false
        else if negb canceled then isOnce
        else false in
      Pushed sent remove None c
  end.

(** *** [Emit]

    The part of [Emit] that runs in the caller: resolution,
    middlewares, cloning and the launch of one delivery task per
    subscription whose event is not void.  It returns the tasks in
    launch order and the state with the new store of events. *)

Record Task := mkTask {
  t_lm : listenerManager;
  t_event : Event
}.

(** The callback of the inner [Range] of [Emit]: one subscription. *)
Definition Emit_listMan (event : Event) (listMan : listenerManager)
    (st : list Task * Heap) : list Task * Heap * bool :=
  let '(tasks, h) := st in
  let '(evn, h) := Clone event h in
  let h := applyMiddlewares evn (lm_middlewares listMan) h in
  if has_flag (GetFlag h evn) FlagVoid then ((tasks, h), true)
  else ((tasks ++ [mkTask listMan evn], h), true).

(** The body of the loop of [Emit] over the matched topics. *)
Definition Emit_topic (s : State) (event : Event) (st : list Task * Heap)
    (_topic : string) : list Task * Heap :=
  let '(tasks, h) := st in
  let h := applyMiddlewares event (getMiddlewares s _topic) h in
  Range (listMans s)
    (fun topicRaw smRaw st =>
       if negb (String.eqb topicRaw _topic) then (st, true)
       else (Range smRaw (fun _ listMan st => Emit_listMan event listMan st) st,
             true))
    (tasks, h).

Definition Emit (s : State) (event : Event) : list Task * State :=
  let '(match_, _) := matched s (Topic (heap s) event) in
  let '(tasks, h) := fold_left (Emit_topic s event) match_ ([], heap s) in
  (tasks, set_heap s h).

(** The completion signal right after [Emit] returns: it is closed at
    once when nothing was launched. *)
Definition done_at_return (tasks : list Task) : bool :=
  match tasks with [] => true | _ => false end.

(** The body of a delivery task.  [Off] is deferred, so it runs after
    [wg.Done()]; a panic in it is not recovered. *)
Inductive Delivery :=
  | Finished (s : State)
  | StillBlocked
  | Crashed.

Definition deliver (choice done_closed : bool) (s : State) (t : Task)
    : Delivery :=
  let lm := t_lm t in
  match pushEvent choice done_closed (chans s (ch lm)) (heap s) (t_event t) with
  | PushBlocked => StillBlocked
  | Pushed _ remove _ c' =>
      let s1 := set_chans s (<[ch lm := c']> (chans s)) in
      if remove then
        match Off s1 (Topic (heap s1) (t_event t)) [listener lm] with
        | Ok s2 => Finished s2
        | Panic => Crashed
        end
      else Finished s1
  end.

(** The two halves of a delivery task.  [wg.Done()] runs between
    them: once the push is over the task no longer holds the
    completion signal back, and other calls may run before the deferred
    [Off], whose arguments were evaluated when it was deferred. *)
Inductive Pushing :=
  | PushDone (s : State) (deferred : option (string * Listener))
  | PushWaiting.

Definition deliver_push (choice done_closed : bool) (s : State) (t : Task)
    : Pushing :=
  let lm := t_lm t in
  match pushEvent choice done_closed (chans s (ch lm)) (heap s) (t_event t) with
  | PushBlocked => PushWaiting
  | Pushed _ remove _ c' =>
      let s1 := set_chans s (<[ch lm := c']> (chans s)) in
      PushDone s1
        (if remove then Some (Topic (heap s1) (t_event t), listener lm)
         else None)
  end.

Definition deliver_deferred (s : State) (deferred : option (string * Listener))
    : Res State :=
  match deferred with
  | Some (topic, l) => Off s topic [l]
  | None => Ok s
  end.

(** One pass of a scheduler over the tasks of an emit call, in launch
    order: the tasks that blocked are returned.  The wait group is at
    zero, and [done] closed, exactly when none is left. *)
Fixpoint run_tasks (choice : bool) (s : State) (ts : list Task)
    : Res (State * list Task) :=
  match ts with
  | [] => Ok (s, [])
  | t :: ts' =>
      match deliver choice false s t with
      | Finished s' => run_tasks choice s' ts'
      | StillBlocked =>
          try (s', blocked) <- run_tasks choice s ts';
          Ok (s', t :: blocked)
      | Crashed => Panic
      end
  end.

(** *** The worker

    [observe] ranges over the mailbox: [mailbox] is the sequence of
    events the channel yields until it is closed.  Nothing recovers a
    panic of the listener. *)
Fixpoint observe (lm : listenerManager) (h : Heap) (mailbox : list Event)
    (w : W) : Res W :=
  match mailbox with
  | [] => Ok w
  | e :: rest =>
      try w' <- Handle (listener lm) (objs h e) w;
      observe lm h rest w'
  end.

End Emitter.

Arguments mkListener {W} lptr Handle.
Arguments lptr {W} l.
Arguments Handle {W} l e w.
Arguments ListenerFunc {W} p fn.
Arguments ListenerFuncOf {W} T p fn.
Arguments mkListenerManager {W} ch lm_middlewares listener.
Arguments ch {W} l.
Arguments lm_middlewares {W} l.
Arguments listener {W} l.
Arguments mkState {W} Cap listMans middlewares chans next_chan heap.
Arguments Cap {W} s.
Arguments listMans {W} s.
Arguments middlewares {W} s.
Arguments chans {W} s i.
Arguments next_chan {W} s.
Arguments heap {W} s.
Arguments set_listMans {W} s m.
Arguments set_middlewares {W} s m.
Arguments set_chans {W} s c.
Arguments set_heap {W} s h.
Arguments newListenerManager {W} s l mws.
Arguments Use {W} s pattern mws.
Arguments On {W} s topic l mws.
Arguments On_checked {W} limit s topic l mws.
Arguments Emitter_Once {W} s topic l mws.
Arguments matched {W} path_Match s topic.
Arguments drop {W} smListeners c l.
Arguments dropMany {W} smListeners c listeners.
Arguments dropAll {W} smListeners c.
Arguments Off_topic {W} listeners s _topic.
Arguments Off {W} path_Match s topic listeners.
Arguments Listeners {W} path_Match s topic.
Arguments Topics {W} s.
Arguments getMiddlewares {W} path_Match s topic.
Arguments mkTask {W} t_lm t_event.
Arguments t_lm {W} t.
Arguments t_event {W} t.
Arguments Emit_listMan {W} event listMan st.
Arguments Emit_topic {W} path_Match s event st _topic.
Arguments Emit {W} path_Match s event.
Arguments done_at_return {W} tasks.
Arguments Finished {W} s.
Arguments StillBlocked {W}.
Arguments Crashed {W}.
Arguments deliver {W} path_Match choice done_closed s t.
Arguments PushDone {W} s deferred.
Arguments PushWaiting {W}.
Arguments deliver_push {W} choice done_closed s t.
Arguments deliver_deferred {W} path_Match s deferred.
Arguments run_tasks {W} path_Match choice s ts.
Arguments observe {W} lm h mailbox w.

(** ** Vocabulary of the statements *)

Definition mem (k : string) (ks : list string) : bool :=
  existsb (String.eqb k) ks.

Definition is_nil {A} (l : list A) : bool :=
  match l with [] => true | _ => false end.

Section Vocabulary.

Context {W : Type}.
Variable path_Match : string -> string -> bool * option GoPath.error.

(** [K] matches [Q] in one direction or the other; an error counts as
    no match. *)
Definition bidir (Q K : string) : bool :=
  fst (path_Match Q K) || fst (path_Match K Q).

(** The keys visited before [path_Match Q _] first reports an error. *)
Fixpoint before_error (Q : string) (ks : list string) : list string :=
  match ks with
  | [] => []
  | k :: ks' =>
      match snd (path_Match Q k) with
      | Some _ => []
      | None => k :: before_error Q ks'
      end
  end.

Fixpoint first_error (Q : string) (ks : list string) : option GoPath.error :=
  match ks with
  | [] => None
  | k :: ks' =>
      match snd (path_Match Q k) with
      | Some e => Some e
      | None => first_error Q ks'
      end
  end.


(** The pattern-scoped middlewares of a topic, by the same rule of
    matching: the chains registered for the patterns that match the
    topic in one direction or the other. *)
Definition pattern_chain (s : State W) (topic : string) : list Middleware :=
  flat_map (fun kv => if bidir (fst kv) topic then snd kv else [])
    (middlewares s).

(** The channels of the subscriptions of a registry. *)
Definition chs_of (sm : smap (listenerManager W)) : list nat :=
  map (fun e => ch (snd e)) sm.

Definition all_chs (reg : smap (smap (listenerManager W))) : list nat :=
  flat_map (fun kv => chs_of (snd kv)) reg.

(** Well-formed states: keys are unique, a subscription is stored
    under the identity of its listener, no topic is empty, and the
    mailboxes of the registered subscriptions are distinct, open and
    allocated. *)
Definition wf (s : State W) : Prop :=
  NoDup (keys (listMans s))
  /\ Forall (fun kv => NoDup (keys (snd kv))) (listMans s)
  /\ Forall (fun kv =>
       Forall (fun e => fst e = lptr (listener (snd e))) (snd kv)) (listMans s)
  /\ Forall (fun kv => snd kv <> []) (listMans s)
  /\ NoDup (all_chs (listMans s))
  /\ Forall (fun i => ch_closed (chans s i) = false) (all_chs (listMans s))
  /\ Forall (fun i => i < next_chan s) (all_chs (listMans s)).

(** What [Off] leaves of an inner map, and of the registry, when it
    acts on the topics [ts] for the listener identities [ps] ([all]:
    no listener was given). *)
Definition sm_without (ps : list string) (sm : smap (listenerManager W))
    : smap (listenerManager W) :=
  filter (fun e => negb (mem (fst e) ps)) sm.

Definition sm_dropped (ps : list string) (all : bool)
    (sm : smap (listenerManager W)) : smap (listenerManager W) :=
  if all then sm else filter (fun e => mem (fst e) ps) sm.

Definition off_entry (ps : list string) (all : bool)
    (kv : string * smap (listenerManager W))
    : list (string * smap (listenerManager W)) :=
  if all then []
  else match sm_without ps (snd kv) with
       | [] => []
       | sm' => [(fst kv, sm')]
       end.

Definition off_reg (ps : list string) (all : bool) (ts : list string)
    (reg : smap (smap (listenerManager W))) : smap (smap (listenerManager W)) :=
  flat_map (fun kv => if mem (fst kv) ts then off_entry ps all kv else [kv]) reg.

Definition off_closed (ps : list string) (all : bool) (ts : list string)
    (reg : smap (smap (listenerManager W))) : list nat :=
  flat_map (fun kv =>
    if mem (fst kv) ts then chs_of (sm_dropped ps all (snd kv)) else []) reg.

Definition set_closed (c : Chan) : Chan :=
  mkChan (ch_cap c) (ch_buf c) true (ch_recv c).

End Vocabulary.

Arguments sm_dropped : simpl never.
Arguments sm_without : simpl never.
Arguments off_reg : simpl never.
Arguments off_closed : simpl never.
Arguments off_entry : simpl never.

(** [closes c c' D]: [c'] is [c] with the channels of [D] closed. *)
Definition closes (c c' : nat -> Chan) (D : list nat) : Prop :=
  forall i, (In i D -> c' i = set_closed (c i)) /\ (~ In i D -> c' i = c i).

(** What a middleware does to an event object taken on its own. *)
Definition mw_on_obj (mw : Middleware) (o : EventObj) : EventObj :=
  objs (mw 0 (mkHeap (fun _ => o) 1 (fun _ => 0%Z))) 0.

(** A middleware that acts through the [Event] interface: of the
    event objects it touches the one it is given, and what it does to
    it depends on that object only.  It may still write to what the
    subject points to: the cells are left out of this. *)
Definition mw_local (mw : Middleware) : Prop :=
  forall e h,
    next (mw e h) = next h
    /\ objs (mw e h) e = mw_on_obj mw (objs h e)
    /\ forall e', e' <> e -> objs (mw e h) e' = objs h e'.

Definition run_mws (fns : list Middleware) (o : EventObj) : EventObj :=
  fold_left (fun o fn => mw_on_obj fn o) fns o.

(** The concrete type of an event object: [None] for a pointer to
    [BasicEvent], [Some T] for a pointer to [EventOf[T]]. *)
Definition dyn_type (o : EventObj) : option GoType :=
  match o with
  | BasicEvent _ _ _ => None
  | EventOf T _ _ _ => Some T
  end.

Section Invariants.

Context {W : Type}.
Variable path_Match : string -> string -> bool * option GoPath.error.

(** The part of [wf] that [Off] relies on not to panic, for an inner
    map and for a registry. *)
Definition inner_ok (c : nat -> Chan) (sm : smap (listenerManager W)) : Prop :=
  NoDup (keys sm) /\ NoDup (chs_of sm)
  /\ Forall (fun i => ch_closed (c i) = false) (chs_of sm).

Definition reg_ok (c : nat -> Chan) (reg : smap (smap (listenerManager W)))
    : Prop :=
  NoDup (keys reg)
  /\ Forall (fun kv => NoDup (keys (snd kv))) reg
  /\ NoDup (all_chs reg)
  /\ Forall (fun i => ch_closed (c i) = false) (all_chs reg).

Definition same_rest (s s' : State W) : Prop :=
  Cap s' = Cap s /\ middlewares s' = middlewares s
  /\ next_chan s' = next_chan s /\ heap s' = heap s.

Definition mws_local (s : State W) : Prop :=
  Forall (fun kv => Forall mw_local (snd kv)) (middlewares s)
  /\ Forall (fun kv =>
       Forall (fun e => Forall mw_local (lm_middlewares (snd e))) (snd kv))
       (listMans s).

(** The deliveries of an emit described on values, without the
    functions of the emitter: the shared event [o] goes through the
    pattern-scoped middlewares of a topic ([pattern_chain]) once,
    before the subscriptions of that topic are visited, and each
    subscription gets what its own middlewares make of a copy of it,
    unless that is void. *)
Definition deliveries_of (o : EventObj) (sm : smap (listenerManager W))
    : list (listenerManager W * EventObj) :=
  flat_map (fun e =>
    let o' := run_mws (lm_middlewares (snd e)) (obj_Clone o) in
    if has_flag (obj_Flag o') FlagVoid then [] else [(snd e, o')]) sm.

Fixpoint Emit_pure (s : State W) (o : EventObj) (ts : list string)
    : list (listenerManager W * EventObj) * EventObj :=
  match ts with
  | [] => ([], o)
  | t :: ts' =>
      let o1 := run_mws (pattern_chain path_Match s t) o in
      let ds := match Load t (listMans s) with
                | Some sm => deliveries_of o1 sm
                | None => []
                end in
      let '(ds', o') := Emit_pure s o1 ts' in
      (ds ++ ds', o')
  end.

(** The deliveries that a list of tasks stands for in a store. *)
Definition view (h : Heap) (tasks : list (Task W))
    : list (listenerManager W * EventObj) :=
  map (fun t => (t_lm t, objs h (t_event t))) tasks.

(** The invariant of the loops of [Emit]: the tasks launched so far
    hold events allocated before [next h], other than the shared one. *)
Definition tasks_ok (event : Event) (h : Heap) (tasks : list (Task W)) : Prop :=
  event < next h
  /\ Forall (fun t => t_event t < next h /\ t_event t <> event) tasks.

(** Where the tasks of [Emit] come from. *)
Definition registered_under (s : State W) (ts : list string)
    (lm : listenerManager W) : Prop :=
  exists K sm p, In K ts /\ In (K, sm) (listMans s) /\ In (p, lm) sm.

End Invariants.

(** ** Sample listeners, middlewares and states *)

Definition h0 : Heap :=
  mkHeap (fun _ => BasicEvent "" 0%Z nil_any) 0 (fun _ => 0%Z).

(** A listener that counts its invocations. *)
Definition counting (p : string) : Listener nat :=
  ListenerFunc p (fun _ w => Ok (S w)).

(** A listener that panics on the topic ["boom"] and counts the other
    events. *)
Definition fragile (p : string) : Listener nat :=
  ListenerFunc p (fun e w =>
    if String.eqb (obj_Topic e) "boom" then Panic else Ok (S w)).

(** A caller-supplied middleware that clears the flags. *)
Definition reset : Middleware := fun e h => SetFlag e 0%Z h.



(** One subscription under ["*"]. *)
Definition star_state : State nat :=
  On (New nat 0 h0) "*" (counting "0xc000010000") [].

(** The same once the worker has parked on the unbuffered mailbox. *)
Definition star_parked : State nat :=
  set_chans star_state (<[0 := park (chans star_state 0)]> (chans star_state)).

(** One [Once] subscription under ["*"], mailbox capacity 1, and an
    event emitted to ["x"]. *)
Definition once_state : State nat :=
  Emitter_Once (New nat 1 h0) "*" (counting "0xc000010000") [].

Definition once_emit : list (Task nat) * State nat :=
  let '(ev, h) := NewEvent "x" nil_any (heap once_state) in
  Emit GoPath.Match (set_heap once_state h) ev.

Definition once_task : Task nat :=
  mkTask (mkListenerManager 0 [Once] (counting "0xc000010000")) 1.

(** The listener of [once_state] subscribed again, without [Once],
    after the emit and before the delivery. *)
Definition resub_state : State nat :=
  On (snd once_emit) "*" (counting "0xc000010000") [].


(** One subscription under ["b"] whose own middleware is [Void], a
    pattern-scoped [Skip] for every topic, and an event on ["b"]. *)
Definition void_state : State nat :=
  let s := On (Use (New nat 0 h0) "*" [Skip]) "b" (counting "0xc000010000") [Void] in
  set_heap s (snd (NewEvent "b" nil_any (heap s))).

Definition void_lm : listenerManager nat :=
  mkListenerManager 0 [Void] (counting "0xc000010000").

(** A subscription on an unbuffered mailbox whose worker is busy, and
    a task carrying an event flagged [Skip]. *)
Definition busy_state : State nat :=
  let s := On (New nat 0 h0) "a" (counting "0xc000010000") [Skip] in
  let '(ev, h) := NewEvent "a" nil_any (heap s) in
  let h := SetFlag ev FlagSkip h in
  mkState (Cap s) (listMans s) (middlewares s)
    (<[0 := mkChan 0 [] false false]> (chans s)) (next_chan s) h.

Definition busy_task : Task nat :=
  mkTask (mkListenerManager 0 [Skip] (counting "0xc000010000")) 0.

(** The same subscription after its mailbox was closed. *)
Definition closed_state : State nat :=
  set_chans busy_state (<[0 := mkChan 0 [] true false]> (chans busy_state)).

(** A worker whose listener panics on the first of two events. *)
Definition fragile_lm : listenerManager nat :=
  mkListenerManager 0 [] (fragile "0xc000010000").

Definition two_events : Heap :=
  snd (NewEvent "ok" nil_any (snd (NewEvent "boom" nil_any h0))).

(** Two subscriptions under ["b"], the first with [Once] as its own
    middleware, a pattern-scoped [Skip] for every topic, and an event
    on ["b"]. *)
Definition scoped_state : State nat :=
  let s := On (On (Use (New nat 1 h0) "*" [Skip])
                 "b" (counting "0xc000010000") [Once])
              "b" (counting "0xc000010008") [] in
  set_heap s (snd (NewEvent "b" nil_any (heap s))).

(** The registry of the test [TestOff]: two listeners under ["test"]. *)
Definition test_off_state : State nat :=
  On (On (New nat 0 h0) "test" (counting "0xc000010000") [])
     "test" (counting "0xc000010008") [].

(** ** Vocabulary of the further properties *)

(** A middleware that never sets the Void bit of an event that does
    not have it. *)
Definition never_void (mw : Middleware) : Prop :=
  forall o, has_flag (obj_Flag o) FlagVoid = false ->
            has_flag (obj_Flag (mw_on_obj mw o)) FlagVoid = false.

Section Reachability.

Context {W : Type}.
Variable path_Match : string -> string -> bool * option GoPath.error.

(** The subscriptions stored under the topics [ts], topic by topic. *)
Definition subscribers (s : State W) (ts : list string)
    : list (listenerManager W) :=
  flat_map (fun K => match Load K (listMans s) with
                     | Some sm => map snd sm
                     | None => []
                     end) ts.

(** The states that the operations of the package lead to from [New]:
    the methods of the emitter, the delivery tasks, the assignment of
    [Cap], the allocation and mutation of events by callers, and the
    workers, which take events out of their mailboxes but never close
    or reopen one. *)
Inductive reachable : State W -> Prop :=
  | reach_New capacity h : reachable (New W capacity h)
  | reach_Cap s capacity :
      reachable s ->
      reachable (mkState capacity (listMans s) (middlewares s) (chans s)
                   (next_chan s) (heap s))
  | reach_Use s pattern mws : reachable s -> reachable (Use s pattern mws)
  | reach_On s topic l mws : reachable s -> reachable (On s topic l mws)
  | reach_Once s topic l mws :
      reachable s -> reachable (Emitter_Once s topic l mws)
  | reach_Off s topic ls s' :
      reachable s -> Off path_Match s topic ls = Ok s' -> reachable s'
  | reach_Emit s event :
      reachable s -> reachable (snd (Emit path_Match s event))
  | reach_deliver s choice done_closed t s' :
      reachable s ->
      deliver path_Match choice done_closed s t = Finished s' ->
      reachable s'
  | reach_heap s h : reachable s -> reachable (set_heap s h)
  | reach_worker s c :
      reachable s ->
      (forall i, ch_closed (c i) = ch_closed (chans s i)) ->
      reachable (set_chans s c).

End Reachability.

(** A registry with one listener under two topics, ["a"] and ["*"],
    and another listener under ["a"]. *)
Definition shared_state : State nat :=
  On (On (On (New nat 1 h0) "a" (counting "0xc000010000") [])
         "*" (counting "0xc000010000") [Skip])
     "a" (counting "0xc000010008") [Once].

(** The middlewares of a state never set the Void bit. *)
Definition mws_never_void {W} (s : State W) : Prop :=
  Forall (fun kv => Forall never_void (snd kv)) (middlewares s)
  /\ Forall (fun kv =>
       Forall (fun e => Forall never_void (lm_middlewares (snd e))) (snd kv))
       (listMans s).

(** [shared_state] with an event on ["a"] in the store. *)
Definition shared_emit_state : State nat :=
  set_heap shared_state (snd (NewEvent "a" nil_any h0)).

(** One listener under ["a"] and under ["*"], mailboxes of capacity 1,
    and an event on ["a"]. *)
Definition plain_state : State nat :=
  let s := On (On (New nat 1 h0) "a" (counting "0xc000010000") [])
              "*" (counting "0xc000010000") [Skip] in
  set_heap s (snd (NewEvent "a" nil_any (heap s))).

(** A middleware that never clears the Void bit of an event. *)
Definition keeps_void (mw : Middleware) : Prop :=
  forall o, has_flag (obj_Flag o) FlagVoid = true ->
            has_flag (obj_Flag (mw_on_obj mw o)) FlagVoid = true.

Definition mws_keep_void {W} (s : State W) : Prop :=
  Forall (fun kv => Forall keeps_void (snd kv)) (middlewares s)
  /\ Forall (fun kv =>
       Forall (fun e => Forall keeps_void (lm_middlewares (snd e))) (snd kv))
       (listMans s).

(** The registry of the test [TestVoid]: a pattern-scoped [Void] for
    every topic, one subscription under ["b"] and an event on ["b"]. *)
Definition muted_state : State nat :=
  let s := On (Use (New nat 0 h0) "*" [Void]) "b" (counting "0xc000010000") [] in
  set_heap s (snd (NewEvent "b" nil_any (heap s))).


(** * Properties *)

(** ** Association lists *)

Section SmapFacts.

Context {V : Type}.
Implicit Types (m : smap V) (k : string).

Lemma eqb_false_ne (a b : string) : String.eqb a b = false <-> a <> b.
Proof. apply String.eqb_neq. Qed.

Lemma mem_In k (ks : list string) : mem k ks = true <-> In k ks.
Proof.
  unfold mem. rewrite existsb_exists. split.
  - intros (x & Hx & E). apply String.eqb_eq in E. now subst.
  - intros H. exists k. split; [assumption | apply String.eqb_refl].
Qed.

Lemma mem_not_In k (ks : list string) : mem k ks = false <-> ~ In k ks.
Proof.
  rewrite <- mem_In. destruct (mem k ks); split; congruence.
Qed.

Lemma Load_None k m : Load k m = None <-> ~ In k (keys m).
Proof.
  induction m as [|[k' v] m IH]; simpl.
  - tauto.
  - destruct (String.eqb_spec k' k) as [->|Hne].
    + split; [discriminate | intros H; exfalso; apply H; now left].
    + rewrite IH. split; [intros H [E|I]; [congruence | tauto] | tauto].
Qed.

Lemma Load_In k m v : Load k m = Some v -> In (k, v) m.
Proof.
  induction m as [|[k' v'] m IH]; simpl; [discriminate|].
  destruct (String.eqb_spec k' k) as [->|Hne].
  - intros [= ->]. now left.
  - intros H. right. now apply IH.
Qed.

Lemma In_Load k m v : NoDup (keys m) -> In (k, v) m -> Load k m = Some v.
Proof.
  induction m as [|[k' v'] m IH]; simpl; [tauto|].
  intros Hnd [E|I]; apply NoDup_cons_iff in Hnd as [Hk Hnd].
  - injection E as -> ->. now rewrite String.eqb_refl.
  - destruct (String.eqb_spec k' k) as [->|Hne].
    + exfalso. apply Hk. change k with (fst (k, v)). now apply in_map.
    + now apply IH.
Qed.

Lemma keys_Delete k m : keys (Delete k m) = filter (fun k' => negb (String.eqb k' k)) (keys m).
Proof.
  induction m as [|[k' v] m IH]; simpl; [reflexivity|].
  destruct (String.eqb k' k); simpl; now rewrite IH.
Qed.

Lemma Delete_filter k m :
  Delete k m = filter (fun e => negb (String.eqb (fst e) k)) m.
Proof.
  induction m as [|[k' v] m IH]; simpl; [reflexivity|].
  destruct (String.eqb k' k); simpl; now rewrite IH.
Qed.

Lemma Delete_absent k m : ~ In k (keys m) -> Delete k m = m.
Proof.
  induction m as [|[k' v] m IH]; simpl; [reflexivity|].
  intros H. destruct (String.eqb_spec k' k) as [->|Hne]; [tauto|].
  rewrite IH; tauto.
Qed.

Lemma Store_same k m v : Load k m = Some v -> Store k v m = m.
Proof.
  induction m as [|[k' v'] m IH]; simpl; [discriminate|].
  destruct (String.eqb_spec k' k) as [->|Hne].
  - now intros [= ->].
  - intros H. now rewrite IH.
Qed.

Lemma keys_Store_present k m v :
  In k (keys m) -> keys (Store k v m) = keys m.
Proof.
  induction m as [|[k' v'] m IH]; simpl; [tauto|].
  destruct (String.eqb_spec k' k) as [->|Hne]; [reflexivity|].
  intros [E|I]; [congruence|]. simpl. now rewrite IH.
Qed.

Lemma keys_Store_absent k m v :
  ~ In k (keys m) -> keys (Store k v m) = keys m ++ [k].
Proof.
  induction m as [|[k' v'] m IH]; simpl; [reflexivity|].
  destruct (String.eqb_spec k' k) as [->|Hne]; [tauto|].
  intros H. simpl. rewrite IH; tauto.
Qed.

Lemma Load_Store_eq k m v : Load k (Store k v m) = Some v.
Proof.
  induction m as [|[k' v'] m IH]; simpl.
  - now rewrite String.eqb_refl.
  - destruct (String.eqb_spec k' k) as [->|Hne]; simpl.
    + now rewrite String.eqb_refl.
    + apply eqb_false_ne in Hne. now rewrite Hne.
Qed.

Lemma Load_Store_ne k k' m v : k' <> k -> Load k' (Store k v m) = Load k' m.
Proof.
  intros Hne. induction m as [|[k0 v0] m IH]; simpl.
  - apply not_eq_sym, eqb_false_ne in Hne. now rewrite Hne.
  - destruct (String.eqb_spec k0 k) as [->|Hne0]; simpl.
    + apply not_eq_sym, eqb_false_ne in Hne. now rewrite Hne.
    + now rewrite IH.
Qed.

(** [Range] with a callback that never stops is a fold. *)
Lemma Range_all {St} m (f : string -> V -> St -> St) st :
  Range m (fun k v st => (f k v st, true)) st
  = fold_left (fun st e => f (fst e) (snd e) st) m st.
Proof.
  revert st. induction m as [|[k v] m IH]; intros st; simpl; [reflexivity|].
  apply IH.
Qed.

(** A callback that only acts on the key [t] acts on its entry. *)
Lemma Range_select {St} m t (g : V -> St -> St) st :
  NoDup (keys m) ->
  Range m (fun k v st =>
             if negb (String.eqb k t) then (st, true) else (g v st, true)) st
  = match Load t m with
    | Some v => g v st
    | None => st
    end.
Proof.
  revert st. induction m as [|[k v] m IH]; intros st Hnd; simpl; [reflexivity|].
  apply NoDup_cons_iff in Hnd as [Hk Hnd]. simpl in Hk.
  destruct (String.eqb_spec k t) as [->|Hne]; simpl.
  - rewrite IH by assumption.
    apply Load_None in Hk. now rewrite Hk.
  - now apply IH.
Qed.

Lemma RangeR_skip {St} m t (g : string -> V -> St -> Res (St * bool)) st :
  ~ In t (keys m) ->
  (forall k v st, k <> t -> g k v st = Ok (st, true)) ->
  RangeR m g st = Ok st.
Proof.
  intros Hk Hg. revert st.
  induction m as [|[k v] m IH]; intros st; simpl; [reflexivity|].
  simpl in Hk. rewrite Hg by tauto. simpl. apply IH. tauto.
Qed.

Lemma RangeR_select {St} m t (g : string -> V -> St -> Res (St * bool)) st :
  NoDup (keys m) ->
  (forall k v st, k <> t -> g k v st = Ok (st, true)) ->
  RangeR m g st
  = match Load t m with
    | Some v => try (st', _) <- g t v st; Ok st'
    | None => Ok st
    end.
Proof.
  intros Hnd Hg. revert st.
  induction m as [|[k v] m IH]; intros st; simpl; [reflexivity|].
  apply NoDup_cons_iff in Hnd as [Hk Hnd]. simpl in Hk.
  destruct (String.eqb_spec k t) as [->|Hne].
  - destruct (g t v st) as [[st' c]|]; simpl; [|reflexivity].
    destruct c; [|reflexivity].
    now apply RangeR_skip with (t := t).
  - rewrite Hg by assumption. simpl. now apply IH.
Qed.

End SmapFacts.

Section Resolution.

Context {W : Type}.
Variable path_Match : string -> string -> bool * option GoPath.error.

Lemma Topics_keys (s : State W) : Topics s = keys (listMans s).
Proof.
  unfold Topics.
  enough (H : forall (m : smap (smap (listenerManager W))) acc,
             Range m (fun topicRaw _ acc => (acc ++ [topicRaw], true)) acc
             = acc ++ keys m) by apply (H _ []).
  induction m as [|[k v] m IH]; intros acc; simpl.
  - now rewrite app_nil_r.
  - rewrite IH, <- app_assoc. reflexivity.
Qed.

Lemma matched_Range (m : smap (smap (listenerManager W))) Q acc :
  Range m
    (fun curTopic _ '(acc, _) =>
       let '(m, err) := path_Match Q curTopic in
       match err with
       | Some e => ((acc, Some e), false)
       | None =>
           if m then ((acc ++ [curTopic], None), true)
           else if fst (path_Match curTopic Q)
                then ((acc ++ [curTopic], None), true)
                else ((acc, None), true)
       end)
    (acc, None)
  = (acc ++ filter (bidir path_Match Q) (before_error path_Match Q (keys m)),
     first_error path_Match Q (keys m)).
Proof.
  revert acc. induction m as [|[k v] m IH]; intros acc.
  - simpl. now rewrite app_nil_r.
  - cbn [Range keys map fst snd before_error first_error].
    destruct (path_Match Q k) as [b [e|]] eqn:E; cbn [fst snd].
    + simpl. now rewrite app_nil_r.
    + cbn [filter]. unfold bidir at 1. rewrite E. cbn [fst].
      destruct b; cbn [orb].
      * rewrite IH, <- app_assoc. reflexivity.
      * destruct (fst (path_Match k Q)); rewrite IH.
        -- rewrite <- app_assoc. reflexivity.
        -- reflexivity.
Qed.

(** The resolution in closed form: the registered topics visited
    before the first error, filtered by the two-way match. *)
Lemma matched_spec (s : State W) Q :
  matched path_Match s Q
  = (filter (bidir path_Match Q) (before_error path_Match Q (Topics s)),
     first_error path_Match Q (Topics s)).
Proof.
  unfold matched. rewrite Topics_keys. apply (matched_Range _ Q []).
Qed.

Lemma before_error_all Q ks :
  (forall K, In K ks -> snd (path_Match Q K) = None) ->
  before_error path_Match Q ks = ks /\ first_error path_Match Q ks = None.
Proof.
  induction ks as [|k ks IH]; intros H; simpl; [split; reflexivity|].
  rewrite (H k) by now left.
  destruct IH as [-> ->]; [|split; reflexivity].
  intros K HK. apply H. now right.
Qed.

Lemma before_error_incl Q ks K :
  In K (before_error path_Match Q ks) ->
  In K ks /\ snd (path_Match Q K) = None.
Proof.
  induction ks as [|k ks IH]; simpl; [tauto|].
  destruct (snd (path_Match Q k)) eqn:E; simpl; [tauto|].
  intros [->|H]; [split; [now left | assumption]|].
  destruct (IH H). split; [now right | assumption].
Qed.

Lemma matched_In (s : State W) Q K :
  In K (fst (matched path_Match s Q)) ->
  In K (Topics s) /\ bidir path_Match Q K = true
  /\ snd (path_Match Q K) = None.
Proof.
  rewrite matched_spec. simpl. rewrite filter_In.
  intros [H1 H2]. apply before_error_incl in H1. tauto.
Qed.

(** Without an error, the resolution is the two-way filter of the
    registered topics. *)
Lemma matched_no_error (s : State W) (Q : string) :
  (forall K, In K (Topics s) -> snd (path_Match Q K) = None) ->
  matched path_Match s Q = (filter (bidir path_Match Q) (Topics s), None).
Proof.
  intros H. rewrite matched_spec.
  now destruct (before_error_all Q (Topics s) H) as [-> ->].
Qed.

(** C1 (as amended): the resolution returns the registered topics [K],
    among those visited before the glob primitive first reports a
    syntax error for the query [Q], for which [match(Q,K)] or
    [match(K,Q)] succeeds; a registered topic that is itself malformed
    only fails its own match.  When no error is reported for [Q] these
    are exactly the registered topics matching in one direction or the
    other, in registry order. *)
Theorem matched_exact (s : State W) (Q : string) :
  matched path_Match s Q
  = (filter (bidir path_Match Q) (before_error path_Match Q (Topics s)),
     first_error path_Match Q (Topics s))
  /\ ((forall K, In K (Topics s) -> snd (path_Match Q K) = None) ->
      matched path_Match s Q = (filter (bidir path_Match Q) (Topics s), None)
      /\ forall K, In K (fst (matched path_Match s Q)) <->
                   In K (Topics s) /\
                   (fst (path_Match Q K) = true \/ fst (path_Match K Q) = true)).
Proof.
  split; [apply matched_spec|].
  intros H. rewrite (matched_no_error s Q H).
  split; [reflexivity|].
  intros K. simpl. rewrite filter_In. unfold bidir.
  rewrite orb_true_iff. reflexivity.
Qed.

End Resolution.



(** ** Closing channels *)

Lemma closes_nil c : closes c c [].
Proof. intros i. split; [intros [] | reflexivity]. Qed.

Lemma closes_app c c1 c2 D1 D2 :
  closes c c1 D1 -> closes c1 c2 D2 -> closes c c2 (D1 ++ D2).
Proof.
  intros H1 H2 i. destruct (H1 i) as [H1a H1b], (H2 i) as [H2a H2b].
  rewrite in_app_iff. split.
  - intros H. destruct (in_dec Nat.eq_dec i D2) as [I2|N2].
    + rewrite H2a by assumption.
      destruct (in_dec Nat.eq_dec i D1) as [I1|N1].
      * now rewrite H1a.
      * now rewrite H1b.
    + rewrite H2b by assumption. apply H1a. tauto.
  - intros H. rewrite H2b, H1b; tauto.
Qed.

Lemma closes_ext c c' D D' :
  (forall i, In i D <-> In i D') -> closes c c' D -> closes c c' D'.
Proof.
  intros E H i. destruct (H i) as [Ha Hb]. rewrite <- E. tauto.
Qed.

Lemma close_at_open c i :
  ch_closed (c i) = false ->
  close_at c i = Ok (<[i := set_closed (c i)]> c).
Proof.
  intros H. unfold close_at, close_chan. rewrite H. reflexivity.
Qed.

Lemma closes_insert c i : closes c (<[i := set_closed (c i)]> c) [i].
Proof.
  intros j. split.
  - intros [->|[]]. apply fn_lookup_insert.
  - intros H. apply fn_lookup_insert_ne. simpl in H. tauto.
Qed.

(** ** Lists without duplicates *)

Lemma NoDup_map_eq {A B} (f : A -> B) l x y :
  NoDup (map f l) -> In x l -> In y l -> f x = f y -> x = y.
Proof.
  induction l as [|a l IH]; simpl; [tauto|].
  intros Hnd Hx Hy E. apply NoDup_cons_iff in Hnd as [Ha Hnd].
  destruct Hx as [->|Hx], Hy as [->|Hy]; try reflexivity.
  - exfalso. apply Ha. rewrite E. now apply in_map.
  - exfalso. apply Ha. rewrite <- E. now apply in_map.
  - now apply IH.
Qed.

Lemma NoDup_map_filter {A B} (f : A -> B) (p : A -> bool) l :
  NoDup (map f l) -> NoDup (map f (filter p l)).
Proof.
  induction l as [|a l IH]; simpl; [trivial|].
  intros Hnd. apply NoDup_cons_iff in Hnd as [Ha Hnd].
  destruct (p a); simpl; [|now apply IH].
  apply NoDup_cons; [|now apply IH].
  intros H. apply Ha. apply in_map_iff in H as (x & E & Hx).
  apply filter_In in Hx as [Hx _]. rewrite <- E. now apply in_map.
Qed.

Lemma NoDup_app_disjoint {A} (l1 l2 : list A) x :
  NoDup (l1 ++ l2) -> In x l1 -> In x l2 -> False.
Proof.
  induction l1 as [|a l1 IH]; simpl; [tauto|].
  intros Hnd [->|H1] H2; apply NoDup_cons_iff in Hnd as [Ha Hnd].
  - apply Ha. apply in_app_iff. now right.
  - now apply IH.
Qed.

Lemma NoDup_app_l {A} (l1 l2 : list A) : NoDup (l1 ++ l2) -> NoDup l1.
Proof. apply NoDup_app_remove_r. Qed.

Lemma NoDup_app_r {A} (l1 l2 : list A) : NoDup (l1 ++ l2) -> NoDup l2.
Proof. apply NoDup_app_remove_l. Qed.

Lemma NoDup_app_intro {A} (l1 l2 : list A) :
  NoDup l1 -> NoDup l2 -> (forall x, In x l1 -> In x l2 -> False) ->
  NoDup (l1 ++ l2).
Proof.
  induction l1 as [|a l1 IH]; simpl; [trivial|].
  intros H1 H2 Hd. apply NoDup_cons_iff in H1 as [Ha H1].
  apply NoDup_cons.
  - rewrite in_app_iff. intros [H|H]; [tauto|]. eapply Hd; [now left|eassumption].
  - apply IH; try assumption. intros x Hx. apply Hd. now right.
Qed.

(** ** Dropping subscriptions *)

Section Drop.

Context {W : Type}.
Implicit Types (sm : smap (listenerManager W)) (c : nat -> Chan).

Lemma chs_of_filter_In (q : string * listenerManager W -> bool) sm i :
  In i (chs_of (filter q sm)) <->
  exists e, In e sm /\ q e = true /\ ch (snd e) = i.
Proof.
  unfold chs_of. rewrite in_map_iff. split.
  - intros (e & E & H). apply filter_In in H. exists e. tauto.
  - intros (e & H1 & H2 & E). exists e. rewrite filter_In. tauto.
Qed.

Lemma chs_of_In sm i :
  In i (chs_of sm) <-> exists e, In e sm /\ ch (snd e) = i.
Proof.
  unfold chs_of. rewrite in_map_iff. split; intros (e & H); exists e; tauto.
Qed.

Lemma kept_dropped_disjoint (q : string * listenerManager W -> bool) sm i :
  NoDup (chs_of sm) ->
  In i (chs_of (filter q sm)) ->
  In i (chs_of (filter (fun e => negb (q e)) sm)) -> False.
Proof.
  intros Hnd H1 H2.
  apply chs_of_filter_In in H1 as (e1 & I1 & Q1 & E1).
  apply chs_of_filter_In in H2 as (e2 & I2 & Q2 & E2).
  assert (e1 = e2).
  { apply (NoDup_map_eq (fun e => ch (snd e)) sm); try assumption. congruence. }
  subst e2. rewrite Q1 in Q2. discriminate.
Qed.

Lemma inner_ok_filter c c' (q : string * listenerManager W -> bool) sm :
  inner_ok c sm ->
  closes c c' (chs_of (filter q sm)) ->
  inner_ok c' (filter (fun e => negb (q e)) sm).
Proof.
  intros (Hk & Hc & Ho) Hcl. repeat split.
  - unfold keys. now apply NoDup_map_filter.
  - unfold chs_of. now apply NoDup_map_filter.
  - apply Forall_forall. intros i Hi.
    destruct (Hcl i) as [_ Hb]. rewrite Hb.
    + rewrite Forall_forall in Ho. apply Ho.
      apply chs_of_filter_In in Hi as (e & ? & ? & ?).
      apply chs_of_In. exists e. tauto.
    + intros H. eapply kept_dropped_disjoint; eauto.
Qed.

Lemma mem_cons k p ps : mem k (p :: ps) = String.eqb k p || mem k ps.
Proof. reflexivity. Qed.

Lemma mem_one k p : mem k [p] = String.eqb k p.
Proof. unfold mem. simpl. apply orb_false_r. Qed.

Lemma Delete_without sm p : Delete p sm = sm_without [p] sm.
Proof.
  rewrite Delete_filter. unfold sm_without. apply filter_ext.
  intros e. unfold mem. simpl. now rewrite orb_false_r.
Qed.

Lemma sm_without_absent sm p :
  Load p sm = None -> sm_without [p] sm = sm.
Proof.
  intros H. rewrite <- Delete_without. apply Delete_absent.
  now apply Load_None.
Qed.

Lemma dropped_one sm p i :
  NoDup (keys sm) ->
  In i (chs_of (sm_dropped [p] false sm)) <->
  exists lm, Load p sm = Some lm /\ ch lm = i.
Proof.
  intros Hnd. unfold sm_dropped. rewrite chs_of_filter_In. split.
  - intros ([k lm] & Hin & Hq & E). simpl in *.
    unfold mem in Hq. simpl in Hq. rewrite orb_false_r in Hq.
    apply String.eqb_eq in Hq. subst k.
    exists lm. split; [now apply In_Load | assumption].
  - intros (lm & HL & E). exists (p, lm). simpl.
    split; [now apply Load_In|].
    split; [|assumption]. unfold mem. simpl. now rewrite String.eqb_refl.
Qed.

Lemma drop_spec sm c (l : Listener W) :
  inner_ok c sm ->
  exists c', drop sm c l = Ok (sm_without [lptr l] sm, c')
    /\ closes c c' (chs_of (sm_dropped [lptr l] false sm)).
Proof.
  intros (Hk & Hc & Ho). unfold drop.
  destruct (Load (lptr l) sm) as [lm|] eqn:HL.
  - assert (Hopen : ch_closed (c (ch lm)) = false).
    { rewrite Forall_forall in Ho. apply Ho. apply chs_of_In.
      exists (lptr l, lm). split; [now apply Load_In | reflexivity]. }
    rewrite close_at_open by assumption. simpl.
    eexists. split; [now rewrite Delete_without|].
    eapply closes_ext; cycle 1; [apply closes_insert|].
    intros i. rewrite dropped_one by assumption. simpl. split.
    + intros [<-|[]]. now exists lm.
    + intros (lm' & E & <-). left. congruence.
  - exists c. split; [now rewrite sm_without_absent|].
    eapply closes_ext; cycle 1; [apply closes_nil|].
    intros i. rewrite dropped_one by assumption. split; [intros []|].
    intros (lm & E & _). congruence.
Qed.

Lemma sm_without_cons sm p ps :
  sm_without (p :: ps) sm = sm_without ps (sm_without [p] sm).
Proof.
  unfold sm_without. induction sm as [|e sm IH]; [reflexivity|].
  cbn [filter]. rewrite mem_cons, mem_one.
  destruct (String.eqb (fst e) p); cbn [orb negb filter].
  - apply IH.
  - destruct (mem (fst e) ps); cbn [negb]; now rewrite IH.
Qed.

Lemma dropMany_spec (ls : list (Listener W)) sm c :
  inner_ok c sm ->
  exists c', dropMany sm c ls = Ok (sm_without (map lptr ls) sm, c')
    /\ closes c c' (chs_of (sm_dropped (map lptr ls) false sm)).
Proof.
  revert sm c. induction ls as [|l ls IH]; intros sm c Hok; simpl.
  - exists c. split.
    + unfold sm_without. f_equal. f_equal.
      symmetry. apply forallb_filter_id. apply forallb_forall. reflexivity.
    + eapply closes_ext; cycle 1; [apply closes_nil|].
      intros i. unfold sm_dropped. rewrite chs_of_filter_In.
      split; [intros [] | intros (e & _ & H & _); discriminate].
  - destruct (drop_spec sm c l Hok) as (c1 & -> & Hc1). simpl.
    assert (Hok1 : inner_ok c1 (sm_without [lptr l] sm)).
    { apply (inner_ok_filter c c1 (fun e => mem (fst e) [lptr l])); assumption. }
    destruct (IH _ _ Hok1) as (c2 & -> & Hc2).
    exists c2. split; [now rewrite <- sm_without_cons|].
    eapply closes_ext; cycle 1; [eapply closes_app; eassumption|].
    intros i. rewrite in_app_iff. unfold sm_dropped, sm_without.
    rewrite !chs_of_filter_In. split.
    + intros [(e & H1 & H2 & H3)|(e & H1 & H2 & H3)].
      * exists e. repeat split; try assumption.
        unfold mem in *. simpl in *. rewrite orb_false_r in H2. now rewrite H2.
      * apply filter_In in H1 as [H1 _].
        exists e. repeat split; try assumption.
        unfold mem in *. simpl. rewrite H2. apply orb_true_r.
    + intros (e & H1 & H2 & H3).
      destruct (mem (fst e) [lptr l]) eqn:E.
      * left. exists e. tauto.
      * right. exists e. repeat split; try assumption.
        -- apply filter_In. split; [assumption|]. now rewrite E.
        -- unfold mem in *. simpl in *. rewrite orb_false_r in E.
           now rewrite E in H2.
Qed.

Lemma dropAll_Range (snap : smap (listenerManager W)) cur c :
  NoDup (chs_of snap) ->
  Forall (fun i => ch_closed (c i) = false) (chs_of snap) ->
  exists cur' c',
    RangeR snap
      (fun key listMan (st : smap (listenerManager W) * (nat -> Chan)) =>
         let '(m, x) := st in
         try y <- close_at x (ch listMan);
         Ok ((Delete key m, y), true))
      (cur, c) = Ok (cur', c')
    /\ closes c c' (chs_of snap).
Proof.
  revert cur c. induction snap as [|[k lm] snap IH]; intros cur c Hnd Ho.
  - exists cur, c. split; [reflexivity | apply closes_nil].
  - cbn [chs_of map snd] in Hnd, Ho. fold (chs_of snap) in Hnd, Ho.
    apply NoDup_cons_iff in Hnd as [Hk Hnd].
    apply Forall_cons_iff in Ho as [Ho1 Ho].
    cbn [RangeR]. rewrite close_at_open by assumption. cbn [bindR].
    destruct (IH (Delete k cur) (<[ch lm := set_closed (c (ch lm))]> c) Hnd)
      as (cur' & c' & -> & Hcl).
    + apply Forall_forall. intros i Hi.
      rewrite fn_lookup_insert_ne by (intros E; subst i; tauto).
      rewrite Forall_forall in Ho. now apply Ho.
    + exists cur', c'. split; [reflexivity|].
      change (chs_of ((k, lm) :: snap)) with ([ch lm] ++ chs_of snap).
      eapply closes_app; [apply closes_insert | assumption].
Qed.

Lemma dropAll_spec sm c :
  inner_ok c sm ->
  exists sm' c', dropAll sm c = Ok (sm', c') /\ closes c c' (chs_of sm).
Proof.
  intros (_ & Hc & Ho). now apply dropAll_Range.
Qed.

End Drop.


Section OffFacts.

Context {W : Type}.
Implicit Types (reg : smap (smap (listenerManager W))) (c : nat -> Chan).
Implicit Types (s : State W).

Lemma Load_split {V} (m : smap V) t v :
  NoDup (keys m) -> Load t m = Some v ->
  exists r1 r2, m = r1 ++ (t, v) :: r2
    /\ ~ In t (keys r1) /\ ~ In t (keys r2).
Proof.
  intros Hnd HL. apply Load_In in HL. apply in_split in HL as (r1 & r2 & ->).
  exists r1, r2. split; [reflexivity|].
  unfold keys in *. rewrite map_app in Hnd. simpl in Hnd.
  apply NoDup_remove_2 in Hnd. rewrite in_app_iff in Hnd. tauto.
Qed.

Lemma Delete_app {V} (m1 m2 : smap V) t :
  Delete t (m1 ++ m2) = Delete t m1 ++ Delete t m2.
Proof.
  induction m1 as [|[k v] m1 IH]; simpl; [reflexivity|].
  destruct (String.eqb k t); simpl; now rewrite IH.
Qed.

Lemma Delete_split {V} (r1 r2 : smap V) t v :
  ~ In t (keys r1) -> ~ In t (keys r2) ->
  Delete t (r1 ++ (t, v) :: r2) = r1 ++ r2.
Proof.
  intros H1 H2. rewrite Delete_app. simpl. rewrite String.eqb_refl.
  now rewrite !Delete_absent.
Qed.

Lemma Store_split {V} (r1 r2 : smap V) t v v' :
  ~ In t (keys r1) ->
  Store t v' (r1 ++ (t, v) :: r2) = r1 ++ (t, v') :: r2.
Proof.
  induction r1 as [|[k x] r1 IH]; simpl; intros H.
  - now rewrite String.eqb_refl.
  - destruct (String.eqb_spec k t) as [->|Hne]; [tauto|].
    rewrite IH; tauto.
Qed.

Lemma off_reg_app ps all ts reg1 reg2 :
  off_reg ps all ts (reg1 ++ reg2)
  = off_reg ps all ts reg1 ++ off_reg ps all ts reg2.
Proof. unfold off_reg. apply flat_map_app. Qed.

Lemma off_closed_app ps all ts reg1 reg2 :
  off_closed ps all ts (reg1 ++ reg2)
  = off_closed ps all ts reg1 ++ off_closed ps all ts reg2.
Proof. unfold off_closed. apply flat_map_app. Qed.

Lemma off_reg_cons ps all ts kv reg :
  off_reg ps all ts (kv :: reg)
  = (if mem (fst kv) ts then off_entry ps all kv else [kv])
    ++ off_reg ps all ts reg.
Proof. reflexivity. Qed.

Lemma off_closed_cons ps all ts kv reg :
  off_closed ps all ts (kv :: reg)
  = (if mem (fst kv) ts then chs_of (sm_dropped ps all (snd kv)) else [])
    ++ off_closed ps all ts reg.
Proof. reflexivity. Qed.

Lemma all_chs_app reg1 reg2 : all_chs (reg1 ++ reg2) = all_chs reg1 ++ all_chs reg2.
Proof. unfold all_chs. apply flat_map_app. Qed.

Lemma all_chs_cons kv reg : all_chs (kv :: reg) = chs_of (snd kv) ++ all_chs reg.
Proof. reflexivity. Qed.

Lemma off_reg_disjoint ps all ts reg :
  (forall k, In k ts -> ~ In k (keys reg)) -> off_reg ps all ts reg = reg.
Proof.
  induction reg as [|[k v] reg IH]; intros H; [reflexivity|].
  rewrite off_reg_cons. simpl fst.
  destruct (mem k ts) eqn:E.
  - apply mem_In in E. exfalso. apply (H k E). now left.
  - simpl. rewrite IH; [reflexivity|].
    intros k' Hk' Hin. apply (H k' Hk'). now right.
Qed.

Lemma off_closed_disjoint ps all ts reg :
  (forall k, In k ts -> ~ In k (keys reg)) -> off_closed ps all ts reg = [].
Proof.
  induction reg as [|[k v] reg IH]; intros H; [reflexivity|].
  rewrite off_closed_cons. simpl fst.
  destruct (mem k ts) eqn:E.
  - apply mem_In in E. exfalso. apply (H k E). now left.
  - simpl. apply IH.
    intros k' Hk' Hin. apply (H k' Hk'). now right.
Qed.

Lemma one_absent t (ks : list string) :
  ~ In t ks -> forall k, In k [t] -> ~ In k ks.
Proof. intros H k [<-|[]]. assumption. Qed.

Lemma off_reg_split ps all (r1 r2 : smap (smap (listenerManager W))) t v :
  ~ In t (keys r1) -> ~ In t (keys r2) ->
  off_reg ps all [t] (r1 ++ (t, v) :: r2)
  = r1 ++ off_entry ps all (t, v) ++ r2.
Proof.
  intros H1 H2. rewrite off_reg_app, off_reg_cons. simpl fst.
  rewrite mem_one, String.eqb_refl.
  rewrite !off_reg_disjoint by now apply one_absent. reflexivity.
Qed.

Lemma off_closed_split ps all (r1 r2 : smap (smap (listenerManager W))) t v :
  ~ In t (keys r1) -> ~ In t (keys r2) ->
  off_closed ps all [t] (r1 ++ (t, v) :: r2)
  = chs_of (sm_dropped ps all v).
Proof.
  intros H1 H2. rewrite off_closed_app, off_closed_cons. simpl fst.
  rewrite mem_one, String.eqb_refl.
  rewrite !off_closed_disjoint by now apply one_absent.
  simpl. apply app_nil_r.
Qed.

Lemma reg_ok_inner c (r1 r2 : smap (smap (listenerManager W))) t sm :
  reg_ok c (r1 ++ (t, sm) :: r2) -> inner_ok c sm.
Proof.
  intros (Hk & Hi & Hc & Ho). repeat split.
  - rewrite Forall_app, Forall_cons_iff in Hi. tauto.
  - rewrite all_chs_app, all_chs_cons in Hc. simpl in Hc.
    apply NoDup_app_r, NoDup_app_l in Hc. assumption.
  - rewrite all_chs_app, all_chs_cons, !Forall_app in Ho. tauto.
Qed.

(** One round of [Off] on a well-formed registry. *)
Lemma Off_topic_spec (ls : list (Listener W)) s t :
  reg_ok (chans s) (listMans s) ->
  exists s', Off_topic ls s t = Ok s'
    /\ listMans s' = off_reg (map lptr ls) (is_nil ls) [t] (listMans s)
    /\ closes (chans s) (chans s')
         (off_closed (map lptr ls) (is_nil ls) [t] (listMans s))
    /\ same_rest s s'.
Proof.
  intros Hok. unfold Off_topic.
  rewrite RangeR_select with (t := t); [|apply Hok|].
  2:{ intros k v st Hne. apply eqb_false_ne in Hne. now rewrite Hne. }
  destruct (Load t (listMans s)) as [sm|] eqn:HL.
  - destruct (Load_split _ _ _ (proj1 Hok) HL) as (r1 & r2 & E & H1 & H2).
    rewrite E in Hok. pose proof (reg_ok_inner _ _ _ _ _ Hok) as Hin.
    rewrite String.eqb_refl. cbn [negb].
    destruct ls as [|l ls].
    + destruct (dropAll_spec sm (chans s) Hin) as (sm' & c' & -> & Hcl).
      cbn [bindR]. eexists. split; [reflexivity|].
      cbn [listMans chans set_listMans set_chans map is_nil].
      rewrite E, Delete_split, off_reg_split, off_closed_split by assumption.
      split; [reflexivity|]. split; [exact Hcl|]. repeat split.
    + destruct (dropMany_spec (l :: ls) sm (chans s) Hin) as (c' & -> & Hcl).
      cbn [bindR is_nil].
      assert (Hcl' : closes (chans s) c'
                (off_closed (map lptr (l :: ls)) false [t] (listMans s))).
      { rewrite E, off_closed_split by assumption. assumption. }
      rewrite E in Hcl'.
      destruct (sm_without (map lptr (l :: ls)) sm) as [|e sm'] eqn:Esm.
      * eexists. split; [reflexivity|].
        cbn [listMans chans set_listMans set_chans].
        rewrite E, Delete_split, off_reg_split by assumption.
        unfold off_entry. cbn [snd fst]. rewrite Esm.
        split; [reflexivity|]. split; [exact Hcl'|]. repeat split.
      * eexists. split; [reflexivity|].
        cbn [listMans chans set_listMans set_chans].
        rewrite E, Store_split, off_reg_split by assumption.
        unfold off_entry. cbn [snd fst]. rewrite Esm.
        split; [reflexivity|]. split; [exact Hcl'|]. repeat split.
  - exists s. split; [reflexivity|].
    apply Load_None in HL.
    rewrite off_reg_disjoint, off_closed_disjoint by now apply one_absent.
    split; [reflexivity|]. split; [apply closes_nil|]. repeat split.
Qed.

End OffFacts.


Section OffFold.

Context {W : Type}.
Implicit Types (reg : smap (smap (listenerManager W))) (c : nat -> Chan).
Implicit Types (s : State W) (kv : string * smap (listenerManager W)).

Lemma keys_off_entry ps all kv k :
  In k (keys (off_entry ps all kv)) -> k = fst kv.
Proof.
  unfold off_entry. destruct all; [intros []|].
  destruct (sm_without ps (snd kv)); [intros []|].
  intros [<-|[]]. reflexivity.
Qed.

Lemma all_chs_off_entry ps all kv :
  all_chs (off_entry ps all kv)
  = if all then [] else chs_of (sm_without ps (snd kv)).
Proof.
  unfold off_entry. destruct all; [reflexivity|].
  destruct (sm_without ps (snd kv)); [reflexivity|].
  unfold all_chs. cbn [flat_map snd]. apply app_nil_r.
Qed.

Lemma off_entry_inner ps all kv :
  NoDup (keys (snd kv)) ->
  Forall (fun kv => NoDup (keys (snd kv))) (off_entry ps all kv).
Proof.
  intros H. unfold off_entry. destruct all; [constructor|].
  destruct (sm_without ps (snd kv)) eqn:E; [constructor|].
  constructor; [|constructor]. cbn [snd]. rewrite <- E.
  unfold keys, sm_without. now apply NoDup_map_filter.
Qed.

Lemma NoDup_keys_off_entry ps all kv : NoDup (keys (off_entry ps all kv)).
Proof.
  unfold off_entry. destruct all; [constructor|].
  destruct (sm_without ps (snd kv)); [constructor|].
  simpl. constructor; [intros [] | constructor].
Qed.

Lemma kept_incl ps all kv i :
  In i (all_chs (off_entry ps all kv)) -> In i (chs_of (snd kv)).
Proof.
  rewrite all_chs_off_entry. destruct all; [intros []|].
  unfold sm_without. rewrite chs_of_filter_In, chs_of_In.
  intros (e & ? & ? & ?). exists e. tauto.
Qed.

Lemma dropped_incl ps all (sm : smap (listenerManager W)) i :
  In i (chs_of (sm_dropped ps all sm)) -> In i (chs_of sm).
Proof.
  unfold sm_dropped. destruct all; [trivial|].
  rewrite chs_of_filter_In, chs_of_In.
  intros (e & ? & ? & ?). exists e. tauto.
Qed.

Lemma kept_dropped ps all kv i :
  NoDup (chs_of (snd kv)) ->
  In i (all_chs (off_entry ps all kv)) ->
  In i (chs_of (sm_dropped ps all (snd kv))) -> False.
Proof.
  rewrite all_chs_off_entry. unfold sm_dropped, sm_without.
  destruct all; [intros _ []|].
  intros Hnd H1 H2.
  now apply (kept_dropped_disjoint (fun e => mem (fst e) ps) (snd kv) i).
Qed.

Lemma keys_off_incl ps all ts reg k :
  In k (keys (off_reg ps all ts reg)) -> In k (keys reg).
Proof.
  induction reg as [|kv reg IH]; [trivial|].
  rewrite off_reg_cons. unfold keys in *. rewrite map_app, in_app_iff.
  intros [H|H]; [left | right; now apply IH].
  destruct (mem (fst kv) ts).
  - symmetry. now apply (keys_off_entry ps all).
  - destruct H as [<-|[]]. reflexivity.
Qed.

Lemma all_chs_off_incl ps all ts reg i :
  In i (all_chs (off_reg ps all ts reg)) -> In i (all_chs reg).
Proof.
  induction reg as [|kv reg IH]; [trivial|].
  rewrite off_reg_cons, all_chs_app, all_chs_cons, !in_app_iff.
  intros [H|H]; [left | right; now apply IH].
  destruct (mem (fst kv) ts).
  - now apply kept_incl in H.
  - rewrite all_chs_cons in H. simpl in H. now rewrite app_nil_r in H.
Qed.

Lemma off_closed_incl ps all ts reg i :
  In i (off_closed ps all ts reg) -> In i (all_chs reg).
Proof.
  induction reg as [|kv reg IH]; [trivial|].
  rewrite off_closed_cons, all_chs_cons, !in_app_iff.
  intros [H|H]; [left | right; now apply IH].
  destruct (mem (fst kv) ts); [|destruct H].
  now apply dropped_incl in H.
Qed.

Lemma off_disjoint ps all ts reg i :
  NoDup (all_chs reg) ->
  In i (all_chs (off_reg ps all ts reg)) ->
  In i (off_closed ps all ts reg) -> False.
Proof.
  induction reg as [|kv reg IH]; [intros _ []|].
  rewrite off_reg_cons, off_closed_cons, all_chs_app, all_chs_cons, !in_app_iff.
  intros Hnd H1 H2.
  pose proof (NoDup_app_l _ _ Hnd) as Hl.
  pose proof (NoDup_app_r _ _ Hnd) as Hr.
  assert (Hx : forall j, In j (chs_of (snd kv)) -> In j (all_chs reg) -> False).
  { intros j. now apply NoDup_app_disjoint. }
  destruct H1 as [H1|H1], H2 as [H2|H2].
  - destruct (mem (fst kv) ts); [|destruct H2].
    now apply (kept_dropped ps all kv i).
  - apply (Hx i); [|now apply off_closed_incl in H2].
    destruct (mem (fst kv) ts).
    + now apply kept_incl in H1.
    + rewrite all_chs_cons in H1. simpl in H1. now rewrite app_nil_r in H1.
  - apply (Hx i); [|now apply all_chs_off_incl in H1].
    destruct (mem (fst kv) ts); [|destruct H2].
    now apply dropped_incl in H2.
  - now apply IH.
Qed.

Lemma NoDup_keys_off ps all ts reg :
  NoDup (keys reg) -> NoDup (keys (off_reg ps all ts reg)).
Proof.
  induction reg as [|kv reg IH]; [trivial|].
  rewrite off_reg_cons. unfold keys in *. rewrite map_app. simpl.
  intros Hnd. apply NoDup_cons_iff in Hnd as [Hk Hnd].
  apply NoDup_app_intro; [| now apply IH |].
  - destruct (mem (fst kv) ts); [apply NoDup_keys_off_entry|].
    simpl. constructor; [intros [] | constructor].
  - intros k H1 H2. apply keys_off_incl in H2. apply Hk.
    replace (fst kv) with k; [assumption|].
    destruct (mem (fst kv) ts).
    + now apply (keys_off_entry ps all).
    + destruct H1 as [<-|[]]. reflexivity.
Qed.

Lemma NoDup_all_chs_off ps all ts reg :
  NoDup (all_chs reg) -> NoDup (all_chs (off_reg ps all ts reg)).
Proof.
  induction reg as [|kv reg IH]; [trivial|].
  rewrite off_reg_cons, all_chs_app, all_chs_cons.
  intros Hnd.
  pose proof (NoDup_app_l _ _ Hnd) as Hl.
  pose proof (NoDup_app_r _ _ Hnd) as Hr.
  apply NoDup_app_intro; [| now apply IH |].
  - destruct (mem (fst kv) ts).
    + rewrite all_chs_off_entry. destruct all; [constructor|].
      unfold chs_of, sm_without. now apply NoDup_map_filter.
    + rewrite all_chs_cons. simpl. now rewrite app_nil_r.
  - intros i H1 H2. apply all_chs_off_incl in H2.
    apply (NoDup_app_disjoint _ _ i Hnd); [|assumption].
    destruct (mem (fst kv) ts).
    + now apply kept_incl in H1.
    + rewrite all_chs_cons in H1. simpl in H1. now rewrite app_nil_r in H1.
Qed.

Lemma inner_off ps all ts reg :
  Forall (fun kv => NoDup (keys (snd kv))) reg ->
  Forall (fun kv => NoDup (keys (snd kv))) (off_reg ps all ts reg).
Proof.
  induction reg as [|kv reg IH]; [trivial|].
  rewrite off_reg_cons, Forall_cons_iff, Forall_app. intros [H1 H2].
  split; [|now apply IH].
  destruct (mem (fst kv) ts); [now apply off_entry_inner|].
  constructor; [assumption | constructor].
Qed.

Lemma reg_ok_off ps all ts reg c c' :
  reg_ok c reg ->
  closes c c' (off_closed ps all ts reg) ->
  reg_ok c' (off_reg ps all ts reg).
Proof.
  intros (Hk & Hi & Hc & Ho) Hcl. repeat split.
  - now apply NoDup_keys_off.
  - now apply inner_off.
  - now apply NoDup_all_chs_off.
  - apply Forall_forall. intros i Hi'.
    destruct (Hcl i) as [_ Hb]. rewrite Hb.
    + rewrite Forall_forall in Ho. apply Ho. now apply all_chs_off_incl in Hi'.
    + intros H. now apply (off_disjoint ps all ts reg i).
Qed.

Lemma off_reg_entry_fixed ps all ts kv :
  ~ In (fst kv) ts ->
  off_reg ps all ts (off_entry ps all kv) = off_entry ps all kv.
Proof.
  intros H. apply off_reg_disjoint. intros k Hk Hin.
  apply keys_off_entry in Hin. now subst.
Qed.

Lemma off_closed_entry_nil ps all ts kv :
  ~ In (fst kv) ts ->
  off_closed ps all ts (off_entry ps all kv) = [].
Proof.
  intros H. apply off_closed_disjoint. intros k Hk Hin.
  apply keys_off_entry in Hin. now subst.
Qed.

Lemma off_reg_step ps all t ts reg :
  ~ In t ts ->
  off_reg ps all ts (off_reg ps all [t] reg) = off_reg ps all (t :: ts) reg.
Proof.
  intros Ht. induction reg as [|kv reg IH]; [reflexivity|].
  rewrite !off_reg_cons, off_reg_app, IH, mem_one, mem_cons. f_equal.
  destruct (String.eqb_spec (fst kv) t) as [E|Hne]; cbn [orb].
  - apply off_reg_entry_fixed. now rewrite E.
  - rewrite off_reg_cons. cbn [off_reg flat_map]. apply app_nil_r.
Qed.

Lemma off_closed_step ps all t ts reg i :
  ~ In t ts ->
  In i (off_closed ps all [t] reg
        ++ off_closed ps all ts (off_reg ps all [t] reg))
  <-> In i (off_closed ps all (t :: ts) reg).
Proof.
  intros Ht. induction reg as [|kv reg IH]; [reflexivity|].
  rewrite !off_closed_cons, off_reg_cons, off_closed_app, mem_one, mem_cons.
  rewrite !in_app_iff in *.
  destruct (String.eqb_spec (fst kv) t) as [E|Hne]; cbn [orb].
  - rewrite off_closed_entry_nil by now rewrite E. simpl. tauto.
  - rewrite off_closed_cons. cbn [off_closed flat_map].
    rewrite app_nil_r. simpl. tauto.
Qed.

Lemma same_rest_refl s : same_rest s s.
Proof. repeat split. Qed.

Lemma same_rest_trans s1 s2 s3 :
  same_rest s1 s2 -> same_rest s2 s3 -> same_rest s1 s3.
Proof. unfold same_rest. intuition congruence. Qed.

(** The loop of [Off] over distinct topics. *)
Lemma foldR_Off_topic (ls : list (Listener W)) ts s :
  NoDup ts ->
  reg_ok (chans s) (listMans s) ->
  exists s', foldR (Off_topic ls) ts s = Ok s'
    /\ listMans s' = off_reg (map lptr ls) (is_nil ls) ts (listMans s)
    /\ closes (chans s) (chans s')
         (off_closed (map lptr ls) (is_nil ls) ts (listMans s))
    /\ same_rest s s'.
Proof.
  revert s. induction ts as [|t ts IH]; intros s Hnd Hok.
  - exists s. split; [reflexivity|].
    rewrite off_reg_disjoint, off_closed_disjoint by (intros k []).
    split; [reflexivity|]. split; [apply closes_nil | apply same_rest_refl].
  - apply NoDup_cons_iff in Hnd as [Ht Hnd].
    destruct (Off_topic_spec ls s t Hok) as (s1 & E1 & R1 & C1 & S1).
    cbn [foldR]. rewrite E1. cbn [bindR].
    destruct (IH s1 Hnd) as (s' & E' & R' & C' & S').
    { rewrite R1. eapply reg_ok_off; eassumption. }
    exists s'. split; [assumption|].
    rewrite R1 in R', C'. rewrite off_reg_step in R' by assumption.
    split; [assumption|].
    split; [|eapply same_rest_trans; eassumption].
    eapply closes_ext; [|eapply closes_app; eassumption].
    intros i. now apply off_closed_step.
Qed.

End OffFold.


Section OffSpec.

Context {W : Type}.
Variable path_Match : string -> string -> bool * option GoPath.error.
Implicit Types (reg : smap (smap (listenerManager W))) (c : nat -> Chan).
Implicit Types (s : State W) (kv : string * smap (listenerManager W)).

Lemma wf_reg_ok s : wf s -> reg_ok (chans s) (listMans s).
Proof. unfold wf, reg_ok. tauto. Qed.

Lemma before_error_NoDup Q ks :
  NoDup ks -> NoDup (before_error path_Match Q ks).
Proof.
  induction ks as [|k ks IH]; simpl; [trivial|].
  intros Hnd. apply NoDup_cons_iff in Hnd as [Hk Hnd].
  destruct (snd (path_Match Q k)); [constructor|].
  constructor; [|now apply IH].
  intros H. apply before_error_incl in H. tauto.
Qed.

Lemma matched_NoDup s Q :
  NoDup (keys (listMans s)) -> NoDup (fst (matched path_Match s Q)).
Proof.
  intros H. rewrite matched_spec, Topics_keys. simpl.
  apply NoDup_filter. now apply before_error_NoDup.
Qed.

(** [Off] on a well-formed state, in closed form. *)
Lemma Off_spec s T (ls : list (Listener W)) :
  wf s ->
  exists s', Off path_Match s T ls = Ok s'
    /\ listMans s'
       = off_reg (map lptr ls) (is_nil ls) (fst (matched path_Match s T))
           (listMans s)
    /\ closes (chans s) (chans s')
         (off_closed (map lptr ls) (is_nil ls)
            (fst (matched path_Match s T)) (listMans s))
    /\ same_rest s s'.
Proof.
  intros Hwf. unfold Off.
  destruct (matched path_Match s T) as [M e] eqn:E.
  replace M with (fst (matched path_Match s T)) by now rewrite E.
  apply foldR_Off_topic.
  - apply matched_NoDup, Hwf.
  - now apply wf_reg_ok.
Qed.

Lemma off_reg_In ps all ts reg K sm' :
  In (K, sm') (off_reg ps all ts reg) ->
  (~ In K ts /\ In (K, sm') reg)
  \/ (In K ts /\ all = false /\ sm' <> []
      /\ exists sm, In (K, sm) reg /\ sm' = sm_without ps sm).
Proof.
  induction reg as [|kv reg IH]; [intros []|].
  rewrite off_reg_cons, in_app_iff. intros [H|H].
  - destruct (mem (fst kv) ts) eqn:E.
    + right. apply mem_In in E. unfold off_entry in H.
      destruct all; [destruct H|].
      destruct (sm_without ps (snd kv)) eqn:Es; [destruct H|].
      destruct H as [H|[]]. injection H as <- <-.
      split; [assumption|]. split; [reflexivity|]. split; [discriminate|].
      exists (snd kv). split; [left; now destruct kv | now symmetry].
    + left. apply mem_not_In in E. destruct H as [H|[]]. subst kv.
      split; [assumption | now left].
  - destruct (IH H) as [[? ?]|(? & ? & ? & sm & ? & ?)].
    + left. split; [assumption | now right].
    + right. repeat split; try assumption. exists sm. split; [now right | assumption].
Qed.

Lemma keys_off_all ps ts reg :
  keys (off_reg ps true ts reg) = filter (fun K => negb (mem K ts)) (keys reg).
Proof.
  induction reg as [|kv reg IH]; [reflexivity|].
  rewrite off_reg_cons. unfold keys in *. rewrite map_app, IH. simpl.
  destruct (mem (fst kv) ts); reflexivity.
Qed.

Lemma before_error_off_incl Q ps all ts reg K :
  (forall k, In k ts -> snd (path_Match Q k) = None) ->
  In K (before_error path_Match Q (keys (off_reg ps all ts reg))) ->
  In K (before_error path_Match Q (keys reg)).
Proof.
  intros Hts. induction reg as [|kv reg IH]; [trivial|].
  rewrite off_reg_cons. unfold keys in *. rewrite map_app. simpl.
  destruct (mem (fst kv) ts) eqn:E.
  - apply mem_In in E. rewrite (Hts _ E).
    unfold off_entry. destruct all; simpl.
    + intros H. right. now apply IH.
    + destruct (sm_without ps (snd kv)); simpl.
      * intros H. right. now apply IH.
      * rewrite (Hts _ E). intros [H|H]; [now left | right; now apply IH].
  - simpl. destruct (snd (path_Match Q (fst kv))); [trivial|].
    intros [H|H]; [now left | right; now apply IH].
Qed.

(** After [Off], the same query resolves to no topic it did not
    resolve to before. *)
Lemma matched_off_incl s s' Q ps all K :
  listMans s' = off_reg ps all (fst (matched path_Match s Q)) (listMans s) ->
  In K (fst (matched path_Match s' Q)) ->
  In K (fst (matched path_Match s Q)).
Proof.
  intros E. rewrite (matched_spec path_Match s'), !Topics_keys, E.
  cbn [fst]. rewrite filter_In. intros [H1 H2].
  rewrite matched_spec, Topics_keys. cbn [fst]. rewrite filter_In.
  split; [|assumption].
  eapply before_error_off_incl; [|eassumption].
  intros k Hk. now apply matched_In in Hk.
Qed.

Lemma wf_off s s' ps all ts :
  wf s ->
  listMans s' = off_reg ps all ts (listMans s) ->
  closes (chans s) (chans s') (off_closed ps all ts (listMans s)) ->
  next_chan s' = next_chan s ->
  wf s'.
Proof.
  intros Hwf E Hcl Hnext.
  destruct (reg_ok_off ps all ts _ _ _ (wf_reg_ok s Hwf) Hcl) as (A & B & C & D).
  destruct Hwf as (_ & Hin & Hp & Hne & _ & _ & Hlt).
  assert (Hlt' : Forall (fun i => i < next_chan s') (all_chs (listMans s'))).
  { rewrite Forall_forall in *. intros i Hi. rewrite Hnext. apply Hlt.
    rewrite E in Hi. now apply all_chs_off_incl in Hi. }
  rewrite <- E in A, B, C, D.
  unfold wf. repeat split; try assumption.
  - rewrite Forall_forall in *. intros [K sm'] HK. rewrite E in HK.
    apply off_reg_In in HK as [[_ HK]|(_ & _ & _ & sm & HK & ->)].
    + apply (Hp _ HK).
    + specialize (Hp _ HK). simpl in *. rewrite Forall_forall in *.
      intros e He. apply Hp. unfold sm_without in He.
      now apply filter_In in He.
  - rewrite Forall_forall in *. intros [K sm'] HK. rewrite E in HK.
    apply off_reg_In in HK as [[_ HK]|(_ & _ & Hn & _)].
    + apply (Hne _ HK).
    + assumption.
Qed.

End OffSpec.


Section OffClaims.

Context {W : Type}.
Variable path_Match : string -> string -> bool * option GoPath.error.
Implicit Types (reg : smap (smap (listenerManager W))) (c : nat -> Chan).
Implicit Types (s : State W) (kv : string * smap (listenerManager W)).

Lemma off_closed_In ps all ts reg K sm e :
  In K ts -> In (K, sm) reg -> In e (sm_dropped ps all sm) ->
  In (ch (snd e)) (off_closed ps all ts reg).
Proof.
  intros HK Hin He. induction reg as [|kv reg IH]; [destruct Hin|].
  rewrite off_closed_cons, in_app_iff. destruct Hin as [->|Hin].
  - left. simpl. apply mem_In in HK. rewrite HK.
    apply chs_of_In. now exists e.
  - right. now apply IH.
Qed.

Lemma dropMany_noop (ls : list (Listener W)) (sm : smap (listenerManager W)) c :
  (forall l, In l ls -> Load (lptr l) sm = None) ->
  dropMany sm c ls = Ok (sm, c).
Proof.
  induction ls as [|l ls IH]; intros H; [reflexivity|].
  cbn [dropMany]. unfold drop. rewrite (H l) by now left.
  cbn [bindR]. apply IH. intros l' Hl'. apply H. now right.
Qed.

Lemma set_same s : set_listMans (set_chans s (chans s)) (listMans s) = s.
Proof. now destruct s. Qed.

Lemma Off_topic_noop (ls : list (Listener W)) s t :
  NoDup (keys (listMans s)) ->
  ls <> [] ->
  (forall sm, Load t (listMans s) = Some sm ->
     sm <> [] /\ forall l, In l ls -> Load (lptr l) sm = None) ->
  Off_topic ls s t = Ok s.
Proof.
  intros Hnd Hls H. unfold Off_topic.
  rewrite RangeR_select with (t := t); [|assumption|].
  2:{ intros k v st Hne. apply eqb_false_ne in Hne. now rewrite Hne. }
  destruct (Load t (listMans s)) as [sm|] eqn:HL; [|reflexivity].
  destruct (H sm eq_refl) as [Hne Hno].
  rewrite String.eqb_refl. cbn [negb].
  destruct ls as [|l ls]; [congruence|].
  rewrite dropMany_noop by assumption. cbn [bindR].
  destruct sm as [|e sm]; [congruence|].
  rewrite Store_same by assumption. now rewrite set_same.
Qed.

Lemma foldR_noop {A St} (f : St -> A -> Res St) l st :
  (forall a, In a l -> f st a = Ok st) -> foldR f l st = Ok st.
Proof.
  induction l as [|a l IH]; intros H; [reflexivity|].
  cbn [foldR]. rewrite (H a) by now left. cbn [bindR].
  apply IH. intros a' Ha'. apply H. now right.
Qed.

Lemma Off_noop s T (ls : list (Listener W)) :
  wf s ->
  fst (matched path_Match s T) = [] \/ ls <> [] ->
  (forall K sm l, In K (fst (matched path_Match s T)) ->
     Load K (listMans s) = Some sm -> In l ls -> Load (lptr l) sm = None) ->
  Off path_Match s T ls = Ok s.
Proof.
  intros Hwf Hc H. unfold Off.
  destruct (matched path_Match s T) as [M e] eqn:E. cbn [fst] in *.
  destruct Hc as [->|Hls]; [reflexivity|].
  apply foldR_noop. intros t Ht.
  apply Off_topic_noop; [apply Hwf | assumption |].
  intros sm HL. split; [|intros l Hl; now apply (H t sm l)].
  destruct Hwf as (_ & _ & _ & Hne & _).
  rewrite Forall_forall in Hne. apply (Hne (t, sm)). now apply Load_In.
Qed.

Lemma matched_after_Off_all s s' T :
  listMans s' = off_reg [] true (fst (matched path_Match s T)) (listMans s) ->
  fst (matched path_Match s' T) = [].
Proof.
  intros E. destruct (fst (matched path_Match s' T)) as [|K M'] eqn:EM;
    [reflexivity|].
  exfalso.
  assert (HK : In K (fst (matched path_Match s' T))) by (rewrite EM; now left).
  pose proof (matched_off_incl path_Match s s' T [] true K E HK) as HM.
  apply matched_In in HK as [HK _].
  rewrite Topics_keys, E, keys_off_all in HK.
  apply filter_In in HK as [_ HK].
  apply mem_In in HM. rewrite HM in HK. discriminate.
Qed.

(** C9 (as amended): on a well-formed registry, [Off] without
    listeners removes every topic that the query resolves to, closing
    the mailbox of every subscription under it, so that [Topics] no
    longer lists them and a second [Off] changes nothing; when the glob
    primitive reports no error for the query, these are all the
    registered topics matching it in either direction.  No [Off] call
    leaves an empty entry behind, and an [Off] that names no
    registered pairing leaves the state as it is. *)
Theorem Off_removes_resolved (s : State W) (T : string) :
  wf s ->
  exists s',
    Off path_Match s T [] = Ok s'
    /\ Topics s'
       = filter (fun K => negb (mem K (fst (matched path_Match s T)))) (Topics s)
    /\ (forall K sm p lm,
          In K (fst (matched path_Match s T)) ->
          Load K (listMans s) = Some sm -> In (p, lm) sm ->
          ch_closed (chans s' (ch lm)) = true)
    /\ ((forall K, In K (Topics s) -> snd (path_Match T K) = None) ->
        forall K, In K (Topics s) -> bidir path_Match T K = true ->
                  ~ In K (Topics s'))
    /\ Off path_Match s' T [] = Ok s'
    /\ (forall ls s'', Off path_Match s T ls = Ok s'' ->
          Forall (fun kv => snd kv <> []) (listMans s''))
    /\ (forall ls,
          fst (matched path_Match s T) = [] \/ ls <> [] ->
          (forall K sm l, In K (fst (matched path_Match s T)) ->
             Load K (listMans s) = Some sm -> In l ls ->
             Load (lptr l) sm = None) ->
          Off path_Match s T ls = Ok s).
Proof.
  intros Hwf.
  destruct (Off_spec path_Match s T [] Hwf) as (s' & E & R & C & S).
  cbn [map is_nil] in R, C.
  assert (HT : Topics s' = filter (fun K => negb (mem K (fst (matched path_Match s T)))) (Topics s)).
  { now rewrite !Topics_keys, R, keys_off_all. }
  exists s'. split; [assumption|]. split; [assumption|].
  split; [|split; [|split; [|split]]].
  - intros K sm p lm HK HL Hin.
    destruct (C (ch lm)) as [Ha _]. rewrite Ha; [reflexivity|].
    apply (off_closed_In [] true _ _ K sm (p, lm)); try assumption.
    now apply Load_In.
  - intros Hne K HK Hb. rewrite HT, filter_In. intros [_ Hn].
    rewrite (matched_no_error path_Match s T Hne) in Hn. cbn [fst] in Hn.
    assert (Hin : In K (filter (bidir path_Match T) (Topics s)))
      by (apply filter_In; tauto).
    apply mem_In in Hin. rewrite Hin in Hn. discriminate.
  - unfold Off.
    pose proof (matched_after_Off_all s s' T R) as EM.
    destruct (matched path_Match s' T) as [M' e']. cbn [fst] in EM.
    now subst M'.
  - intros ls s'' E''.
    destruct (Off_spec path_Match s T ls Hwf) as (s1 & E1 & R1 & C1 & S1).
    assert (s'' = s1) by congruence. subst s''.
    now apply (wf_off s s1 _ _ _ Hwf R1 C1 (proj1 (proj2 (proj2 S1)))).
  - intros ls. now apply Off_noop.
Qed.

End OffClaims.

(** ** The pattern-scoped middlewares *)

Section PatternChains.

Context {W : Type}.
Variable path_Match : string -> string -> bool * option GoPath.error.
Implicit Types (s : State W).

Lemma getMiddlewares_Range (m : smap (list Middleware)) topic acc :
  Range m
    (fun pattern mws acc =>
       if fst (path_Match pattern topic) then (acc ++ mws, true)
       else if fst (path_Match topic pattern) then (acc ++ mws, true)
       else (acc, true))
    acc
  = acc ++ flat_map (fun kv => if bidir path_Match (fst kv) topic
                               then snd kv else []) m.
Proof.
  revert acc. induction m as [|[k mws] m IH]; intros acc; cbn [Range flat_map].
  - now rewrite app_nil_r.
  - unfold bidir at 1. cbn [fst snd].
    destruct (fst (path_Match k topic)); cbn [orb].
    + now rewrite IH, app_assoc.
    + destruct (fst (path_Match topic k)); rewrite IH.
      * now rewrite app_assoc.
      * reflexivity.
Qed.

(** The chains that [getMiddlewares] collects, in closed form. *)
Lemma getMiddlewares_flat_map s topic :
  getMiddlewares path_Match s topic
  = flat_map (fun kv => if bidir path_Match (fst kv) topic
                        then snd kv else []) (middlewares s).
Proof. unfold getMiddlewares. apply (getMiddlewares_Range _ topic []). Qed.

(** [getMiddlewares] collects the pattern-scoped middlewares of the
    topic. *)
Lemma getMiddlewares_chain s topic :
  getMiddlewares path_Match s topic = pattern_chain path_Match s topic.
Proof. apply getMiddlewares_flat_map. Qed.

End PatternChains.

Section EmitFacts.

Context {W : Type}.
Variable path_Match : string -> string -> bool * option GoPath.error.
Implicit Types (s : State W) (h : Heap) (tasks : list (Task W)).

Lemma applyMiddlewares_local e fns h :
  Forall mw_local fns ->
  next (applyMiddlewares e fns h) = next h
  /\ objs (applyMiddlewares e fns h) e = run_mws fns (objs h e)
  /\ forall e', e' <> e -> objs (applyMiddlewares e fns h) e' = objs h e'.
Proof.
  unfold applyMiddlewares, run_mws. revert h.
  induction fns as [|fn fns IH]; intros h Hl; simpl.
  - repeat split.
  - apply Forall_cons_iff in Hl as [Hfn Hl].
    destruct (Hfn e h) as (N & O & F).
    destruct (IH (fn e h) Hl) as (N' & O' & F').
    rewrite N', O', N, O. repeat split.
    intros e' He'. rewrite F', F; trivial.
Qed.

Lemma Clone_spec e h :
  fst (Clone e h) = next h
  /\ next (snd (Clone e h)) = S (next h)
  /\ objs (snd (Clone e h)) (next h) = obj_Clone (objs h e)
  /\ forall e', e' <> next h -> objs (snd (Clone e h)) e' = objs h e'.
Proof.
  unfold Clone, alloc. simpl. repeat split.
  - apply fn_lookup_insert.
  - intros e' He'. now apply fn_lookup_insert_ne.
Qed.

Lemma view_ext h h' tasks :
  Forall (fun t => objs h' (t_event t) = objs h (t_event t)) tasks ->
  view h' tasks = view h tasks.
Proof.
  unfold view. induction 1 as [|t tasks E _ IH]; simpl; [reflexivity|].
  now rewrite E, IH.
Qed.

Lemma Emit_listMan_spec event (lm : listenerManager W) tasks h :
  Forall mw_local (lm_middlewares lm) ->
  tasks_ok event h tasks ->
  exists tasks' h',
    Emit_listMan event lm (tasks, h) = ((tasks', h'), true)
    /\ tasks_ok event h' tasks'
    /\ objs h' event = objs h event
    /\ view h' tasks'
       = view h tasks ++ deliveries_of (objs h event) [("", lm)].
Proof.
  intros Hl [He Ht]. unfold Emit_listMan.
  destruct (Clone_spec event h) as (C1 & C2 & C3 & C4).
  destruct (Clone event h) as [evn h1]. cbn [fst snd] in *. subst evn.
  destruct (applyMiddlewares_local (next h) (lm_middlewares lm) h1 Hl)
    as (A1 & A2 & A3).
  set (h2 := applyMiddlewares (next h) (lm_middlewares lm) h1) in *.
  assert (Hold : forall e, e < next h -> objs h2 e = objs h e).
  { intros e Hlt. rewrite A3, C4; trivial; lia. }
  assert (Hv : view h2 tasks = view h tasks).
  { apply view_ext. rewrite Forall_forall in *. intros t Hin.
    apply Hold. now apply Ht. }
  assert (Hok : Forall (fun t => t_event t < next h2 /\ t_event t <> event) tasks).
  { rewrite Forall_forall in *. intros t Hin. destruct (Ht t Hin).
    split; [lia | assumption]. }
  unfold deliveries_of. cbn [flat_map snd]. rewrite app_nil_r.
  unfold GetFlag. rewrite A2, C3.
  destruct (has_flag _ FlagVoid).
  - exists tasks, h2. split; [reflexivity|].
    split; [split; [lia | assumption]|].
    split; [now apply Hold|]. now rewrite app_nil_r.
  - exists (tasks ++ [mkTask lm (next h)]), h2. split; [reflexivity|].
    split; [split; [lia|]|].
    + apply Forall_app. split; [assumption|].
      constructor; [|constructor]. simpl. split; lia.
    + split; [now apply Hold|].
      unfold view in *. rewrite map_app, Hv. simpl. now rewrite A2, C3.
Qed.

Lemma deliveries_of_app o (sm1 sm2 : smap (listenerManager W)) :
  deliveries_of o (sm1 ++ sm2) = deliveries_of o sm1 ++ deliveries_of o sm2.
Proof. unfold deliveries_of. apply flat_map_app. Qed.

Lemma Emit_inner_spec event (sm : smap (listenerManager W)) tasks h :
  Forall (fun e => Forall mw_local (lm_middlewares (snd e))) sm ->
  tasks_ok event h tasks ->
  exists tasks' h',
    Range sm (fun _ listMan st => Emit_listMan event listMan st) (tasks, h)
    = (tasks', h')
    /\ tasks_ok event h' tasks'
    /\ objs h' event = objs h event
    /\ view h' tasks' = view h tasks ++ deliveries_of (objs h event) sm.
Proof.
  revert tasks h. induction sm as [|[k lm] sm IH]; intros tasks h Hl Hok.
  - exists tasks, h. repeat split; try apply Hok. now rewrite app_nil_r.
  - apply Forall_cons_iff in Hl as [Hlm Hl]. cbn [snd] in Hlm.
    destruct (Emit_listMan_spec event lm tasks h Hlm Hok)
      as (t1 & h1 & E1 & Ok1 & O1 & V1).
    cbn [Range]. rewrite E1.
    destruct (IH t1 h1 Hl Ok1) as (t2 & h2 & E2 & Ok2 & O2 & V2).
    exists t2, h2. split; [assumption|]. split; [assumption|].
    split; [congruence|].
    rewrite V2, V1, O1, <- app_assoc.
    change ((k, lm) :: sm) with ([(k, lm)] ++ sm).
    now rewrite deliveries_of_app.
Qed.

Lemma getMiddlewares_local s t :
  Forall (fun kv => Forall mw_local (snd kv)) (middlewares s) ->
  Forall mw_local (getMiddlewares path_Match s t).
Proof.
  intros H. unfold getMiddlewares.
  enough (G : forall m acc,
             Forall (fun kv => Forall mw_local (snd kv)) m ->
             Forall mw_local acc ->
             Forall mw_local
               (Range m
                  (fun pattern mws acc =>
                     if fst (path_Match pattern t) then (acc ++ mws, true)
                     else if fst (path_Match t pattern) then (acc ++ mws, true)
                     else (acc, true)) acc))
    by (apply G; [assumption | constructor]).
  induction m as [|[k mws] m IH]; intros acc Hm Hacc; [assumption|].
  apply Forall_cons_iff in Hm as [Hk Hm]. cbn [Range snd] in *.
  destruct (fst (path_Match k t)); [|destruct (fst (path_Match t k))];
    apply IH; trivial; apply Forall_app; now split.
Qed.

Lemma Emit_topic_spec s event tasks h t :
  mws_local s -> NoDup (keys (listMans s)) ->
  tasks_ok event h tasks ->
  exists tasks' h',
    Emit_topic path_Match s event (tasks, h) t = (tasks', h')
    /\ tasks_ok event h' tasks'
    /\ objs h' event = run_mws (getMiddlewares path_Match s t) (objs h event)
    /\ view h' tasks'
       = view h tasks
         ++ match Load t (listMans s) with
            | Some sm => deliveries_of (objs h' event) sm
            | None => []
            end.
Proof.
  intros [Hp Hl] Hnd [He Ht]. unfold Emit_topic.
  destruct (applyMiddlewares_local event (getMiddlewares path_Match s t) h
              (getMiddlewares_local s t Hp)) as (A1 & A2 & A3).
  set (h1 := applyMiddlewares event (getMiddlewares path_Match s t) h) in *.
  assert (Hok1 : tasks_ok event h1 tasks).
  { split; [lia|]. rewrite Forall_forall in *. intros x Hx.
    destruct (Ht x Hx). split; [lia | assumption]. }
  assert (Hv : view h1 tasks = view h tasks).
  { apply view_ext. rewrite Forall_forall in *. intros x Hx.
    apply A3. now apply Ht. }
  rewrite (Range_select (listMans s) t
             (fun smRaw st =>
                Range smRaw (fun _ listMan st => Emit_listMan event listMan st) st))
    by assumption.
  destruct (Load t (listMans s)) as [sm|] eqn:HL.
  - assert (Hsm : Forall (fun e => Forall mw_local (lm_middlewares (snd e))) sm).
    { rewrite Forall_forall in Hl. apply (Hl (t, sm)). now apply Load_In. }
    destruct (Emit_inner_spec event sm tasks h1 Hsm Hok1)
      as (t2 & h2 & E2 & Ok2 & O2 & V2).
    exists t2, h2. split; [assumption|]. split; [assumption|].
    split; [congruence|]. rewrite V2, Hv, O2. reflexivity.
  - exists tasks, h1. split; [reflexivity|]. split; [assumption|].
    split; [assumption|]. now rewrite app_nil_r.
Qed.

(** One step of the description, with the chain that the emitter
    collects. *)
Lemma Emit_pure_cons s o t ts :
  Emit_pure path_Match s o (t :: ts)
  = let '(ds', o') :=
      Emit_pure path_Match s (run_mws (getMiddlewares path_Match s t) o) ts in
    (match Load t (listMans s) with
     | Some sm => deliveries_of (run_mws (getMiddlewares path_Match s t) o) sm
     | None => []
     end ++ ds', o').
Proof. cbn [Emit_pure]. now rewrite getMiddlewares_chain. Qed.

Lemma Emit_fold_spec s event ts tasks h :
  mws_local s -> NoDup (keys (listMans s)) ->
  tasks_ok event h tasks ->
  exists tasks' h',
    fold_left (Emit_topic path_Match s event) ts (tasks, h) = (tasks', h')
    /\ tasks_ok event h' tasks'
    /\ objs h' event = snd (Emit_pure path_Match s (objs h event) ts)
    /\ view h' tasks'
       = view h tasks ++ fst (Emit_pure path_Match s (objs h event) ts).
Proof.
  intros Hl Hnd. revert tasks h.
  induction ts as [|t ts IH]; intros tasks h Hok.
  - exists tasks, h. repeat split; try apply Hok. simpl. now rewrite app_nil_r.
  - destruct (Emit_topic_spec s event tasks h t Hl Hnd Hok)
      as (t1 & h1 & E1 & Ok1 & O1 & V1).
    cbn [fold_left]. rewrite E1.
    destruct (IH t1 h1 Ok1) as (t2 & h2 & E2 & Ok2 & O2 & V2).
    exists t2, h2. split; [assumption|]. split; [assumption|].
    rewrite Emit_pure_cons. rewrite <- O1.
    destruct (Emit_pure path_Match s (objs h1 event) ts) as [ds' o'].
    cbn [fst snd] in *. split; [assumption|].
    rewrite V2, V1, <- app_assoc. reflexivity.
Qed.

(** [Emit] against its description on values. *)
Lemma Emit_refines s event :
  mws_local s -> NoDup (keys (listMans s)) -> event < next (heap s) ->
  exists tasks s',
    Emit path_Match s event = (tasks, s')
    /\ listMans s' = listMans s /\ chans s' = chans s
    /\ view (heap s') tasks
       = fst (Emit_pure path_Match s (objs (heap s) event)
                (fst (matched path_Match s (Topic (heap s) event))))
    /\ objs (heap s') event
       = snd (Emit_pure path_Match s (objs (heap s) event)
                (fst (matched path_Match s (Topic (heap s) event)))).
Proof.
  intros Hl Hnd He. unfold Emit.
  destruct (matched path_Match s (Topic (heap s) event)) as [M e].
  destruct (Emit_fold_spec s event M [] (heap s) Hl Hnd)
    as (tasks & h & E & Ok1 & O & V).
  { split; [assumption | constructor]. }
  rewrite E. exists tasks, (set_heap s h).
  repeat split; assumption.
Qed.

End EmitFacts.


(** ** Flags as bits *)

Lemma has_flag_bit (f : Flag) (k : Z) :
  (0 <= k)%Z -> has_flag f (Z.shiftl 1 k) = Z.testbit f k.
Proof.
  intros Hk. unfold has_flag. rewrite Z.shiftl_1_l.
  destruct (Z.testbit f k) eqn:E.
  - apply Z.eqb_eq. apply Z.bits_inj'. intros n Hn.
    rewrite Z.lor_spec, Z.pow2_bits_eqb by assumption.
    destruct (Z.eqb_spec k n) as [<-|Hne].
    + rewrite E. reflexivity.
    + apply orb_false_r.
  - apply Z.eqb_neq. intros H.
    assert (T : Z.testbit (Z.lor f (2 ^ k)) k = true).
    { rewrite Z.lor_spec, Z.pow2_bits_eqb by assumption.
      rewrite Z.eqb_refl. apply orb_true_r. }
    rewrite H in T. congruence.
Qed.

Lemma has_flag_Once f : has_flag f FlagOnce = Z.testbit f 0.
Proof. apply (has_flag_bit f 0). lia. Qed.

Lemma has_flag_Void f : has_flag f FlagVoid = Z.testbit f 1.
Proof. apply (has_flag_bit f 1). lia. Qed.

Lemma has_flag_Skip f : has_flag f FlagSkip = Z.testbit f 2.
Proof. apply (has_flag_bit f 2). lia. Qed.

(** ** Delivery *)

Lemma send_sent choice done_closed c e wait canceled c' :
  send choice done_closed c e wait = Returned true canceled c' ->
  canceled = false /\ ch_closed c = false /\ c' = enqueue e c.
Proof.
  unfold send, send_body, chan_send.
  destruct (select choice done_closed c (negb wait)); simpl;
    try discriminate.
  destruct (ch_closed c); simpl; [discriminate|].
  intros [= <- <-]. repeat split.
Qed.

Lemma pushEvent_sent choice done_closed c h e remove err c' :
  pushEvent choice done_closed c h e = Pushed true remove err c' ->
  remove = has_flag (GetFlag h e) FlagOnce
  /\ ch_closed c = false /\ c' = enqueue e c.
Proof.
  unfold pushEvent.
  destruct (send choice done_closed c e _) as [sent canceled c1|] eqn:E;
    [|discriminate].
  intros [= -> <- <- <-].
  apply send_sent in E as (-> & Hc & ->). simpl. repeat split; assumption.
Qed.

Section OnceFacts.

Context {W : Type}.
Variable path_Match : string -> string -> bool * option GoPath.error.
Implicit Types (s : State W) (h : Heap) (tasks : list (Task W)).

Lemma matched_ext s s' Q :
  listMans s' = listMans s ->
  matched path_Match s' Q = matched path_Match s Q.
Proof. intros E. unfold matched. now rewrite E. Qed.

Lemma wf_set_chans s c' :
  wf s ->
  (forall i, ch_closed (c' i) = ch_closed (chans s i)) ->
  wf (set_chans s c').
Proof.
  intros (A & B & C & D & E & F & G) H. unfold wf.
  cbn [listMans chans set_chans next_chan].
  repeat split; try assumption.
  rewrite Forall_forall in *. intros i Hi. rewrite H. now apply F.
Qed.

Lemma Emit_listMan_cases event (lm : listenerManager W) tasks h :
  exists h',
    Emit_listMan event lm (tasks, h) = ((tasks, h'), true)
    \/ exists evn,
         Emit_listMan event lm (tasks, h)
         = ((tasks ++ [mkTask lm evn], h'), true).
Proof.
  unfold Emit_listMan. destruct (Clone event h) as [evn h1].
  exists (applyMiddlewares evn (lm_middlewares lm) h1).
  destruct (has_flag _ FlagVoid); [now left | right; now exists evn].
Qed.

Lemma Emit_inner_tasks event (sm : smap (listenerManager W)) tasks h x :
  In x (fst (Range sm (fun _ listMan st => Emit_listMan event listMan st)
               (tasks, h))) ->
  In x tasks \/ exists p, In (p, t_lm x) sm.
Proof.
  revert tasks h. induction sm as [|[k lm] sm IH]; intros tasks h; [now left|].
  cbn [Range].
  destruct (Emit_listMan_cases event lm tasks h) as (h' & [E|[evn E]]);
    rewrite E; intros H; apply IH in H.
  - destruct H as [H|[p H]]; [now left | right; exists p; now right].
  - destruct H as [H|[p H]]; [|right; exists p; now right].
    apply in_app_iff in H as [H|[<-|[]]]; [now left|].
    right. exists k. now left.
Qed.

Lemma Emit_topic_tasks s event tasks h t x :
  In x (fst (Emit_topic path_Match s event (tasks, h) t)) ->
  In x tasks \/ exists sm p, In (t, sm) (listMans s) /\ In (p, t_lm x) sm.
Proof.
  unfold Emit_topic.
  generalize (applyMiddlewares event (getMiddlewares path_Match s t) h).
  clear h. generalize (listMans s) as reg. intros reg. revert tasks.
  induction reg as [|[k sm] reg IH]; intros tasks h; [now left|].
  cbn [Range]. destruct (String.eqb_spec k t) as [->|Hne]; cbn [negb].
  - destruct (Range sm _ (tasks, h)) as [t1 h1] eqn:E.
    intros H. apply IH in H as [H|(sm' & p & H1 & H2)].
    + assert (H' : In x (fst (Range sm
                 (fun _ listMan st => Emit_listMan event listMan st) (tasks, h))))
        by now rewrite E.
      apply Emit_inner_tasks in H' as [H'|[p H']]; [now left|].
      right. exists sm, p. split; [now left | assumption].
    + right. exists sm', p. split; [now right | assumption].
  - intros H. apply IH in H as [H|(sm' & p & H1 & H2)]; [now left|].
    right. exists sm', p. split; [now right | assumption].
Qed.

Lemma Emit_fold_tasks s event ts tasks h x :
  In x (fst (fold_left (Emit_topic path_Match s event) ts (tasks, h))) ->
  In x tasks \/ registered_under s ts (t_lm x).
Proof.
  revert tasks h. induction ts as [|t ts IH]; intros tasks h; [now left|].
  cbn [fold_left].
  destruct (Emit_topic path_Match s event (tasks, h) t) as [t1 h1] eqn:E.
  intros H. apply IH in H as [H|(K & sm & p & H1 & H2 & H3)].
  - assert (H' : In x (fst (Emit_topic path_Match s event (tasks, h) t)))
      by now rewrite E.
    apply Emit_topic_tasks in H' as [H'|(sm & p & H1 & H2)]; [now left|].
    right. exists t, sm, p. split; [now left | tauto].
  - right. exists K, sm, p. split; [now right | tauto].
Qed.

Lemma Emit_tasks s event x :
  In x (fst (Emit path_Match s event)) ->
  registered_under s (fst (matched path_Match s (Topic (heap s) event)))
    (t_lm x).
Proof.
  unfold Emit.
  destruct (matched path_Match s (Topic (heap s) event)) as [M e].
  destruct (fold_left _ M ([], heap s)) as [tasks h] eqn:E.
  cbn [fst]. intros H.
  assert (H' : In x (fst (fold_left (Emit_topic path_Match s event) M
                            ([], heap s)))) by now rewrite E.
  apply Emit_fold_tasks in H' as [[]|H']. assumption.
Qed.

Lemma Listeners_In s Q l :
  In l (Listeners path_Match s Q) ->
  exists lm, l = listener lm
    /\ registered_under s (fst (matched path_Match s Q)) lm.
Proof.
  unfold Listeners. destruct (matched path_Match s Q) as [M e]. cbn [fst].
  enough (G : forall ts acc,
    In l (fold_left
            (fun listeners _topic =>
               Range (listMans s)
                 (fun topicRaw smRaw listeners =>
                    if negb (String.eqb topicRaw _topic) then (listeners, true)
                    else (Range smRaw
                            (fun _ lRaw listeners =>
                               (listeners ++ [listener lRaw], true))
                            listeners, true))
                 listeners) ts acc) ->
    In l acc \/ exists lm, l = listener lm /\ registered_under s ts lm).
  { intros H. apply G in H as [[]|H]. assumption. }
  assert (Inner : forall (sm : smap (listenerManager W)) acc,
    In l (Range sm (fun _ lRaw listeners =>
                      (listeners ++ [listener lRaw], true)) acc) ->
    In l acc \/ exists p lm, l = listener lm /\ In (p, lm) sm).
  { induction sm as [|[p lm] sm IH]; intros acc; [now left|].
    cbn [Range]. intros H. apply IH in H as [H|(p' & lm' & H1 & H2)].
    - apply in_app_iff in H as [H|[<-|[]]]; [now left|].
      right. exists p, lm. split; [reflexivity | now left].
    - right. exists p', lm'. split; [assumption | now right]. }
  assert (Outer : forall t reg acc,
    In l (Range reg
            (fun topicRaw smRaw listeners =>
               if negb (String.eqb topicRaw t) then (listeners, true)
               else (Range smRaw
                       (fun _ lRaw listeners =>
                          (listeners ++ [listener lRaw], true))
                       listeners, true)) acc) ->
    In l acc \/ exists sm p lm, l = listener lm /\ In (t, sm) reg
                                /\ In (p, lm) sm).
  { intros t. induction reg as [|[k sm] reg IH]; intros acc; [now left|].
    cbn [Range]. destruct (String.eqb_spec k t) as [->|Hne]; cbn [negb].
    - intros H. apply IH in H as [H|(sm' & p & lm & H1 & H2 & H3)].
      + apply Inner in H as [H|(p & lm & H1 & H2)]; [now left|].
        right. exists sm, p, lm. split; [assumption|]. split; [now left | assumption].
      + right. exists sm', p, lm. split; [assumption|]. split; [now right | assumption].
    - intros H. apply IH in H as [H|(sm' & p & lm & H1 & H2 & H3)]; [now left|].
      right. exists sm', p, lm. split; [assumption|]. split; [now right | assumption]. }
  induction ts as [|t ts IH]; intros acc; [now left|].
  cbn [fold_left]. intros H.
  apply IH in H as [H|(lm & H1 & K & sm & p & H2 & H3 & H4)].
  - apply Outer in H as [H|(sm & p & lm & H1 & H2 & H3)]; [now left|].
    right. exists lm. split; [assumption|].
    exists t, sm, p. split; [now left | tauto].
  - right. exists lm. split; [assumption|].
    exists K, sm, p. split; [now right | tauto].
Qed.

End OnceFacts.


Section OnceClaim.

Context {W : Type}.
Variable path_Match : string -> string -> bool * option GoPath.error.
Implicit Types (s : State W) (h : Heap) (tasks : list (Task W)).

(** After [Off] for one listener, nothing registered under a topic of
    the resolution bears its identity. *)
Lemma registered_after_Off s s' (l : Listener W) ts lm :
  wf s' ->
  listMans s' = off_reg [lptr l] false ts (listMans s) ->
  forall ts', (forall K, In K ts' -> In K ts) ->
  registered_under s' ts' lm ->
  lptr (listener lm) <> lptr l.
Proof.
  intros Hwf E ts' Hsub (K & sm' & p & HK & Hin & Hp).
  destruct Hwf as (_ & _ & Hptr & _).
  rewrite Forall_forall in Hptr. specialize (Hptr _ Hin). cbn [snd] in Hptr.
  rewrite Forall_forall in Hptr. specialize (Hptr _ Hp). cbn [fst snd] in Hptr.
  rewrite E in Hin.
  apply off_reg_In in Hin as [[Hn _]|(_ & _ & _ & sm & _ & ->)].
  - exfalso. apply Hn. now apply Hsub.
  - unfold sm_without in Hp. apply filter_In in Hp as [_ Hp].
    cbn [fst] in Hp. rewrite mem_one in Hp.
    apply negb_true_iff, String.eqb_neq in Hp. congruence.
Qed.

Lemma registered_open s ts lm :
  wf s -> registered_under s ts lm -> ch_closed (chans s (ch lm)) = false.
Proof.
  intros (_ & _ & _ & _ & _ & Ho & _) (K & sm & p & _ & Hin & Hp).
  rewrite Forall_forall in Ho. apply Ho.
  unfold all_chs. apply in_flat_map. exists (K, sm). split; [assumption|].
  apply chs_of_In. now exists (p, lm).
Qed.

Lemma deliver_steps (choice done_closed : bool) s (t : Task W) :
  deliver path_Match choice done_closed s t
  = match deliver_push choice done_closed s t with
    | PushWaiting => StillBlocked
    | PushDone s1 deferred =>
        match deliver_deferred path_Match s1 deferred with
        | Ok s2 => Finished s2
        | Panic => Crashed
        end
    end.
Proof.
  unfold deliver, deliver_push, deliver_deferred.
  destruct (pushEvent _ _ _ _ _) as [success remove err c|]; [|reflexivity].
  now destruct remove.
Qed.

(** C3 (as amended): when an event that carries [FlagOnce] is judged
    sent, the task defers [Off] for the topic of the event and the
    listener of its subscription.  Up to [wg.Done()] nothing is
    removed: the registry is as it was and no mailbox is closed.  The
    deferred [Off] then runs, on the state it finds, be it the one the
    push left or a later one: it removes what is registered at that
    moment under the identity of the listener, under the topics the
    event topic resolves to, and closes those mailboxes; from then on
    no listener of that identity is among the listeners of the topic
    and no emit to the topic launches a delivery for it.  If the
    subscription of the task is no longer registered by then, its
    mailbox is left as it is. *)
Theorem Once_sent_removes (choice done_closed : bool) (s : State W)
    (t : Task W) (remove : bool) (err : option GoPath.error) (c' : Chan) :
  wf s ->
  has_flag (GetFlag (heap s) (t_event t)) FlagOnce = true ->
  pushEvent choice done_closed (chans s (ch (t_lm t))) (heap s) (t_event t)
  = Pushed true remove err c' ->
  exists s1,
    deliver_push choice done_closed s t
    = PushDone s1 (Some (Topic (heap s) (t_event t), listener (t_lm t)))
    /\ wf s1
    /\ listMans s1 = listMans s
    /\ (forall i, ch_closed (chans s1 i) = ch_closed (chans s i))
    /\ deliver path_Match choice done_closed s t
       = match deliver_deferred path_Match s1
                 (Some (Topic (heap s) (t_event t), listener (t_lm t))) with
         | Ok s' => Finished s'
         | Panic => Crashed
         end
    /\ forall s2,
         wf s2 ->
         exists s',
           deliver_deferred path_Match s2
             (Some (Topic (heap s) (t_event t), listener (t_lm t)))
           = Ok s'
           /\ (forall K sm lm0,
                 In K (fst (matched path_Match s2 (Topic (heap s) (t_event t)))) ->
                 Load K (listMans s2) = Some sm ->
                 Load (lptr (listener (t_lm t))) sm = Some lm0 ->
                 ch_closed (chans s' (ch lm0)) = true)
           /\ (forall l,
                 In l (Listeners path_Match s' (Topic (heap s) (t_event t))) ->
                 lptr l <> lptr (listener (t_lm t)))
           /\ (forall h' ev' task,
                 Topic h' ev' = Topic (heap s) (t_event t) ->
                 In task (fst (Emit path_Match (set_heap s' h') ev')) ->
                 lptr (listener (t_lm task)) <> lptr (listener (t_lm t)))
           /\ (~ In (ch (t_lm t)) (all_chs (listMans s2)) ->
               chans s' (ch (t_lm t)) = chans s2 (ch (t_lm t))).
Proof.
  intros Hwf Honce Hpush.
  set (T := Topic (heap s) (t_event t)) in *.
  set (lm := t_lm t) in *.
  destruct (pushEvent_sent _ _ _ _ _ _ _ _ Hpush) as (Hrem & Hopen & ->).
  rewrite Honce in Hrem. subst remove.
  set (s1 := set_chans s (<[ch lm := enqueue (t_event t) (chans s (ch lm))]>
                            (chans s))).
  assert (Hsame : forall i, ch_closed (chans s1 i) = ch_closed (chans s i)).
  { intros i. unfold s1. cbn [chans set_chans].
    destruct (Nat.eq_dec i (ch lm)) as [->|Hne].
    - now rewrite fn_lookup_insert.
    - now rewrite fn_lookup_insert_ne by congruence. }
  assert (Hwf1 : wf s1) by (apply wf_set_chans; assumption).
  assert (Hstep : deliver_push choice done_closed s t
                  = PushDone s1 (Some (T, listener lm))).
  { unfold deliver_push. fold lm. rewrite Hpush. reflexivity. }
  exists s1. split; [exact Hstep|]. split; [exact Hwf1|].
  split; [reflexivity|]. split; [exact Hsame|]. split.
  { rewrite deliver_steps, Hstep. reflexivity. }
  intros s2 Hwf2.
  destruct (Off_spec path_Match s2 T [listener lm] Hwf2)
    as (s' & E & R & C & S).
  cbn [map is_nil] in R, C.
  assert (Hwf' : wf s') by (eapply (wf_off s2); try eassumption; apply S).
  assert (Hsub : forall K', In K' (fst (matched path_Match s' T)) ->
                            In K' (fst (matched path_Match s2 T))).
  { intros K'.
    now apply (matched_off_incl path_Match s2 s' T [lptr (listener lm)] false). }
  exists s'. split; [exact E|]. split; [|split; [|split]].
  - intros K sm lm0 HK HL Hlm0. destruct (C (ch lm0)) as [Ha _].
    rewrite Ha; [reflexivity|].
    apply (off_closed_In _ false _ _ K sm (lptr (listener lm), lm0));
      [assumption | now apply Load_In |].
    unfold sm_dropped. apply filter_In. split; [now apply Load_In|].
    cbn [fst]. now rewrite mem_one, String.eqb_refl.
  - intros l Hl. apply Listeners_In in Hl as (lm' & -> & Hreg).
    eapply registered_after_Off with (s := s2)
      (ts' := fst (matched path_Match s' T)); try eassumption; trivial.
  - intros h' ev' task HT Hin. apply Emit_tasks in Hin.
    cbn [heap set_heap] in Hin. rewrite HT in Hin.
    rewrite (matched_ext path_Match s' (set_heap s' h')) in Hin by reflexivity.
    eapply registered_after_Off with (s := s2)
      (ts' := fst (matched path_Match s' T)); try eassumption; trivial.
  - intros Hout. destruct (C (ch lm)) as [_ Hb]. apply Hb.
    intros Hin. apply Hout. revert Hin. apply off_closed_incl.
Qed.

End OnceClaim.

(** ** Well-formedness is an invariant *)

Section WfInvariant.

Context {W : Type}.
Variable path_Match : string -> string -> bool * option GoPath.error.
Implicit Types (s : State W) (reg : smap (smap (listenerManager W))).

Lemma wf_New capacity h : wf (New W capacity h).
Proof. unfold wf, New. cbn. repeat split; constructor. Qed.

Lemma wf_Use s pattern mws : wf s -> wf (Use s pattern mws).
Proof. intros H. unfold Use. destruct mws; exact H. Qed.

Lemma Forall_Store {V} (P : string * V -> Prop) k v (m : smap V) :
  P (k, v) -> Forall P m -> Forall P (Store k v m).
Proof.
  intros Hv. induction 1 as [|[k' v'] m Hx Hm IH]; cbn [Store].
  - constructor; [assumption | constructor].
  - destruct (String.eqb k' k); constructor; assumption.
Qed.

Lemma NoDup_keys_Store {V} k v (m : smap V) :
  NoDup (keys m) -> NoDup (keys (Store k v m)).
Proof.
  intros Hnd. destruct (in_dec string_dec k (keys m)) as [Hin|Hout].
  - now rewrite keys_Store_present.
  - rewrite keys_Store_absent by assumption.
    apply NoDup_app_intro; [assumption | constructor; [intros [] | constructor] |].
    intros x Hx [<-|[]]. tauto.
Qed.

Lemma Store_absent {V} k v (m : smap V) :
  Load k m = None -> Store k v m = m ++ [(k, v)].
Proof.
  induction m as [|[k' v'] m IH]; cbn [Load Store app]; [reflexivity|].
  destruct (String.eqb k' k); [discriminate|].
  intros H. now rewrite IH.
Qed.

Lemma NoDup_replace {A} (l1 l2 : list A) (old new : list A) :
  NoDup (l1 ++ old ++ l2) -> NoDup new ->
  (forall x, In x new -> In x old \/ ~ In x (l1 ++ old ++ l2)) ->
  NoDup (l1 ++ new ++ l2).
Proof.
  intros Hnd Hnew Hx.
  pose proof (NoDup_app_l _ _ Hnd) as H1.
  pose proof (NoDup_app_r _ _ Hnd) as H23.
  pose proof (NoDup_app_r _ _ H23) as H3.
  apply NoDup_app_intro; [assumption | |].
  - apply NoDup_app_intro; [assumption | assumption |].
    intros x Hn H2. destruct (Hx x Hn) as [Ho|Hf].
    + now apply (NoDup_app_disjoint old l2 x).
    + apply Hf. rewrite !in_app_iff. tauto.
  - intros x Hl Hr. apply in_app_iff in Hr as [Hn|H2].
    + destruct (Hx x Hn) as [Ho|Hf].
      * apply (NoDup_app_disjoint l1 (old ++ l2) x); trivial.
        apply in_app_iff. now left.
      * apply Hf. apply in_app_iff. now left.
    + apply (NoDup_app_disjoint l1 (old ++ l2) x); trivial.
      apply in_app_iff. now right.
Qed.

(** The channels of an inner map after a subscription was stored. *)
Lemma chs_of_Store (sm : smap (listenerManager W)) p lm :
  NoDup (keys sm) -> NoDup (chs_of sm) -> ~ In (ch lm) (chs_of sm) ->
  NoDup (chs_of (Store p lm sm))
  /\ forall i, In i (chs_of (Store p lm sm)) -> i = ch lm \/ In i (chs_of sm).
Proof.
  intros Hk Hc Hfresh. destruct (Load p sm) as [lm0|] eqn:HL.
  - destruct (Load_split sm p lm0 Hk HL) as (a & b & -> & Ha & Hb).
    rewrite Store_split by assumption.
    unfold chs_of in *. rewrite !map_app in *. cbn [map snd] in *.
    split.
    + apply (NoDup_replace _ _ [ch lm0] [ch lm]); trivial.
      * constructor; [intros [] | constructor].
      * intros x [<-|[]]. right. exact Hfresh.
    + intros i. rewrite !in_app_iff. cbn [In]. intuition (subst; auto).
  - rewrite Store_absent by assumption.
    unfold chs_of in *. rewrite !map_app. cbn [map snd]. split.
    + apply NoDup_app_intro; trivial.
      * constructor; [intros [] | constructor].
      * intros x Hx [<-|[]]. tauto.
    + intros i. rewrite in_app_iff. cbn [In]. intuition (subst; auto).
Qed.

Lemma Load_all_chs reg t sm i :
  Load t reg = Some sm -> In i (chs_of sm) -> In i (all_chs reg).
Proof.
  intros HL Hi. apply Load_In in HL. unfold all_chs.
  apply in_flat_map. now exists (t, sm).
Qed.

(** The channels of the registry after an inner map was stored. *)
Lemma all_chs_Store reg t sm' :
  NoDup (keys reg) -> NoDup (all_chs reg) -> NoDup (chs_of sm') ->
  (forall i, In i (chs_of sm') ->
     (exists sm, Load t reg = Some sm /\ In i (chs_of sm))
     \/ ~ In i (all_chs reg)) ->
  NoDup (all_chs (Store t sm' reg))
  /\ forall i, In i (all_chs (Store t sm' reg)) ->
       In i (chs_of sm') \/ In i (all_chs reg).
Proof.
  intros Hk Hc Hn Hx. destruct (Load t reg) as [sm|] eqn:HL.
  - destruct (Load_split reg t sm Hk HL) as (a & b & -> & Ha & Hb).
    rewrite Store_split by assumption.
    rewrite !all_chs_app, !all_chs_cons in *. cbn [snd] in *. split.
    + apply (NoDup_replace _ _ (chs_of sm) (chs_of sm')); trivial.
      intros x Hxn. destruct (Hx x Hxn) as [(sm0 & [= <-] & H0)|Hf];
        [now left | now right].
    + intros i. rewrite !in_app_iff. intuition.
  - rewrite Store_absent by assumption.
    rewrite all_chs_app. cbn [all_chs flat_map snd]. rewrite app_nil_r. split.
    + apply NoDup_app_intro; trivial.
      intros x Hr Hs. destruct (Hx x Hs) as [(sm0 & [=] & _)|Hf]. tauto.
    + intros i. rewrite in_app_iff. intuition.
Qed.

Lemma Forall_Load {V} (P : string * V -> Prop) (m : smap V) k v :
  Forall P m -> Load k m = Some v -> P (k, v).
Proof.
  intros H HL. rewrite Forall_forall in H. apply H. now apply Load_In.
Qed.

(** [On] keeps a state well formed: the mailbox it makes is new. *)
Lemma wf_On s topic (l : Listener W) mws : wf s -> wf (On s topic l mws).
Proof.
  intros (Hk & Hin & Hp & Hne & Hc & Ho & Hlt).
  unfold On, newListenerManager.
  cbn [listMans set_listMans chans next_chan].
  set (n := next_chan s).
  set (lm := mkListenerManager n mws l).
  set (rawMan := match Load topic (listMans s) with
                 | Some sm => sm
                 | None => []
                 end).
  assert (Hfresh : ~ In n (all_chs (listMans s))).
  { intros H. rewrite Forall_forall in Hlt. specialize (Hlt n H).
    unfold n in Hlt. lia. }
  assert (Hraw : NoDup (keys rawMan) /\ NoDup (chs_of rawMan)
                 /\ Forall (fun e => fst e = lptr (listener (snd e))) rawMan
                 /\ forall i, In i (chs_of rawMan) -> In i (all_chs (listMans s))).
  { unfold rawMan. destruct (Load topic (listMans s)) as [sm|] eqn:HL.
    - split; [apply (Forall_Load _ _ _ _ Hin HL)|].
      split; [|split; [apply (Forall_Load _ _ _ _ Hp HL)|]].
      + destruct (Load_split _ _ _ Hk HL) as (a & b & E & _).
        rewrite E, all_chs_app, all_chs_cons in Hc.
        now apply NoDup_app_r, NoDup_app_l in Hc.
      + intros i. now apply (Load_all_chs _ topic sm).
    - repeat split; try constructor. intros i []. }
  destruct Hraw as (Rk & Rc & Rp & Rsub).
  assert (Hrf : ~ In (ch lm) (chs_of rawMan)).
  { intros H. apply Hfresh. now apply Rsub. }
  destruct (chs_of_Store rawMan (lptr l) lm Rk Rc Hrf) as (Sc & Ssub).
  destruct (all_chs_Store (listMans s) topic (Store (lptr l) lm rawMan) Hk Hc Sc)
    as (Ac & Asub).
  { intros i Hi. destruct (Ssub i Hi) as [->|Hi'].
    - right. exact Hfresh.
    - unfold rawMan in Hi'. destruct (Load topic (listMans s)) as [sm|];
        [left; now exists sm | destruct Hi']. }
  assert (Hall : forall i, In i (all_chs (Store topic (Store (lptr l) lm rawMan)
                                             (listMans s))) ->
                           i = n \/ In i (all_chs (listMans s))).
  { intros i Hi. destruct (Asub i Hi) as [Hi'|Hi']; [|now right].
    destruct (Ssub i Hi') as [->|Hi'']; [now left | right; now apply Rsub]. }
  unfold wf.
  cbn [listMans chans next_chan set_listMans Cap middlewares heap].
  split; [now apply NoDup_keys_Store|].
  split; [apply Forall_Store; [now apply NoDup_keys_Store | assumption]|].
  split; [apply Forall_Store; [|assumption]; cbn [snd];
          apply Forall_Store; [reflexivity | assumption]|].
  split.
  { apply Forall_Store; [|assumption]. cbn [snd].
    destruct rawMan as [|[k v] r]; cbn [Store]; [discriminate|].
    destruct (String.eqb k (lptr l)); discriminate. }
  split; [assumption|]. split.
  - rewrite Forall_forall in *. intros i Hi. destruct (Hall i Hi) as [Hi'|Hi'].
    + subst i. unfold n. now rewrite fn_lookup_insert.
    + rewrite fn_lookup_insert_ne by (intros E; subst i; tauto). now apply Ho.
  - rewrite Forall_forall in *. intros i Hi. destruct (Hall i Hi) as [Hi'|Hi'].
    + subst i. unfold n. lia.
    + specialize (Hlt i Hi'). lia.
Qed.

Lemma wf_Emitter_Once s topic (l : Listener W) mws :
  wf s -> wf (Emitter_Once s topic l mws).
Proof. apply wf_On. Qed.

Lemma wf_Off s T (ls : list (Listener W)) s' :
  wf s -> Off path_Match s T ls = Ok s' -> wf s'.
Proof.
  intros Hwf E.
  destruct (Off_spec path_Match s T ls Hwf) as (s1 & E1 & R1 & C1 & S1).
  assert (s' = s1) by congruence. subst s'.
  apply (wf_off s s1 _ _ _ Hwf R1 C1). apply S1.
Qed.

Lemma wf_Emit s (event : Event) : wf s -> wf (snd (Emit path_Match s event)).
Proof.
  intros Hwf. unfold Emit. destruct (matched path_Match s _) as [M e].
  destruct (fold_left _ M ([], heap s)) as [tasks h]. exact Hwf.
Qed.

End WfInvariant.

(** ** The worker and the typed adapter *)

Section Worker.

Context {W : Type}.
Implicit Types (lm : listenerManager W) (h : Heap).

Lemma observe_app lm h pre post (w : W) :
  observe lm h (pre ++ post) w
  = (try w' <- observe lm h pre w; observe lm h post w').
Proof.
  revert w. induction pre as [|e pre IH]; intros w; [reflexivity|].
  cbn [app observe].
  destruct (Handle (listener lm) (objs h e) w) as [w1|]; cbn [bindR];
    [apply IH | reflexivity].
Qed.

(** C2 (as amended): the worker handles the events of its mailbox one
    after the other, in arrival order, as long as the listener does
    not panic; a panic of the listener is not recovered: it ends
    [observe], whatever events are still in the mailbox. *)
Theorem observe_panic_propagates lm h (pre post : list Event) (e : Event)
    (w w' : W) :
  observe lm h pre w = Ok w' ->
  observe lm h (pre ++ e :: post) w
  = match Handle (listener lm) (objs h e) w' with
    | Ok w'' => observe lm h post w''
    | Panic => Panic
    end.
Proof.
  intros Hpre. rewrite observe_app, Hpre. reflexivity.
Qed.

(** C10: the typed adapter does not call the wrapped function when
    the event is not a pointer to [EventOf[T]]: whatever the function
    is, the call returns at once and leaves the state of the listener
    as it was.  An event of the right type is handed to the function. *)
Theorem ListenerFuncOf_discards_other_types (T : GoType) (p : string)
    (fn : string * Flag * GoVal T -> W -> Res W) (e : EventObj) (w : W) :
  dyn_type e <> Some T ->
  Handle (ListenerFuncOf T p fn) e w = Ok w
  /\ forall topic flag (subject : GoVal T),
       Handle (ListenerFuncOf T p fn) (EventOf T topic flag subject) w
       = fn (topic, flag, subject) w.
Proof.
  intros Hty. split.
  - unfold ListenerFuncOf, assert_EventOf. cbn [Handle].
    destruct e as [t f sub|T' t f sub]; [reflexivity|].
    destruct (decide (T' = T)) as [->|Hne]; [|reflexivity].
    exfalso. now apply Hty.
  - intros topic flag subject. unfold ListenerFuncOf, assert_EventOf.
    cbn [Handle]. destruct T; reflexivity.
Qed.

End Worker.

(** ** [Once] and the order of the middlewares *)

Section OnceOrder.

Context {W : Type}.

(** C5 (the code departs from it): [Once] registers the chain of the
    caller with the [Once] middleware in the last place, not in the
    first; with a middleware that clears the flags the two orders give
    different events. *)
Theorem Once_appends_middleware (s : State W) (topic : string)
    (l : Listener W) (mws : list Middleware) :
  (exists sm lm,
     Load topic (listMans (Emitter_Once s topic l mws)) = Some sm
     /\ Load (lptr l) sm = Some lm
     /\ lm_middlewares lm = mws ++ [Once])
  /\ GetFlag (applyMiddlewares 0 ([reset] ++ [Once]) (snd (NewEvent "t" nil_any h0))) 0
     = FlagOnce
  /\ GetFlag (applyMiddlewares 0 (Once :: [reset]) (snd (NewEvent "t" nil_any h0))) 0
     = 0%Z.
Proof.
  split; [|split; reflexivity].
  unfold Emitter_Once, On. cbn [newListenerManager listMans set_listMans].
  eexists. eexists. rewrite Load_Store_eq. split; [reflexivity|].
  rewrite Load_Store_eq. split; reflexivity.
Qed.

End OnceOrder.

(** ** Delivery to a full or closed mailbox *)

Section Delivery.

Context {W : Type}.
Variable path_Match : string -> string -> bool * option GoPath.error.
Implicit Types (s : State W) (t : Task W).

Lemma send_closed choice done_closed c e wait :
  ch_closed c = true ->
  send choice done_closed c e wait
  = Returned false (done_closed && choice) c.
Proof.
  intros Hc. unfold send, send_body, select, chan_send. rewrite Hc.
  cbn [orb]. rewrite andb_true_r.
  destruct done_closed, choice; reflexivity.
Qed.

(** Without the deferred [recover], the send on a closed mailbox is a
    panic. *)
Lemma send_body_closed choice c e wait :
  ch_closed c = true -> send_body choice false c e wait = Panic.
Proof.
  intros Hc. unfold send_body, select, chan_send. now rewrite Hc.
Qed.

Lemma send_full choice done_closed c e :
  ch_closed c = false -> has_room c = false ->
  send choice done_closed c e false = Returned false done_closed c.
Proof.
  intros Hc Hr. unfold send, send_body, select. rewrite Hc, Hr.
  destruct done_closed; reflexivity.
Qed.

Lemma send_nowait choice done_closed c e :
  send choice done_closed c e false <> Blocked.
Proof.
  unfold send, send_body, select, chan_send.
  destruct done_closed, choice, (ch_closed c), (has_room c); discriminate.
Qed.

Lemma send_full_wait choice c e :
  ch_closed c = false -> has_room c = false ->
  send choice false c e true = Blocked.
Proof.
  intros Hc Hr. unfold send, send_body, select. now rewrite Hc, Hr.
Qed.

Lemma pushEvent_not_sent choice done_closed c h e canceled :
  send choice done_closed c e
    (negb (has_flag (GetFlag h e) FlagSkip)) = Returned false canceled c ->
  pushEvent choice done_closed c h e = Pushed false false None c.
Proof.
  intros E. unfold pushEvent. rewrite E. cbn [negb andb].
  now destruct canceled.
Qed.

Lemma deliver_not_sent choice done_closed s t :
  pushEvent choice done_closed (chans s (ch (t_lm t))) (heap s) (t_event t)
  = Pushed false false None (chans s (ch (t_lm t))) ->
  exists s', deliver path_Match choice done_closed s t = Finished s'
    /\ listMans s' = listMans s /\ forall i, chans s' i = chans s i.
Proof.
  intros E. unfold deliver. rewrite E. eexists. split; [reflexivity|].
  split; [reflexivity|]. intros i. cbn [chans set_chans].
  destruct (Nat.eq_dec i (ch (t_lm t))) as [->|Hne].
  - now rewrite fn_lookup_insert.
  - now rewrite fn_lookup_insert_ne by congruence.
Qed.

(** C8: a delivery attempt that finds the mailbox closed, at once or
    after it blocked on the full mailbox, is judged not sent; the panic
    of the send is recovered, the task finishes and removes nothing. *)
Theorem closed_mailbox_not_sent (choice done_closed : bool) s t :
  ch_closed (chans s (ch (t_lm t))) = true ->
  (forall wait,
     send choice done_closed (chans s (ch (t_lm t))) (t_event t) wait
     = Returned false (done_closed && choice) (chans s (ch (t_lm t))))
  /\ pushEvent choice done_closed (chans s (ch (t_lm t))) (heap s) (t_event t)
     = Pushed false false None (chans s (ch (t_lm t)))
  /\ (exists s', deliver path_Match choice done_closed s t = Finished s'
        /\ listMans s' = listMans s /\ forall i, chans s' i = chans s i)
  /\ (forall c e, ch_closed c = false -> has_room c = false ->
        send choice false c e true = Blocked
        /\ send choice done_closed (set_closed c) e true
           = Returned false (done_closed && choice) (set_closed c)).
Proof.
  intros Hc.
  assert (E : pushEvent choice done_closed (chans s (ch (t_lm t))) (heap s)
                (t_event t)
              = Pushed false false None (chans s (ch (t_lm t)))).
  { eapply pushEvent_not_sent. now apply send_closed. }
  split; [intros wait; now apply send_closed|].
  split; [assumption|]. split; [now apply deliver_not_sent|].
  intros c e Hopen Hfull. split; [now apply send_full_wait|].
  now apply send_closed.
Qed.

End Delivery.

Section DeliveryHeap.

Context {W : Type}.
Variable path_Match : string -> string -> bool * option GoPath.error.
Implicit Types (s : State W) (t : Task W).

Lemma RangeR_inv {V St} (P : St -> Prop) (m : smap V)
    (f : string -> V -> St -> Res (St * bool)) st st' :
  (forall k v a a' b, P a -> f k v a = Ok (a', b) -> P a') ->
  P st -> RangeR m f st = Ok st' -> P st'.
Proof.
  intros Hf. revert st. induction m as [|[k v] m IH]; intros st Hst; cbn [RangeR].
  - now intros [= <-].
  - destruct (f k v st) as [[a b]|] eqn:E; cbn [bindR]; [|discriminate].
    pose proof (Hf _ _ _ _ _ Hst E) as Ha.
    destruct b; [now apply IH | now intros [= <-]].
Qed.

Lemma foldR_inv {A St} (P : St -> Prop) (f : St -> A -> Res St) l st st' :
  (forall a x x', P x -> f x a = Ok x' -> P x') ->
  P st -> foldR f l st = Ok st' -> P st'.
Proof.
  intros Hf. revert st. induction l as [|a l IH]; intros st Hst; cbn [foldR].
  - now intros [= <-].
  - destruct (f st a) as [x|] eqn:E; cbn [bindR]; [|discriminate].
    apply IH. now apply (Hf a st x).
Qed.

(** [Off] leaves the store of events alone. *)
Lemma Off_heap s T (ls : list (Listener W)) s' :
  Off path_Match s T ls = Ok s' -> heap s' = heap s.
Proof.
  unfold Off. destruct (matched path_Match s T) as [M e].
  apply (foldR_inv (fun x => heap x = heap s)); [|reflexivity].
  intros t x x' Hx. unfold Off_topic.
  apply (RangeR_inv (fun y => heap y = heap s)); [|assumption].
  intros k v a a' b Ha.
  destruct (negb (String.eqb k t)); [now intros [= <- <-]|].
  destruct ls as [|l ls'].
  - destruct (dropAll v (chans a)) as [[sm c]|]; cbn [bindR]; [|discriminate].
    now intros [= <- <-].
  - destruct (dropMany v (chans a) (l :: ls')) as [[sm c]|]; cbn [bindR];
      [|discriminate].
    destruct sm; now intros [= <- <-].
Qed.

Lemma deliver_heap choice done_closed s t s' :
  deliver path_Match choice done_closed s t = Finished s' -> heap s' = heap s.
Proof.
  unfold deliver.
  destruct (pushEvent _ _ _ _ _) as [success remove err c|]; [|discriminate].
  destruct remove.
  - destruct (Off _ _ _ _) as [s2|] eqn:E; [|discriminate].
    intros [= <-]. now apply Off_heap in E.
  - now intros [= <-].
Qed.

Lemma deliver_Skip_not_blocked choice done_closed s t :
  has_flag (GetFlag (heap s) (t_event t)) FlagSkip = true ->
  deliver path_Match choice done_closed s t <> StillBlocked.
Proof.
  intros Hskip. unfold deliver, pushEvent. rewrite Hskip. cbn [negb].
  pose proof (send_nowait choice done_closed (chans s (ch (t_lm t))) (t_event t)) as H.
  destruct (send choice done_closed _ _ false) as [sent canceled c|];
    [|congruence].
  destruct (if negb sent && negb canceled then false
            else if negb canceled
                 then has_flag (GetFlag (heap s) (t_event t)) FlagOnce
                 else false); [|discriminate].
  destruct (Off _ _ _ _); discriminate.
Qed.

Lemma run_tasks_Skip_not_blocked choice s t :
  has_flag (GetFlag (heap s) (t_event t)) FlagSkip = true ->
  forall ts s0 s' blocked,
    heap s0 = heap s ->
    run_tasks path_Match choice s0 ts = Ok (s', blocked) ->
    ~ In t blocked.
Proof.
  intros Hskip. induction ts as [|t0 ts IH]; intros s0 s' blocked Hh; cbn [run_tasks].
  - intros [= <- <-] [].
  - destruct (deliver path_Match choice false s0 t0) as [s1| |] eqn:E;
      [| |discriminate].
    + apply IH. apply deliver_heap in E. congruence.
    + destruct (run_tasks path_Match choice s0 ts) as [[s2 bl]|] eqn:E2;
        cbn [bindR]; [|discriminate].
      intros [= <- <-] [->|Hin].
      * revert E. apply deliver_Skip_not_blocked. now rewrite Hh.
      * now apply (IH s0 s2 bl).
Qed.

(** C7: the delivery of an event flagged [Skip] never blocks, so no
    pass of the scheduler leaves it among the blocked tasks that hold
    the completion signal back; on a full mailbox it is judged not
    sent, reports no error, asks for no removal, and the task finishes
    with the mailbox and the registry as they were. *)
Theorem Skip_full_mailbox_drops (choice done_closed : bool) s t :
  has_flag (GetFlag (heap s) (t_event t)) FlagSkip = true ->
  deliver path_Match choice done_closed s t <> StillBlocked
  /\ (forall ts s0 s' blocked,
        heap s0 = heap s ->
        run_tasks path_Match choice s0 ts = Ok (s', blocked) ->
        ~ In t blocked)
  /\ (ch_closed (chans s (ch (t_lm t))) = false ->
      has_room (chans s (ch (t_lm t))) = false ->
      pushEvent choice done_closed (chans s (ch (t_lm t))) (heap s) (t_event t)
      = Pushed false false None (chans s (ch (t_lm t)))
      /\ exists s', deliver path_Match choice done_closed s t = Finished s'
           /\ listMans s' = listMans s
           /\ forall i, chans s' i = chans s i).
Proof.
  intros Hskip. split; [now apply deliver_Skip_not_blocked|].
  split; [now apply run_tasks_Skip_not_blocked|].
  intros Hc Hr.
  assert (E : pushEvent choice done_closed (chans s (ch (t_lm t))) (heap s)
                (t_event t)
              = Pushed false false None (chans s (ch (t_lm t)))).
  { apply pushEvent_not_sent with (canceled := done_closed).
    rewrite Hskip. cbn [negb]. now apply send_full. }
  split; [assumption | now apply deliver_not_sent].
Qed.

(** A removal is asked for only after a send that went through, of an
    event flagged [Once]. *)
Lemma pushEvent_remove choice done_closed c h e success err c' :
  pushEvent choice done_closed c h e = Pushed success true err c' ->
  success = true /\ has_flag (GetFlag h e) FlagOnce = true.
Proof.
  unfold pushEvent.
  destruct (send choice done_closed c e _) as [sent canceled c1|]; [|discriminate].
  destruct sent, canceled; cbn [negb andb]; intros [= <- E _ <-];
    try discriminate.
  split; [reflexivity | assumption].
Qed.

Lemma send_keeps_closed choice done_closed c e wait sent canceled c' :
  send choice done_closed c e wait = Returned sent canceled c' ->
  ch_closed c' = ch_closed c.
Proof.
  unfold send, send_body, chan_send.
  destruct (select choice done_closed c (negb wait)); cbn [bindR];
    try (intros [= _ _ <-]; reflexivity); try discriminate.
  destruct (ch_closed c) eqn:E; cbn [bindR]; intros [= _ _ <-]; exact E.
Qed.

(** A delivery task keeps the state well formed. *)
Lemma wf_deliver choice done_closed s t s' :
  wf s -> deliver path_Match choice done_closed s t = Finished s' -> wf s'.
Proof.
  intros Hwf. unfold deliver, pushEvent.
  destruct (send choice done_closed _ _ _) as [sent canceled c|] eqn:E;
    [|discriminate].
  apply send_keeps_closed in E.
  assert (Hwf1 : wf (set_chans s (<[ch (t_lm t) := c]> (chans s)))).
  { apply wf_set_chans; [assumption|]. intros i.
    destruct (Nat.eq_dec i (ch (t_lm t))) as [->|Hne].
    - now rewrite fn_lookup_insert.
    - now rewrite fn_lookup_insert_ne by congruence. }
  destruct (if negb sent && negb canceled then false
            else if negb canceled
                 then has_flag (GetFlag (heap s) (t_event t)) FlagOnce
                 else false).
  - destruct (Off _ _ _ _) as [s2|] eqn:EO; [|discriminate].
    intros [= <-]. now apply (wf_Off path_Match _ _ _ _ Hwf1 EO).
  - now intros [= <-].
Qed.
End DeliveryHeap.


(** ** Middlewares and the fan-out of [Emit] *)

Lemma SetFlag_local (f : EventObj -> Flag) :
  mw_local (fun e h => SetFlag e (f (objs h e)) h).
Proof.
  intros e h. unfold SetFlag, mw_on_obj. cbn [next objs]. split; [reflexivity|].
  split.
  - now rewrite !fn_lookup_insert.
  - intros e' He'. now apply fn_lookup_insert_ne.
Qed.

Lemma Once_local : mw_local Once.
Proof. apply (SetFlag_local (fun o => Z.lor (obj_Flag o) FlagOnce)). Qed.

Lemma Void_local : mw_local Void.
Proof. apply (SetFlag_local (fun o => Z.lor (obj_Flag o) FlagVoid)). Qed.

Lemma Skip_local : mw_local Skip.
Proof. apply (SetFlag_local (fun o => Z.lor (obj_Flag o) FlagSkip)). Qed.

Section Scopes.

Context {W : Type}.
Variable path_Match : string -> string -> bool * option GoPath.error.
Implicit Types (s : State W) (h : Heap) (tasks : list (Task W)).


Lemma deliveries_not_void o (sm : smap (listenerManager W)) :
  Forall (fun d => has_flag (obj_Flag (snd d)) FlagVoid = false)
    (deliveries_of o sm).
Proof.
  unfold deliveries_of. induction sm as [|e sm IH]; [constructor|].
  cbn [flat_map]. apply Forall_app. split; [|assumption].
  destruct (has_flag _ FlagVoid) eqn:E; [constructor|].
  constructor; [assumption | constructor].
Qed.

Lemma Emit_pure_not_void s o ts :
  Forall (fun d => has_flag (obj_Flag (snd d)) FlagVoid = false)
    (fst (Emit_pure path_Match s o ts)).
Proof.
  revert o. induction ts as [|t ts IH]; intros o; [constructor|].
  rewrite Emit_pure_cons. specialize (IH (run_mws (getMiddlewares path_Match s t) o)).
  destruct (Emit_pure path_Match s _ ts) as [ds' o']. cbn [fst] in *.
  apply Forall_app. split; [|assumption].
  destruct (Load t (listMans s)); [apply deliveries_not_void | constructor].
Qed.

Lemma Emit_frame s (event : Event) :
  listMans (snd (Emit path_Match s event)) = listMans s
  /\ chans (snd (Emit path_Match s event)) = chans s.
Proof.
  unfold Emit. destruct (matched path_Match s _) as [M e].
  destruct (fold_left _ M ([], heap s)) as [tasks h]. split; reflexivity.
Qed.

(** C6: a subscription whose event has the Void bit set once the
    middlewares have run is passed over: the callback of [Emit] returns
    the list of tasks as it was.  [Emit] itself touches neither the
    registry nor any mailbox, and every delivery it launches carries an
    event whose Void bit is clear; a mailbox only ever receives the
    event of a launched delivery. *)
Theorem Emit_skips_void :
  (forall (event : Event) (lm : listenerManager W) tasks h,
     Z.testbit
       (GetFlag (applyMiddlewares (next h) (lm_middlewares lm)
                   (snd (Clone event h))) (next h)) 1 = true ->
     Emit_listMan event lm (tasks, h)
     = ((tasks, applyMiddlewares (next h) (lm_middlewares lm)
                  (snd (Clone event h))), true))
  /\ (forall s (event : Event),
        listMans (snd (Emit path_Match s event)) = listMans s
        /\ chans (snd (Emit path_Match s event)) = chans s)
  /\ (forall s (event : Event),
        mws_local s -> NoDup (keys (listMans s)) -> event < next (heap s) ->
        Forall (fun t =>
                  Z.testbit (GetFlag (heap (snd (Emit path_Match s event)))
                               (t_event t)) 1 = false)
          (fst (Emit path_Match s event))).
Proof.
  split; [|split].
  - intros event lm tasks h Hv. unfold Emit_listMan, Clone, alloc in *.
    cbn [fst snd] in *. rewrite has_flag_Void, Hv. reflexivity.
  - intros s event. apply Emit_frame.
  - intros s event Hl Hnd He.
    destruct (Emit_refines path_Match s event Hl Hnd He)
      as (tasks & s' & E & _ & _ & V & _).
    rewrite E. cbn [fst snd].
    pose proof (Emit_pure_not_void s (objs (heap s) event)
                  (fst (matched path_Match s (Topic (heap s) event)))) as Hnv.
    rewrite <- V in Hnv. unfold view in Hnv. rewrite Forall_map in Hnv.
    rewrite Forall_forall in *. intros t Ht. specialize (Hnv t Ht).
    cbn [snd] in Hnv. rewrite <- has_flag_Void. exact Hnv.
Qed.

End Scopes.

(** ** The theorems at work on the sample states *)

Ltac list_facts :=
  repeat first
    [ apply NoDup_nil
    | apply NoDup_cons; [cbn; intuition (discriminate || lia) |]
    | apply Forall_nil
    | apply Forall_cons
    | reflexivity
    | discriminate
    | solve [vm_compute; lia] ].

Ltac wf_facts := unfold wf; cbn; repeat split; list_facts.

Lemma matched_exact_witness :
  matched GoPath.Match star_state "test" = (["*"], None)
  /\ forall K, In K (fst (matched GoPath.Match star_state "test")) <->
       In K (Topics star_state) /\
       (fst (GoPath.Match "test" K) = true \/ fst (GoPath.Match K "test") = true).
Proof.
  apply (proj2 (matched_exact GoPath.Match star_state "test")).
  intros K HK. vm_compute in HK. destruct HK as [<-|[]]. vm_compute. reflexivity.
Defined.

(** C1 fails for a malformed query: ["*"] is registered and
    [match("*", "[")] succeeds, yet resolving ["["] returns nothing. *)
Lemma matched_malformed_query_counterexample :
  ~ (forall K, In K (Topics star_state) /\
               (fst (GoPath.Match "[" K) = true \/ fst (GoPath.Match K "[") = true)
               -> In K (fst (matched GoPath.Match star_state "["))).
Proof.
  intros H. specialize (H "*"). vm_compute in H. apply H.
  split; [left; reflexivity | right; reflexivity].
Qed.

Lemma observe_panic_witness :
  observe fragile_lm two_events ([] ++ 0 :: [1]) 0 = Panic.
Proof.
  apply (observe_panic_propagates fragile_lm two_events [] [1] 0 0 0).
  reflexivity.
Defined.

(** C2 fails: the listener panics on the first event, the worker ends
    with that panic, and the second event, which it would have handled,
    is never delivered. *)
Lemma observe_no_recovery_counterexample :
  ~ (exists w, observe fragile_lm two_events [0; 1] 0 = Ok w)
  /\ observe fragile_lm two_events [1] 0 = Ok 1.
Proof.
  split; [|reflexivity]. intros [w H]. vm_compute in H. discriminate.
Qed.

Lemma Once_sent_removes_witness :
  exists s1,
    deliver_push false false (snd once_emit) once_task
    = PushDone s1 (Some ("x", counting "0xc000010000"))
    /\ exists s',
         deliver_deferred GoPath.Match s1 (Some ("x", counting "0xc000010000"))
         = Ok s'
         /\ ch_closed (chans s' 0) = true
         /\ forall l, In l (Listeners GoPath.Match s' "x") ->
                      lptr l <> "0xc000010000".
Proof.
  destruct (Once_sent_removes GoPath.Match false false (snd once_emit)
              once_task true None (enqueue 1 (make_chan 1)))
    as (s1 & E1 & Hwf1 & R1 & _ & _ & H).
  - wf_facts.
  - reflexivity.
  - reflexivity.
  - exists s1. split; [exact E1|].
    destruct (H s1 Hwf1) as (s' & E' & Hc & Hl & _).
    exists s'. split; [exact E'|]. split; [|exact Hl].
    apply (Hc "*" [("0xc000010000", t_lm once_task)] (t_lm once_task)).
    + rewrite (matched_ext GoPath.Match (snd once_emit) s1) by exact R1.
      vm_compute. left. reflexivity.
    + rewrite R1. reflexivity.
    + reflexivity.
Defined.

(** C3 fails in two ways.  The listener of a [Once] subscription was
    subscribed again between the emit and the delivery: the event is
    sent to the mailbox of the [Once] subscription, the deferred [Off]
    removes the other subscription, and the mailbox that received the
    event stays open.  And once the push is over, the completion signal
    of the emit can fire before the deferred [Off] runs: an emit to the
    same topic at that moment still launches a delivery for the
    subscription. *)
Lemma Once_not_removed_counterexample :
  (exists s',
     deliver GoPath.Match false false resub_state once_task = Finished s'
     /\ has_flag (GetFlag (heap resub_state) (t_event once_task)) FlagOnce = true
     /\ ch_buf (chans s' (ch (t_lm once_task))) = [1]
     /\ ch_closed (chans s' (ch (t_lm once_task))) = false
     /\ ch_closed (chans s' 1) = true
     /\ Topics s' = [])
  /\ (exists s1,
        deliver_push false false (snd once_emit) once_task
        = PushDone s1 (Some ("x", counting "0xc000010000"))
        /\ map (fun t => ch (t_lm t)) (fst (Emit GoPath.Match s1 0))
           = [ch (t_lm once_task)]).
Proof.
  split.
  - eexists. split; [reflexivity|]. repeat split.
  - eexists. split; [reflexivity|]. reflexivity.
Qed.




(** On the sample: the first subscription is delivered the flags
    [Once] and [Skip], the second only [Skip], and the shared event
    keeps [Skip] alone. *)
Example scoped_deliveries :
  map (fun d => (ch (fst d), obj_Flag (snd d)))
    (view (heap (snd (Emit GoPath.Match scoped_state 0)))
       (fst (Emit GoPath.Match scoped_state 0)))
  = [(0, 5%Z); (1, 4%Z)]
  /\ GetFlag (heap (snd (Emit GoPath.Match scoped_state 0))) 0 = 4%Z.
Proof. split; reflexivity. Qed.

(** The task of the sample is the one that [Emit] launches. *)
Example once_emit_task :
  map (fun t => (ch (t_lm t), t_event t)) (fst once_emit) = [(0, 1)]
  /\ GetFlag (heap (snd once_emit)) 1 = FlagOnce.
Proof. split; reflexivity. Qed.

(** The scenarios of the tests [TestOff], [TestOnOffAll] and
    [TestVoid] on the registry. *)
Example test_Off :
  length (Topics test_off_state) = 1
  /\ length (Listeners GoPath.Match test_off_state "test") = 2
  /\ match Off GoPath.Match test_off_state "test" [] with
     | Ok s => length (Listeners GoPath.Match s "test") = 0
               /\ length (Topics s) = 0
     | Panic => False
     end.
Proof. repeat split. Qed.

Example test_OnOffAll :
  length (Listeners GoPath.Match star_state "test") = 1
  /\ match Off GoPath.Match star_state "*" [] with
     | Ok s => length (Listeners GoPath.Match s "test") = 0
     | Panic => False
     end.
Proof. repeat split. Qed.

Example test_Void :
  fst (Emit GoPath.Match void_state 0) = []
  /\ done_at_return (fst (Emit GoPath.Match void_state 0)) = true.
Proof. split; reflexivity. Qed.

Lemma Emit_skips_void_witness :
  Emit_listMan 0 void_lm ([], heap void_state)
  = (([], applyMiddlewares 1 [Void] (snd (Clone 0 (heap void_state)))), true)
  /\ Forall (fun t =>
               Z.testbit (GetFlag (heap (snd (Emit GoPath.Match scoped_state 0)))
                            (t_event t)) 1 = false)
       (fst (Emit GoPath.Match scoped_state 0)).
Proof.
  destruct (@Emit_skips_void nat GoPath.Match) as (A & _ & C).
  split.
  - apply (A 0 void_lm [] (heap void_state)). reflexivity.
  - apply (C scoped_state 0).
    + split; cbn; list_facts; first [apply Skip_local | apply Once_local].
    + cbn. list_facts.
    + cbn. lia.
Defined.

Lemma Skip_full_mailbox_witness :
  deliver GoPath.Match false false busy_state busy_task <> StillBlocked
  /\ (forall ts s0 s' blocked,
        heap s0 = heap busy_state ->
        run_tasks GoPath.Match false s0 ts = Ok (s', blocked) ->
        ~ In busy_task blocked)
  /\ (ch_closed (chans busy_state 0) = false ->
      has_room (chans busy_state 0) = false ->
      pushEvent false false (chans busy_state 0) (heap busy_state) 0
      = Pushed false false None (chans busy_state 0)
      /\ exists s', deliver GoPath.Match false false busy_state busy_task
                    = Finished s'
           /\ listMans s' = listMans busy_state
           /\ forall i, chans s' i = chans busy_state i).
Proof.
  apply (Skip_full_mailbox_drops GoPath.Match false false busy_state busy_task).
  reflexivity.
Defined.

Lemma closed_mailbox_witness :
  (forall wait,
     send false false (chans closed_state 0) 0 wait
     = Returned false false (chans closed_state 0))
  /\ pushEvent false false (chans closed_state 0) (heap closed_state) 0
     = Pushed false false None (chans closed_state 0)
  /\ (exists s', deliver GoPath.Match false false closed_state busy_task
                 = Finished s'
        /\ listMans s' = listMans closed_state
        /\ forall i, chans s' i = chans closed_state i)
  /\ (forall c e, ch_closed c = false -> has_room c = false ->
        send false false c e true = Blocked
        /\ send false false (set_closed c) e true
           = Returned false false (set_closed c)).
Proof.
  apply (closed_mailbox_not_sent GoPath.Match false false closed_state busy_task).
  reflexivity.
Defined.

Lemma Off_removes_resolved_witness :
  exists s',
    Off GoPath.Match star_state "test" [] = Ok s'
    /\ Topics s'
       = filter (fun K => negb (mem K (fst (matched GoPath.Match star_state "test"))))
           (Topics star_state)
    /\ (forall K sm p lm,
          In K (fst (matched GoPath.Match star_state "test")) ->
          Load K (listMans star_state) = Some sm -> In (p, lm) sm ->
          ch_closed (chans s' (ch lm)) = true)
    /\ ((forall K, In K (Topics star_state) -> snd (GoPath.Match "test" K) = None) ->
        forall K, In K (Topics star_state) -> bidir GoPath.Match "test" K = true ->
                  ~ In K (Topics s'))
    /\ Off GoPath.Match s' "test" [] = Ok s'
    /\ (forall ls s'', Off GoPath.Match star_state "test" ls = Ok s'' ->
          Forall (fun kv => snd kv <> []) (listMans s''))
    /\ (forall ls,
          fst (matched GoPath.Match star_state "test") = [] \/ ls <> [] ->
          (forall K sm l, In K (fst (matched GoPath.Match star_state "test")) ->
             Load K (listMans star_state) = Some sm -> In l ls ->
             Load (lptr l) sm = None) ->
          Off GoPath.Match star_state "test" ls = Ok star_state).
Proof.
  apply (Off_removes_resolved GoPath.Match star_state "test").
  wf_facts.
Defined.

(** C9 fails for a malformed pattern: ["*"] is registered and
    [match("*", "[")] succeeds, yet [Off "["] leaves it registered. *)
Lemma Off_malformed_pattern_counterexample :
  ~ (forall s' K,
       Off GoPath.Match star_state "[" [] = Ok s' ->
       In K (Topics star_state) ->
       fst (GoPath.Match "[" K) = true \/ fst (GoPath.Match K "[") = true ->
       ~ In K (Topics s')).
Proof.
  intros H.
  apply (H star_state "*"); [reflexivity | left; reflexivity
                            | right; reflexivity | left; reflexivity].
Qed.

Lemma ListenerFuncOf_witness :
  Handle (ListenerFuncOf TString "0xc000010000" (fun _ (w : nat) => Panic))
    (BasicEvent "test" 0%Z (box TInt 1%Z)) 7 = Ok 7
  /\ forall topic flag (subject : GoVal TString),
       Handle (ListenerFuncOf TString "0xc000010000" (fun _ (w : nat) => Panic))
         (EventOf TString topic flag subject) 7
       = Panic.
Proof.
  apply (ListenerFuncOf_discards_other_types TString "0xc000010000"
           (fun _ (w : nat) => Panic) (BasicEvent "test" 0%Z (box TInt 1%Z)) 7).
  discriminate.
Defined.

(** * Further properties *)

(** ** Events and the flag middlewares *)

Lemma GetFlag_SetFlag (e : Event) (flag : Flag) (h : Heap) :
  GetFlag (SetFlag e flag h) e = flag.
Proof.
  unfold GetFlag, SetFlag. cbn [objs]. rewrite fn_lookup_insert.
  now destruct (objs h e).
Qed.

(** X1: [SetFlag] followed by [Flag] gives the flag back and leaves
    the topic, the subject and the concrete type of the event, and
    every other event, as they were; a new event starts with no flag
    and the topic and subject it was made with. *)
Theorem SetFlag_GetFlag (h : Heap) (e : Event) (flag : Flag) :
  GetFlag (SetFlag e flag h) e = flag
  /\ Topic (SetFlag e flag h) e = Topic h e
  /\ Subject (SetFlag e flag h) e = Subject h e
  /\ dyn_type (objs (SetFlag e flag h) e) = dyn_type (objs h e)
  /\ (forall e', e' <> e -> objs (SetFlag e flag h) e' = objs h e')
  /\ (forall topic subject,
        let '(e0, h') := NewEvent topic subject h in
        GetFlag h' e0 = 0%Z /\ Topic h' e0 = topic /\ Subject h' e0 = subject
        /\ dyn_type (objs h' e0) = None)
  /\ (forall T topic (subject : GoVal T),
        let '(e0, h') := NewEventOf T topic subject h in
        GetFlag h' e0 = 0%Z /\ Topic h' e0 = topic
        /\ Subject h' e0 = box T subject
        /\ dyn_type (objs h' e0) = Some T).
Proof.
  unfold GetFlag, Topic, Subject, SetFlag, NewEvent, NewEventOf, alloc.
  cbn [objs next].
  repeat split; rewrite ?fn_lookup_insert; try reflexivity;
    try (destruct (objs h e); reflexivity).
  intros e' He'. now apply fn_lookup_insert_ne.
Qed.

(** X2: [Clone] makes an independent copy: a new event with the topic,
    flag, subject and concrete type of the original; afterwards setting
    the flag of either leaves the other as it was, and a typed event
    still passes the type assertion with its subject after a flag was
    set and it was cloned. *)
Theorem Clone_independent (h : Heap) (e : Event) :
  e < next h ->
  fst (Clone e h) <> e
  /\ objs (snd (Clone e h)) (fst (Clone e h)) = objs h e
  /\ (forall e', e' < next h -> objs (snd (Clone e h)) e' = objs h e')
  /\ (forall flag,
        objs (SetFlag (fst (Clone e h)) flag (snd (Clone e h))) e = objs h e
        /\ objs (SetFlag e flag (snd (Clone e h))) (fst (Clone e h)) = objs h e)
  /\ (forall T topic flag flag' (subject : GoVal T),
        assert_EventOf T (obj_Clone (obj_SetFlag (EventOf T topic flag subject) flag'))
        = Some (topic, flag', subject)).
Proof.
  intros He. unfold Clone, alloc, SetFlag. cbn [fst snd objs next].
  assert (Hc : forall o, obj_Clone o = o) by (intros []; reflexivity).
  split; [lia|]. split; [now rewrite fn_lookup_insert, Hc|].
  split; [intros e' He'; rewrite fn_lookup_insert_ne by lia; reflexivity|].
  split.
  - intros flag. split.
    + rewrite fn_lookup_insert_ne by lia. rewrite fn_lookup_insert_ne by lia.
      reflexivity.
    + rewrite fn_lookup_insert_ne by lia. now rewrite fn_lookup_insert, Hc.
  - intros T topic flag flag' subject. cbn. destruct T; reflexivity.
Qed.

Lemma lor_bit (f : Z) (k n : Z) :
  (0 <= k)%Z -> (0 <= n)%Z ->
  Z.testbit (Z.lor f (Z.shiftl 1 k)) n = Z.testbit f n || Z.eqb k n.
Proof.
  intros Hk Hn. rewrite Z.lor_spec, Z.shiftl_1_l, Z.pow2_bits_eqb by assumption.
  reflexivity.
Qed.

(** X3: the middlewares [Once], [Void] and [Skip] set bits 0, 1 and 2
    of the flag of the event they are given and change no other bit;
    hence each is idempotent and the order in which they are applied
    does not matter. *)
Theorem flag_middlewares_bits (h : Heap) (e : Event) (n : Z) :
  (0 <= n)%Z ->
  Z.testbit (GetFlag (Once e h) e) n = Z.testbit (GetFlag h e) n || Z.eqb 0 n
  /\ Z.testbit (GetFlag (Void e h) e) n = Z.testbit (GetFlag h e) n || Z.eqb 1 n
  /\ Z.testbit (GetFlag (Skip e h) e) n = Z.testbit (GetFlag h e) n || Z.eqb 2 n
  /\ GetFlag (Once e (Once e h)) e = GetFlag (Once e h) e
  /\ GetFlag (Void e (Void e h)) e = GetFlag (Void e h) e
  /\ GetFlag (Skip e (Skip e h)) e = GetFlag (Skip e h) e
  /\ GetFlag (Once e (Skip e h)) e = GetFlag (Skip e (Once e h)) e
  /\ GetFlag (Once e (Void e h)) e = GetFlag (Void e (Once e h)) e
  /\ GetFlag (Void e (Skip e h)) e = GetFlag (Skip e (Void e h)) e.
Proof.
  intros Hn.
  assert (G : forall F h', GetFlag (SetFlag e F h') e = F).
  { intros F h'. apply GetFlag_SetFlag. }
  unfold Once, Void, Skip. rewrite !G.
  unfold FlagOnce, FlagVoid, FlagSkip.
  repeat split; try (apply lor_bit; lia);
    apply Z.bits_inj'; intros m Hm; rewrite ?lor_bit by lia;
    destruct (Z.testbit (GetFlag h e) m), (Z.eqb 0 m), (Z.eqb 1 m), (Z.eqb 2 m);
    reflexivity.
Qed.

(** ** The middleware registry: [Use] and [getMiddlewares] *)

Lemma Load_Delete {V} (k q : string) (m : smap V) :
  Load q (Delete k m) = if String.eqb q k then None else Load q m.
Proof.
  induction m as [|[k' v] m IH]; cbn [Delete Load].
  - now destruct (String.eqb q k).
  - destruct (String.eqb_spec k' k) as [->|Hne].
    + rewrite IH. destruct (String.eqb_spec q k) as [->|Hq]; [reflexivity|].
      apply not_eq_sym, String.eqb_neq in Hq. now rewrite Hq.
    + cbn [Load]. rewrite IH.
      destruct (String.eqb_spec k' q) as [->|Hq]; [|reflexivity].
      apply String.eqb_neq in Hne. now rewrite Hne.
Qed.

Lemma Load_Store {V} (k q : string) (v : V) (m : smap V) :
  Load q (Store k v m) = if String.eqb q k then Some v else Load q m.
Proof.
  destruct (String.eqb_spec q k) as [->|Hne].
  - apply Load_Store_eq.
  - now apply Load_Store_ne.
Qed.

Section MiddlewareRegistry.

Context {W : Type}.
Variable path_Match : string -> string -> bool * option GoPath.error.
Implicit Types (s : State W).

(** X4: [Use] sets the chain of a pattern: afterwards the pattern holds
    the given chain in place of any former one, or nothing when no
    middleware was given; the chains of the other patterns, the
    subscriptions and the mailboxes are as before. *)
Theorem Use_lookup s (pattern q : string) (mws : list Middleware) :
  Load q (middlewares (Use s pattern mws))
  = (if String.eqb q pattern
     then match mws with [] => None | _ => Some mws end
     else Load q (middlewares s))
  /\ listMans (Use s pattern mws) = listMans s
  /\ chans (Use s pattern mws) = chans s
  /\ heap (Use s pattern mws) = heap s.
Proof.
  unfold Use. destruct mws as [|mw mws];
    cbn [middlewares set_middlewares listMans chans heap].
  - now rewrite Load_Delete.
  - now rewrite Load_Store.
Qed.

(** X5: [getMiddlewares] returns the chains of all the patterns that
    match the topic in one direction or the other, one after the other
    in the order in which [Range] visits the patterns; a malformed
    pattern or topic only makes its own match fail and never cuts the
    collection short.  A middleware is returned exactly
    when it belongs to the chain of such a pattern. *)
Theorem getMiddlewares_collects s (topic : string) :
  getMiddlewares path_Match s topic
  = flat_map (fun kv => if bidir path_Match (fst kv) topic
                        then snd kv else []) (middlewares s)
  /\ forall mw, In mw (getMiddlewares path_Match s topic) <->
       exists pattern mws,
         In (pattern, mws) (middlewares s) /\ In mw mws
         /\ (fst (path_Match pattern topic) = true
             \/ fst (path_Match topic pattern) = true).
Proof.
  split; [apply getMiddlewares_flat_map|].
  intros mw. rewrite getMiddlewares_flat_map, in_flat_map. split.
  - intros ([pattern mws] & Hin & Hmw). cbn [fst snd] in Hmw.
    destruct (bidir path_Match pattern topic) eqn:E; [|destruct Hmw].
    exists pattern, mws. repeat split; trivial.
    unfold bidir in E. now apply orb_true_iff in E.
  - intros (pattern & mws & Hin & Hmw & Hb).
    exists (pattern, mws). split; [assumption|]. cbn [fst snd].
    unfold bidir. apply orb_true_iff in Hb. now rewrite Hb.
Qed.

Lemma flat_map_Store_absent {V B} (f : string * V -> list B) k v (m : smap V) :
  Load k m = None -> flat_map f (Store k v m) = flat_map f m ++ f (k, v).
Proof.
  intros H. rewrite Store_absent by assumption.
  rewrite flat_map_app. cbn [flat_map]. now rewrite app_nil_r.
Qed.

(** X6: for a pattern that holds no chain yet, [Use] adds its chain
    to the middlewares collected for the topics it matches, in one
    direction or the other, and changes nothing for the other topics;
    a second [Use] of the pattern without middlewares undoes the
    first. *)
Theorem Use_getMiddlewares s (pattern topic : string) (mw : Middleware)
    (mws : list Middleware) :
  Load pattern (middlewares s) = None ->
  Permutation
    (getMiddlewares path_Match (Use s pattern (mw :: mws)) topic)
    (getMiddlewares path_Match s topic
     ++ (if bidir path_Match pattern topic then mw :: mws else []))
  /\ getMiddlewares path_Match (Use (Use s pattern (mw :: mws)) pattern []) topic
     = getMiddlewares path_Match s topic
  /\ Use (Use s pattern (mw :: mws)) pattern [] = s.
Proof.
  intros HL. rewrite !getMiddlewares_flat_map.
  assert (E : Delete pattern (Store pattern (mw :: mws) (middlewares s))
              = middlewares s).
  { rewrite Store_absent by assumption. rewrite Delete_app. cbn [Delete].
    rewrite String.eqb_refl, app_nil_r. apply Delete_absent.
    now apply Load_None. }
  unfold Use. cbn [middlewares set_middlewares]. rewrite E.
  split; [|split; [reflexivity | now destruct s]].
  rewrite flat_map_Store_absent by assumption. apply Permutation_refl.
Qed.

End MiddlewareRegistry.

(** ** Subscribing: [On] and [Topics] *)

Section Subscribing.

Context {W : Type}.
Variable path_Match : string -> string -> bool * option GoPath.error.
Implicit Types (s : State W).

Lemma keys_Store {V} k (v : V) (m : smap V) :
  keys (Store k v m) = if mem k (keys m) then keys m else keys m ++ [k].
Proof.
  destruct (mem k (keys m)) eqn:E.
  - apply keys_Store_present. now apply mem_In.
  - apply keys_Store_absent. now apply mem_not_In.
Qed.

(** X7: [On] as a call.  It panics, before anything is stored, when
    the capacity is beyond what [make] accepts.  Otherwise it stores a
    new subscription under the topic and the identity of the listener:
    it carries the given middlewares and a new mailbox that is open,
    empty and of the capacity [Cap] has at that moment, on which no
    receiver is parked yet: until the worker parks, an unbuffered
    mailbox has no room, so a non-blocking send to it is dropped.  The
    other topics, the other identities under the topic and the other
    mailboxes are untouched, and [Topics] lists the topic besides those
    it listed. *)
Theorem On_registers (limit : nat) s (topic : string) (l : Listener W)
    (mws : list Middleware) :
  match On_checked limit s topic l mws with
  | Panic => limit < Cap s
  | Ok s' =>
      Cap s <= limit
      /\ exists sm,
           Load topic (listMans s') = Some sm
           /\ Load (lptr l) sm = Some (mkListenerManager (next_chan s) mws l)
           /\ chans s' (next_chan s) = mkChan (Cap s) [] false false
           /\ has_room (chans s' (next_chan s)) = (0 <? Cap s)%nat
           /\ has_room (park (chans s' (next_chan s))) = true
           /\ (forall choice e,
                 Cap s = 0 ->
                 send choice false (chans s' (next_chan s)) e false
                 = Returned false false (chans s' (next_chan s)))
           /\ next_chan s' = S (next_chan s)
           /\ (forall i, i <> next_chan s -> chans s' i = chans s i)
           /\ (forall K, K <> topic ->
                 Load K (listMans s') = Load K (listMans s))
           /\ (forall p, p <> lptr l ->
                 Load p sm = match Load topic (listMans s) with
                             | Some sm0 => Load p sm0
                             | None => None
                             end)
           /\ (forall K, In K (Topics s') <-> K = topic \/ In K (Topics s))
           /\ middlewares s' = middlewares s
           /\ heap s' = heap s
  end.
Proof.
  unfold On_checked, make_chan_checked.
  destruct (Nat.leb_spec (Cap s) limit) as [Hle|Hgt]; cbn [bindR];
    [|exact Hgt].
  split; [exact Hle|].
  assert (Hch : chans (On s topic l mws) (next_chan s)
                = mkChan (Cap s) [] false false).
  { unfold On, newListenerManager. cbn [chans set_listMans].
    now rewrite fn_lookup_insert. }
  unfold On, newListenerManager in *.
  cbn [listMans set_listMans chans next_chan middlewares heap] in *.
  eexists. rewrite Load_Store_eq. split; [reflexivity|].
  rewrite Load_Store_eq. split; [reflexivity|].
  split; [exact Hch|]. rewrite Hch.
  split; [unfold has_room; cbn [ch_buf ch_cap ch_recv length];
          now rewrite Nat.add_0_r|].
  split; [unfold has_room, park; cbn [ch_buf ch_cap ch_recv length];
          apply Nat.ltb_lt; lia|].
  split.
  { intros choice e H0. rewrite H0. reflexivity. }
  split; [reflexivity|].
  split; [intros i Hi; now rewrite fn_lookup_insert_ne by congruence|].
  split; [intros K HK; now apply Load_Store_ne|].
  split.
  - intros p Hp. rewrite Load_Store_ne by assumption.
    now destruct (Load topic (listMans s)).
  - split; [|split; reflexivity].
    intros K. rewrite !Topics_keys. cbn [listMans set_listMans].
    rewrite keys_Store.
    destruct (mem topic (keys (listMans s))) eqn:E.
    + apply mem_In in E. split; [tauto|]. intros [->|H]; assumption.
    + rewrite in_app_iff. cbn [In]. split; [intros [H|[<-|[]]]; tauto|].
      intros [->|H]; [right; now left | now left].
Qed.

Lemma all_chs_split (reg1 reg2 : smap (smap (listenerManager W))) K
    (a b : smap (listenerManager W)) p lm :
  all_chs (reg1 ++ (K, a ++ (p, lm) :: b) :: reg2)
  = all_chs reg1 ++ (chs_of a ++ ch lm :: chs_of b) ++ all_chs reg2.
Proof.
  unfold all_chs. rewrite flat_map_app. cbn [flat_map snd].
  unfold chs_of. now rewrite map_app.
Qed.

Lemma NoDup_mid {A} (l1 a b l2 : list A) x :
  NoDup (l1 ++ (a ++ x :: b) ++ l2) ->
  ~ In x l1 /\ ~ In x a /\ ~ In x b /\ ~ In x l2.
Proof.
  intros H.
  replace (l1 ++ (a ++ x :: b) ++ l2) with ((l1 ++ a) ++ x :: (b ++ l2)) in H
    by (rewrite <- !app_assoc; reflexivity).
  apply NoDup_remove_2 in H. rewrite !in_app_iff in H. tauto.
Qed.

(** X8: subscribing again a listener that is already subscribed under
    the topic replaces its subscription: the topics and the
    identities under the topic are the same, but the former mailbox
    is no longer in the registry and is left open, and an [Off] of the
    new state, whatever its topic and listeners, does not close it. *)
Theorem On_replaces_same_identity s (topic : string) (l : Listener W)
    (mws : list Middleware) (sm0 : smap (listenerManager W))
    (old : listenerManager W) :
  wf s ->
  Load topic (listMans s) = Some sm0 ->
  Load (lptr l) sm0 = Some old ->
  Permutation (Topics (On s topic l mws)) (Topics s)
  /\ (exists sm, Load topic (listMans (On s topic l mws)) = Some sm
        /\ Permutation (keys sm) (keys sm0)
        /\ Load (lptr l) sm = Some (mkListenerManager (next_chan s) mws l))
  /\ ~ In (ch old) (all_chs (listMans (On s topic l mws)))
  /\ ch_closed (chans (On s topic l mws) (ch old)) = false
  /\ (forall T ls s', Off path_Match (On s topic l mws) T ls = Ok s' ->
        ch_closed (chans s' (ch old)) = false).
Proof.
  intros Hwf HL Hold.
  pose proof (wf_On path_Match s topic l mws Hwf) as Hwf'.
  destruct Hwf as (Hk & Hin & Hp & Hne & Hc & Ho & Hlt).
  pose proof (Forall_Load _ _ _ _ Hin HL) as Hk0. cbn [snd] in Hk0.
  destruct (Load_split _ _ _ Hk HL) as (r1 & r2 & E & Hr1 & Hr2).
  destruct (Load_split _ _ _ Hk0 Hold) as (a & b & Ea & Ha & Hb).
  assert (Hreg : listMans (On s topic l mws)
                 = r1 ++ (topic, a ++ (lptr l, mkListenerManager (next_chan s) mws l)
                                      :: b) :: r2).
  { unfold On, newListenerManager. cbn [listMans set_listMans]. rewrite HL.
    rewrite E, Ea. now rewrite !Store_split by assumption. }
  assert (Hin_old : In (ch old) (all_chs (listMans s))).
  { apply (Load_all_chs _ topic sm0); [assumption|].
    apply chs_of_In. exists (lptr l, old). split; [now apply Load_In | reflexivity]. }
  assert (Hlt_old : ch old < next_chan s).
  { rewrite Forall_forall in Hlt. now apply Hlt. }
  assert (Hopen : ch_closed (chans s (ch old)) = false).
  { rewrite Forall_forall in Ho. now apply Ho. }
  assert (Hnot : ~ In (ch old) (all_chs (listMans (On s topic l mws)))).
  { rewrite Hreg, all_chs_split. cbn [ch].
    rewrite E, Ea, all_chs_split in Hc.
    apply NoDup_mid in Hc. rewrite !in_app_iff. cbn [In]. rewrite ?in_app_iff.
    intros [H|[[H|[H|H]]|H]]; try tauto. lia. }
  assert (Hch : chans (On s topic l mws) (ch old) = chans s (ch old)).
  { unfold On, newListenerManager. cbn [chans set_listMans].
    apply fn_lookup_insert_ne. lia. }
  split.
  { rewrite !Topics_keys, Hreg, E. unfold keys. rewrite !map_app.
    apply Permutation_refl. }
  split.
  { eexists. split; [|split].
    - unfold On, newListenerManager. cbn [listMans set_listMans].
      apply Load_Store_eq.
    - rewrite HL. rewrite keys_Store_present; [apply Permutation_refl|].
      apply Load_In in Hold. apply in_map_iff. now exists (lptr l, old).
    - apply Load_Store_eq. }
  split; [exact Hnot|]. split; [now rewrite Hch|].
  intros T ls s' EO.
  destruct (Off_spec path_Match _ T ls Hwf') as (s1 & E1 & _ & C1 & _).
  assert (s' = s1) by congruence. subst s'.
  destruct (C1 (ch old)) as [_ C2]. rewrite C2, Hch; [assumption|].
  intros Hx. apply Hnot. revert Hx. apply off_closed_incl.
Qed.

End Subscribing.

(** ** [Listeners] *)

Section ListenersOf.

Context {W : Type}.
Variable path_Match : string -> string -> bool * option GoPath.error.
Implicit Types (s : State W).

Lemma Range_listeners (sm : smap (listenerManager W)) (acc : list (Listener W)) :
  Range sm (fun _ lRaw listeners => (listeners ++ [listener lRaw], true)) acc
  = acc ++ map listener (map snd sm).
Proof.
  revert acc. induction sm as [|[p lm] sm IH]; intros acc; cbn [Range map].
  - now rewrite app_nil_r.
  - rewrite IH, <- app_assoc. reflexivity.
Qed.

Lemma Listeners_fold s (M : list string) (acc : list (Listener W)) :
  NoDup (keys (listMans s)) ->
  fold_left
    (fun listeners _topic =>
       Range (listMans s)
         (fun topicRaw smRaw listeners =>
            if negb (String.eqb topicRaw _topic) then (listeners, true)
            else (Range smRaw
                    (fun _ lRaw listeners =>
                       (listeners ++ [listener lRaw], true))
                    listeners, true))
         listeners) M acc
  = acc ++ map listener (subscribers s M).
Proof.
  intros Hnd. revert acc. induction M as [|t M IH]; intros acc; cbn [fold_left].
  - cbn. now rewrite app_nil_r.
  - rewrite IH.
    rewrite (Range_select (listMans s) t
               (fun smRaw listeners =>
                  Range smRaw
                    (fun _ lRaw listeners =>
                       (listeners ++ [listener lRaw], true)) listeners))
      by assumption.
    unfold subscribers. cbn [flat_map]. rewrite map_app, app_assoc.
    f_equal. destruct (Load t (listMans s)) as [sm|].
    + apply Range_listeners.
    + cbn. now rewrite app_nil_r.
Qed.

(** X9: on a registry whose topics are distinct, [Listeners] returns
    the listeners of the subscriptions stored under the topics that the
    query resolves to, topic after topic in the order of the
    resolution and, under a topic, in the order in which [Range]
    visits the inner map; a listener subscribed under several of these
    topics is listed once for each. *)
Theorem Listeners_subscribers s (Q : string) :
  NoDup (keys (listMans s)) ->
  Listeners path_Match s Q
  = map listener (subscribers s (fst (matched path_Match s Q))).
Proof.
  intros Hnd. unfold Listeners.
  destruct (matched path_Match s Q) as [M e]. cbn [fst].
  now apply (Listeners_fold s M []).
Qed.

End ListenersOf.

(** ** [Off] with listeners *)

Section OffSelective.

Context {W : Type}.
Variable path_Match : string -> string -> bool * option GoPath.error.
Implicit Types (s : State W) (reg : smap (smap (listenerManager W))).

Lemma Load_app_other {V} (m1 m2 : smap V) K :
  ~ In K (keys m1) -> Load K (m1 ++ m2) = Load K m2.
Proof.
  induction m1 as [|[k v] m1 IH]; intros H; [reflexivity|].
  cbn in H. cbn [app Load].
  destruct (String.eqb_spec k K) as [->|Hne]; [tauto|]. apply IH. tauto.
Qed.

Lemma Load_off_reg ps all ts reg K :
  NoDup (keys reg) ->
  Load K (off_reg ps all ts reg)
  = match Load K reg with
    | Some sm =>
        if mem K ts
        then (if all then None
              else match sm_without ps sm with
                   | [] => None
                   | sm' => Some sm'
                   end)
        else Some sm
    | None => None
    end.
Proof.
  induction reg as [|[k sm] reg IH]; intros Hnd; [reflexivity|].
  apply NoDup_cons_iff in Hnd as [Hk Hnd]. cbn [keys map fst] in Hk.
  rewrite off_reg_cons. cbn [fst Load].
  destruct (String.eqb_spec k K) as [->|Hne].
  - assert (Hrest : Load K (off_reg ps all ts reg) = None).
    { apply Load_None. intros H. apply Hk. revert H. apply keys_off_incl. }
    destruct (mem K ts).
    + unfold off_entry. cbn [fst snd]. destruct all; [exact Hrest|].
      destruct (sm_without ps sm) as [|e sm'] eqn:Es; [exact Hrest|].
      cbn [app Load]. now rewrite String.eqb_refl.
    + cbn [app Load]. now rewrite String.eqb_refl.
  - rewrite Load_app_other; [now apply IH|].
    destruct (mem k ts).
    + intros H. apply keys_off_entry in H. cbn in H. congruence.
    + cbn. intros [H|[]]. congruence.
Qed.

(** X10: on a well-formed registry, [Off] with listeners does not
    fail and acts on the topics that the query resolves to only: under
    each of them the subscriptions stored under the identity of one of
    the listeners are removed, the others stay, and the topic goes
    when nothing is left under it.  The mailboxes of the
    removed subscriptions are closed with their pending events kept;
    every other mailbox, the capacity, the pattern-scoped middlewares
    and the events are as before. *)
Theorem Off_listeners_selective s (T : string) (l : Listener W)
    (ls : list (Listener W)) :
  wf s ->
  exists s',
    Off path_Match s T (l :: ls) = Ok s'
    /\ (forall K,
          Load K (listMans s')
          = match Load K (listMans s) with
            | Some sm =>
                if mem K (fst (matched path_Match s T))
                then match sm_without (map lptr (l :: ls)) sm with
                     | [] => None
                     | sm' => Some sm'
                     end
                else Some sm
            | None => None
            end)
    /\ (forall K sm p lm,
          Load K (listMans s) = Some sm -> In (p, lm) sm ->
          chans s' (ch lm)
          = if mem K (fst (matched path_Match s T))
               && mem p (map lptr (l :: ls))
            then mkChan (ch_cap (chans s (ch lm))) (ch_buf (chans s (ch lm)))
                   true (ch_recv (chans s (ch lm)))
            else chans s (ch lm))
    /\ (forall i, ~ In i (all_chs (listMans s)) -> chans s' i = chans s i)
    /\ Cap s' = Cap s /\ middlewares s' = middlewares s /\ heap s' = heap s.
Proof.
  intros Hwf.
  destruct (Off_spec path_Match s T (l :: ls) Hwf) as (s' & E & R & C & S).
  cbn [is_nil] in R, C.
  set (M := fst (matched path_Match s T)) in *.
  set (ps := map lptr (l :: ls)) in *.
  destruct Hwf as (Hk & _ & _ & _ & Hc & _).
  assert (HLoad : forall K,
    Load K (listMans s')
    = match Load K (listMans s) with
      | Some sm =>
          if mem K M
          then match sm_without ps sm with [] => None | sm' => Some sm' end
          else Some sm
      | None => None
      end).
  { intros K. rewrite R, Load_off_reg by assumption. reflexivity. }
  exists s'. split; [exact E|]. split; [exact HLoad|].
  split; [|split].
  - intros K sm p lm HL Hin. destruct (C (ch lm)) as [C1 C2].
    destruct (mem K M && mem p ps) eqn:Eb.
    + apply andb_true_iff in Eb as [EK Ep]. rewrite C1; [reflexivity|].
      apply (off_closed_In ps false M (listMans s) K sm (p, lm)).
      * now apply mem_In.
      * now apply Load_In.
      * unfold sm_dropped. apply filter_In. now split.
    + apply C2. intros HD.
      apply (off_disjoint ps false M (listMans s) (ch lm)); [assumption| |assumption].
      rewrite <- R. specialize (HLoad K). rewrite HL in HLoad.
      destruct (mem K M) eqn:EK.
      * cbn [andb] in Eb.
        assert (Hkept : In (p, lm) (sm_without ps sm)).
        { unfold sm_without. apply filter_In. split; [assumption|].
          cbn [fst]. now rewrite Eb. }
        destruct (sm_without ps sm) as [|e sm'] eqn:Es; [destruct Hkept|].
        apply (Load_all_chs _ K (e :: sm')); [assumption|].
        apply chs_of_In. now exists (p, lm).
      * apply (Load_all_chs _ K sm); [assumption|].
        apply chs_of_In. now exists (p, lm).
  - intros i Hi. destruct (C i) as [_ C2]. apply C2.
    intros HD. apply Hi. revert HD. apply off_closed_incl.
  - destruct S as (S1 & S2 & _ & S4). repeat split; assumption.
Qed.

End OffSelective.

(** ** Reachable states *)

Section Reach.

Context {W : Type}.
Variable path_Match : string -> string -> bool * option GoPath.error.
Implicit Types (s : State W) (reg : smap (smap (listenerManager W))).

Lemma wf_set_heap s h : wf s -> wf (set_heap s h).
Proof. intros H. exact H. Qed.

Lemma wf_set_Cap s capacity :
  wf s ->
  wf (mkState capacity (listMans s) (middlewares s) (chans s) (next_chan s)
        (heap s)).
Proof. intros H. exact H. Qed.

(** Every reachable state is well formed. *)
Lemma reachable_wf s : reachable path_Match s -> wf s.
Proof.
  induction 1 as [capacity h|s capacity _ IH|s pattern mws _ IH
                  |s topic l mws _ IH|s topic l mws _ IH
                  |s topic ls s' _ IH E|s event _ IH
                  |s choice done_closed t s' _ IH E|s h _ IH|s c _ IH Hc].
  - apply wf_New.
  - now apply wf_set_Cap.
  - now apply wf_Use.
  - now apply (wf_On path_Match).
  - now apply (wf_Emitter_Once path_Match).
  - now apply (wf_Off path_Match s topic ls).
  - now apply wf_Emit.
  - now apply (wf_deliver path_Match choice done_closed s t).
  - now apply wf_set_heap.
  - now apply wf_set_chans.
Qed.

Lemma wf_deliver_safe choice done_closed s t :
  wf s -> deliver path_Match choice done_closed s t <> Crashed.
Proof.
  intros Hwf. unfold deliver, pushEvent.
  destruct (send choice done_closed _ _ _) as [sent canceled c|] eqn:E;
    [|discriminate].
  apply send_keeps_closed in E.
  assert (Hwf1 : wf (set_chans s (<[ch (t_lm t) := c]> (chans s)))).
  { apply wf_set_chans; [assumption|]. intros i.
    destruct (Nat.eq_dec i (ch (t_lm t))) as [->|Hne].
    - now rewrite fn_lookup_insert.
    - now rewrite fn_lookup_insert_ne by congruence. }
  destruct (if negb sent && negb canceled then false
            else if negb canceled
                 then has_flag (GetFlag (heap s) (t_event t)) FlagOnce
                 else false); [|discriminate].
  destruct (Off_spec path_Match _ (Topic (heap (set_chans s (<[ch (t_lm t) := c]> (chans s)))) (t_event t))
              [listener (t_lm t)] Hwf1) as (s2 & E2 & _).
  rewrite E2. discriminate.
Qed.

Lemma reachable_run_tasks choice ts s :
  reachable path_Match s ->
  exists s' blocked,
    run_tasks path_Match choice s ts = Ok (s', blocked)
    /\ reachable path_Match s' /\ incl blocked ts.
Proof.
  revert s. induction ts as [|t ts IH]; intros s Hr.
  - exists s, []. split; [reflexivity|]. split; [assumption | apply incl_refl].
  - cbn [run_tasks].
    pose proof (wf_deliver_safe choice false s t (reachable_wf s Hr)) as Hsafe.
    destruct (deliver path_Match choice false s t) as [s1| |] eqn:E.
    + destruct (IH s1) as (s' & blocked & E' & Hr' & Hin).
      { now apply (reach_deliver path_Match s choice false t). }
      exists s', blocked. split; [assumption|]. split; [assumption|].
      now apply incl_tl.
    + destruct (IH s Hr) as (s' & blocked & E' & Hr' & Hin).
      rewrite E'. cbn [bindR]. exists s', (t :: blocked).
      split; [reflexivity|]. split; [assumption|].
      intros x [<-|Hx]; [now left | right; now apply Hin].
    + congruence.
Qed.

Lemma NoDup_chs_inner reg K sm :
  NoDup (all_chs reg) -> In (K, sm) reg -> NoDup (chs_of sm).
Proof.
  intros Hnd Hin. apply in_split in Hin as (r1 & r2 & ->).
  rewrite all_chs_app, all_chs_cons in Hnd. cbn [snd] in Hnd.
  apply NoDup_app_r in Hnd. now apply NoDup_app_l in Hnd.
Qed.

Lemma chs_inner_inj (sm : smap (listenerManager W)) p lm p' lm' :
  NoDup (keys sm) -> NoDup (chs_of sm) ->
  Load p sm = Some lm -> Load p' sm = Some lm' -> ch lm = ch lm' -> p = p'.
Proof.
  intros Hk Hc H1 H2 E.
  destruct (string_dec p p') as [|Hne]; [assumption|]. exfalso.
  destruct (Load_split _ _ _ Hk H1) as (a & b & -> & Ha & Hb).
  unfold chs_of in Hc. rewrite map_app in Hc. cbn [map snd] in Hc.
  apply NoDup_remove_2 in Hc. apply Hc.
  apply Load_In in H2. apply in_app_iff in H2 as [H2|[H2|H2]].
  - apply in_app_iff. left. apply in_map_iff. now exists (p', lm').
  - congruence.
  - apply in_app_iff. right. apply in_map_iff. now exists (p', lm').
Qed.

Lemma chs_outer_inj reg K sm K' sm' i :
  NoDup (keys reg) -> NoDup (all_chs reg) ->
  Load K reg = Some sm -> Load K' reg = Some sm' ->
  In i (chs_of sm) -> In i (chs_of sm') -> K = K'.
Proof.
  intros Hk Hc H1 H2 Hi Hi'.
  destruct (string_dec K K') as [|Hne]; [assumption|]. exfalso.
  destruct (Load_split _ _ _ Hk H1) as (r1 & r2 & -> & Hr1 & Hr2).
  rewrite all_chs_app, all_chs_cons in Hc. cbn [snd] in Hc.
  apply Load_In in H2. apply in_app_iff in H2 as [H2|[H2|H2]].
  - apply (NoDup_app_disjoint _ _ i Hc).
    + apply in_flat_map. now exists (K', sm').
    + apply in_app_iff. now left.
  - congruence.
  - apply NoDup_app_r in Hc. apply (NoDup_app_disjoint _ _ i Hc); [assumption|].
    apply in_flat_map. now exists (K', sm').
Qed.

(** X11: in every state reached from [New] by calls that run one
    after the other, the registered topics are distinct and none is
    empty; a subscription is stored under the identity of its
    listener; its mailbox is allocated, open, and shared with no other
    registered subscription. *)
Theorem reachable_registry s :
  reachable path_Match s ->
  NoDup (Topics s)
  /\ (forall K sm, Load K (listMans s) = Some sm -> sm <> [] /\ NoDup (keys sm))
  /\ (forall K sm p lm,
        Load K (listMans s) = Some sm -> Load p sm = Some lm ->
        p = lptr (listener lm)
        /\ ch_closed (chans s (ch lm)) = false
        /\ ch lm < next_chan s
        /\ forall K' sm' p' lm',
             Load K' (listMans s) = Some sm' -> Load p' sm' = Some lm' ->
             ch lm' = ch lm -> K' = K /\ p' = p).
Proof.
  intros Hr. apply reachable_wf in Hr.
  destruct Hr as (Hk & Hin & Hp & Hne & Hc & Ho & Hlt).
  rewrite Forall_forall in Hin, Hp, Hne, Ho, Hlt.
  split; [now rewrite Topics_keys|]. split.
  - intros K sm HL. apply Load_In in HL.
    split; [apply (Hne _ HL) | apply (Hin _ HL)].
  - intros K sm p lm HL Hlm.
    assert (Hi : In (ch lm) (chs_of sm)).
    { apply chs_of_In. exists (p, lm). split; [now apply Load_In | reflexivity]. }
    assert (Hall : In (ch lm) (all_chs (listMans s))).
    { now apply (Load_all_chs _ K sm). }
    split.
    { specialize (Hp _ (Load_In _ _ _ HL)). cbn [snd] in Hp.
      rewrite Forall_forall in Hp. apply (Hp (p, lm)). now apply Load_In. }
    split; [now apply Ho|]. split; [now apply Hlt|].
    intros K' sm' p' lm' HL' Hlm' E.
    assert (Hi' : In (ch lm) (chs_of sm')).
    { apply chs_of_In. exists (p', lm'). split; [now apply Load_In | exact E]. }
    assert (K = K') by (apply (chs_outer_inj (listMans s) K sm K' sm' (ch lm)); assumption).
    subst K'. split; [reflexivity|].
    assert (sm' = sm) by congruence. subst sm'.
    apply (chs_inner_inj sm p' lm' p lm); try assumption.
    + apply (Hin _ (Load_In _ _ _ HL)).
    + apply (NoDup_chs_inner (listMans s) K); [assumption | now apply Load_In].
Qed.

(** X12: in every state reached from [New] by calls that run one
    after the other, no call of [Off] panics, whatever the topic and
    the listeners, no delivery task crashes on its deferred [Off], and
    a pass over any list of tasks ends with some of them blocked and
    the others done; the states so obtained are reachable again. *)
Theorem reachable_never_panics s :
  reachable path_Match s ->
  (forall T ls, exists s',
      Off path_Match s T ls = Ok s' /\ reachable path_Match s')
  /\ (forall choice done_closed t,
        deliver path_Match choice done_closed s t <> Crashed)
  /\ (forall choice ts, exists s' blocked,
        run_tasks path_Match choice s ts = Ok (s', blocked)
        /\ reachable path_Match s' /\ incl blocked ts).
Proof.
  intros Hr. split; [|split].
  - intros T ls.
    destruct (Off_spec path_Match s T ls (reachable_wf s Hr)) as (s' & E & _).
    exists s'. split; [assumption|].
    now apply (reach_Off path_Match s T ls).
  - intros choice done_closed t. apply wf_deliver_safe. now apply reachable_wf.
  - intros choice ts. now apply reachable_run_tasks.
Qed.

End Reach.

(** ** [Emit]: unresolved queries and the store of events *)

Section EmitReach.

Context {W : Type}.
Variable path_Match : string -> string -> bool * option GoPath.error.
Implicit Types (s : State W) (h : Heap) (tasks : list (Task W)).

(** X13: a query that resolves to no registered topic is inert:
    [Listeners] is empty, [Off] leaves the state as it is and closes
    nothing, and an emit to it launches nothing and leaves the state
    as it is -- no middleware runs, not even a pattern-scoped one
    whose pattern matches the topic -- and returns a completion signal
    that is already closed. *)
Theorem unresolved_query_inert s (Q : string) :
  fst (matched path_Match s Q) = [] ->
  Listeners path_Match s Q = []
  /\ (forall ls, Off path_Match s Q ls = Ok s)
  /\ (forall event : Event,
        Topic (heap s) event = Q ->
        Emit path_Match s event = ([], s)
        /\ done_at_return (fst (Emit path_Match s event)) = true).
Proof.
  intros HM. split; [|split].
  - unfold Listeners. destruct (matched path_Match s Q) as [M e].
    cbn [fst] in HM. now subst M.
  - intros ls. unfold Off. destruct (matched path_Match s Q) as [M e].
    cbn [fst] in HM. now subst M.
  - intros event <-. unfold Emit.
    destruct (matched path_Match s (Topic (heap s) event)) as [M e].
    cbn [fst] in HM. subst M. cbn. split; [now destruct s | reflexivity].
Qed.

(** The invariant of the loops of [Emit] on the store of events: [k]
    events were allocated since the store was [hinit], with [n0]
    events; the events of [hinit], the emitted one apart, are as they
    were, and the tasks hold distinct events allocated since. *)
Lemma Emit_listMan_alloc event (lm : listenerManager W) tasks hinit n0 h k :
  Forall mw_local (lm_middlewares lm) ->
  next h = n0 + k ->
  (forall e', e' < n0 -> e' <> event -> objs h e' = objs hinit e') ->
  Forall (fun t => n0 <= t_event t < next h) tasks ->
  NoDup (map t_event tasks) ->
  exists tasks' h',
    Emit_listMan event lm (tasks, h) = ((tasks', h'), true)
    /\ next h' = n0 + S k
    /\ (forall e', e' < n0 -> e' <> event -> objs h' e' = objs hinit e')
    /\ Forall (fun t => n0 <= t_event t < next h') tasks'
    /\ NoDup (map t_event tasks').
Proof.
  intros Hl Hn Hf Ht Hnd. unfold Emit_listMan.
  destruct (Clone_spec event h) as (C1 & C2 & C3 & C4).
  destruct (Clone event h) as [evn h1]. cbn [fst snd] in *. subst evn.
  destruct (applyMiddlewares_local (next h) (lm_middlewares lm) h1 Hl)
    as (A1 & A2 & A3).
  set (h2 := applyMiddlewares (next h) (lm_middlewares lm) h1) in *.
  assert (Hn2 : next h2 = n0 + S k) by lia.
  assert (Hf2 : forall e', e' < n0 -> e' <> event -> objs h2 e' = objs hinit e').
  { intros e' He' Hne. rewrite A3, C4 by lia. now apply Hf. }
  assert (Ht2 : Forall (fun t => n0 <= t_event t < next h2) tasks).
  { rewrite Forall_forall in *. intros t Hin. specialize (Ht t Hin). lia. }
  destruct (has_flag _ FlagVoid).
  - exists tasks, h2. repeat split; assumption.
  - exists (tasks ++ [mkTask lm (next h)]), h2. split; [reflexivity|].
    split; [assumption|]. split; [assumption|]. split.
    + apply Forall_app. split; [assumption|].
      constructor; [|constructor]. cbn [t_event]. lia.
    + rewrite map_app. cbn [map t_event]. apply NoDup_app_intro.
      * assumption.
      * constructor; [intros [] | constructor].
      * intros x Hx [<-|[]]. apply in_map_iff in Hx as (t & E & Hin).
        rewrite Forall_forall in Ht. specialize (Ht t Hin). lia.
Qed.

Lemma Emit_inner_alloc event (sm : smap (listenerManager W)) tasks hinit n0 h k :
  Forall (fun e => Forall mw_local (lm_middlewares (snd e))) sm ->
  next h = n0 + k ->
  (forall e', e' < n0 -> e' <> event -> objs h e' = objs hinit e') ->
  Forall (fun t => n0 <= t_event t < next h) tasks ->
  NoDup (map t_event tasks) ->
  exists tasks' h',
    Range sm (fun _ listMan st => Emit_listMan event listMan st) (tasks, h)
    = (tasks', h')
    /\ next h' = n0 + (k + length sm)
    /\ (forall e', e' < n0 -> e' <> event -> objs h' e' = objs hinit e')
    /\ Forall (fun t => n0 <= t_event t < next h') tasks'
    /\ NoDup (map t_event tasks').
Proof.
  revert tasks h k. induction sm as [|[p lm] sm IH]; intros tasks h k Hl Hn Hf Ht Hnd.
  - exists tasks, h. cbn [length]. rewrite Nat.add_0_r. repeat split; assumption.
  - apply Forall_cons_iff in Hl as [Hlm Hl]. cbn [snd] in Hlm.
    destruct (Emit_listMan_alloc event lm tasks hinit n0 h k Hlm Hn Hf Ht Hnd)
      as (t1 & h1 & E1 & N1 & F1 & T1 & D1).
    cbn [Range]. rewrite E1.
    destruct (IH t1 h1 (S k) Hl N1 F1 T1 D1) as (t2 & h2 & E2 & N2 & F2 & T2 & D2).
    exists t2, h2. split; [assumption|]. cbn [length].
    split; [lia|]. repeat split; assumption.
Qed.

Lemma Emit_topic_alloc s event tasks hinit n0 h k t :
  mws_local s -> NoDup (keys (listMans s)) ->
  next h = n0 + k ->
  (forall e', e' < n0 -> e' <> event -> objs h e' = objs hinit e') ->
  Forall (fun t => n0 <= t_event t < next h) tasks ->
  NoDup (map t_event tasks) ->
  exists tasks' h',
    Emit_topic path_Match s event (tasks, h) t = (tasks', h')
    /\ next h' = n0 + (k + length (subscribers s [t]))
    /\ (forall e', e' < n0 -> e' <> event -> objs h' e' = objs hinit e')
    /\ Forall (fun t => n0 <= t_event t < next h') tasks'
    /\ NoDup (map t_event tasks').
Proof.
  intros [Hp Hl] Hk Hn Hf Ht Hnd. unfold Emit_topic.
  destruct (applyMiddlewares_local event (getMiddlewares path_Match s t) h
              (getMiddlewares_local path_Match s t Hp)) as (A1 & A2 & A3).
  set (h1 := applyMiddlewares event (getMiddlewares path_Match s t) h) in *.
  rewrite (Range_select (listMans s) t
             (fun smRaw st =>
                Range smRaw (fun _ listMan st => Emit_listMan event listMan st) st))
    by assumption.
  unfold subscribers. cbn [flat_map]. rewrite app_nil_r.
  assert (Hf1 : forall e', e' < n0 -> e' <> event -> objs h1 e' = objs hinit e').
  { intros e' He' Hne. rewrite A3 by assumption. now apply Hf. }
  assert (Ht1 : Forall (fun t => n0 <= t_event t < next h1) tasks).
  { now rewrite A1. }
  destruct (Load t (listMans s)) as [sm|] eqn:HL.
  - assert (Hsm : Forall (fun e => Forall mw_local (lm_middlewares (snd e))) sm).
    { rewrite Forall_forall in Hl. apply (Hl (t, sm)). now apply Load_In. }
    rewrite length_map.
    apply (Emit_inner_alloc event sm tasks hinit n0 h1 k); try assumption. lia.
  - exists tasks, h1. cbn [length]. rewrite Nat.add_0_r.
    split; [reflexivity|]. split; [lia|]. repeat split; assumption.
Qed.

Lemma subscribers_cons s t ts :
  subscribers s (t :: ts) = subscribers s [t] ++ subscribers s ts.
Proof. unfold subscribers. cbn [flat_map]. now rewrite app_nil_r. Qed.

Lemma Emit_fold_alloc s event ts tasks hinit n0 h k :
  mws_local s -> NoDup (keys (listMans s)) ->
  next h = n0 + k ->
  (forall e', e' < n0 -> e' <> event -> objs h e' = objs hinit e') ->
  Forall (fun t => n0 <= t_event t < next h) tasks ->
  NoDup (map t_event tasks) ->
  exists tasks' h',
    fold_left (Emit_topic path_Match s event) ts (tasks, h) = (tasks', h')
    /\ next h' = n0 + (k + length (subscribers s ts))
    /\ (forall e', e' < n0 -> e' <> event -> objs h' e' = objs hinit e')
    /\ Forall (fun t => n0 <= t_event t < next h') tasks'
    /\ NoDup (map t_event tasks').
Proof.
  intros Hl Hk. revert tasks h k.
  induction ts as [|t ts IH]; intros tasks h k Hn Hf Ht Hnd.
  - exists tasks, h. cbn. rewrite Nat.add_0_r. repeat split; assumption.
  - destruct (Emit_topic_alloc s event tasks hinit n0 h k t Hl Hk Hn Hf Ht Hnd)
      as (t1 & h1 & E1 & N1 & F1 & T1 & D1).
    cbn [fold_left]. rewrite E1.
    destruct (IH t1 h1 _ N1 F1 T1 D1) as (t2 & h2 & E2 & N2 & F2 & T2 & D2).
    exists t2, h2. split; [assumption|].
    rewrite subscribers_cons, length_app.
    split; [lia|]. repeat split; assumption.
Qed.

(** X14: [Emit] and the store of events.  When the middlewares act
    through the [Event] interface, [Emit] allocates one copy of the
    event for each subscription under each topic it resolves to, void
    or not; the tasks it launches hold pairwise distinct copies among
    these, none of them the emitted event; and every event that existed
    before, the emitted one apart, is left as it was.  The capacity,
    the pattern-scoped middlewares, the registry and the mailboxes are
    untouched. *)
Theorem Emit_allocates_copies s (event : Event) :
  mws_local s -> NoDup (keys (listMans s)) -> event < next (heap s) ->
  next (heap (snd (Emit path_Match s event)))
  = next (heap s)
    + length (subscribers s (fst (matched path_Match s (Topic (heap s) event))))
  /\ (forall e', e' < next (heap s) -> e' <> event ->
        objs (heap (snd (Emit path_Match s event))) e' = objs (heap s) e')
  /\ Forall (fun t => next (heap s) <= t_event t
                      < next (heap (snd (Emit path_Match s event)))
                      /\ t_event t <> event)
       (fst (Emit path_Match s event))
  /\ NoDup (map t_event (fst (Emit path_Match s event)))
  /\ snd (Emit path_Match s event)
     = set_heap s (heap (snd (Emit path_Match s event))).
Proof.
  intros Hl Hk He. unfold Emit.
  destruct (matched path_Match s (Topic (heap s) event)) as [M e]. cbn [fst].
  destruct (Emit_fold_alloc s event M [] (heap s) (next (heap s)) (heap s) 0
              Hl Hk) as (tasks & h & E & N & F & T & D).
  { lia. } { reflexivity. } { constructor. } { constructor. }
  rewrite E. cbn [fst snd heap set_heap].
  split; [exact N|]. split; [exact F|]. split; [|split; [exact D | reflexivity]].
  rewrite Forall_forall in *. intros t Ht. specialize (T t Ht). lia.
Qed.

End EmitReach.

(** ** [Emit]: the fan-out *)

Lemma mw_on_obj_Once o :
  mw_on_obj Once o = obj_SetFlag o (Z.lor (obj_Flag o) FlagOnce).
Proof. unfold mw_on_obj, Once, SetFlag, GetFlag. cbn. now rewrite fn_lookup_insert. Qed.

Lemma mw_on_obj_Skip o :
  mw_on_obj Skip o = obj_SetFlag o (Z.lor (obj_Flag o) FlagSkip).
Proof. unfold mw_on_obj, Skip, SetFlag, GetFlag. cbn. now rewrite fn_lookup_insert. Qed.

Lemma obj_Flag_SetFlag o f : obj_Flag (obj_SetFlag o f) = f.
Proof. now destruct o. Qed.


Lemma Skip_never_void : never_void Skip.
Proof.
  intros o H. rewrite mw_on_obj_Skip, obj_Flag_SetFlag.
  rewrite has_flag_Void in *. rewrite Z.lor_spec, H. reflexivity.
Qed.

Lemma obj_Flag_Clone o : obj_Flag (obj_Clone o) = obj_Flag o.
Proof. now destruct o. Qed.

Lemma run_mws_never_void fns o :
  Forall never_void fns ->
  has_flag (obj_Flag o) FlagVoid = false ->
  has_flag (obj_Flag (run_mws fns o)) FlagVoid = false.
Proof.
  unfold run_mws. revert o. induction fns as [|fn fns IH]; intros o Hf Ho;
    [assumption|].
  apply Forall_cons_iff in Hf as [Hfn Hf]. cbn [fold_left].
  apply IH; [assumption|]. now apply Hfn.
Qed.

Section Fanout.

Context {W : Type}.
Variable path_Match : string -> string -> bool * option GoPath.error.
Implicit Types (s : State W) (h : Heap) (tasks : list (Task W)).

Lemma getMiddlewares_never_void s t :
  Forall (fun kv => Forall never_void (snd kv)) (middlewares s) ->
  Forall never_void (getMiddlewares path_Match s t).
Proof.
  intros H. rewrite Forall_forall. intros mw Hmw.
  unfold getMiddlewares in Hmw.
  enough (G : forall m acc,
             Forall (fun kv => Forall never_void (snd kv)) m ->
             Forall never_void acc ->
             Forall never_void
               (Range m
                  (fun pattern mws acc =>
                     if fst (path_Match pattern t) then (acc ++ mws, true)
                     else if fst (path_Match t pattern) then (acc ++ mws, true)
                     else (acc, true)) acc)).
  { specialize (G (middlewares s) [] H (Forall_nil _)).
    rewrite Forall_forall in G. now apply G. }
  clear. induction m as [|[k mws] m IH]; intros acc Hm Hacc; [assumption|].
  apply Forall_cons_iff in Hm as [Hk Hm]. cbn [Range snd] in *.
  destruct (fst (path_Match k t)); [|destruct (fst (path_Match t k))];
    apply IH; trivial; apply Forall_app; now split.
Qed.

Lemma deliveries_all o (sm : smap (listenerManager W)) :
  Forall (fun e => Forall never_void (lm_middlewares (snd e))) sm ->
  has_flag (obj_Flag o) FlagVoid = false ->
  map fst (deliveries_of o sm) = map snd sm.
Proof.
  intros Hsm Ho. unfold deliveries_of.
  induction sm as [|e sm IH]; [reflexivity|].
  apply Forall_cons_iff in Hsm as [He Hsm]. cbn [flat_map map].
  rewrite run_mws_never_void; [|assumption|now rewrite obj_Flag_Clone].
  cbn [app map fst]. f_equal. now apply IH.
Qed.

Lemma Emit_pure_all s o ts :
  mws_never_void s ->
  has_flag (obj_Flag o) FlagVoid = false ->
  map fst (fst (Emit_pure path_Match s o ts)) = subscribers s ts
  /\ has_flag (obj_Flag (snd (Emit_pure path_Match s o ts))) FlagVoid = false.
Proof.
  intros [Hp Hl]. revert o. induction ts as [|t ts IH]; intros o Ho.
  - split; [reflexivity | assumption].
  - rewrite Emit_pure_cons.
    assert (Ho1 : has_flag (obj_Flag (run_mws (getMiddlewares path_Match s t) o))
                    FlagVoid = false).
    { apply run_mws_never_void; [|assumption].
      now apply getMiddlewares_never_void. }
    destruct (IH _ Ho1) as [IH1 IH2].
    destruct (Emit_pure path_Match s _ ts) as [ds' o']. cbn [fst snd] in *.
    split; [|assumption].
    rewrite map_app, IH1, subscribers_cons. f_equal.
    unfold subscribers. cbn [flat_map]. rewrite app_nil_r.
    destruct (Load t (listMans s)) as [sm|] eqn:HL; [|reflexivity].
    apply deliveries_all; [|assumption].
    rewrite Forall_forall in Hl. apply (Hl (t, sm)). now apply Load_In.
Qed.


End Fanout.

(** ** Delivery attempts *)

(** X16: the outcomes of [send].  It blocks exactly when it may wait,
    [done] is not closed and the mailbox is open and full; it reports
    the event sent exactly when the mailbox is open with room and the
    [select] did not pick a closed [done], and then the event is the
    last of the mailbox; it reports a cancellation exactly when [done]
    is closed and was picked or was the only ready case.  No outcome is
    both sent and canceled, a mailbox changes only when the event is
    sent, and the random pick matters only when [done] is closed and
    the send is ready. *)
Theorem send_outcomes (choice done_closed : bool) (c : Chan) (e : Event)
    (wait : bool) :
  (send choice done_closed c e wait = Blocked
   <-> wait = true /\ done_closed = false
       /\ ch_closed c = false /\ has_room c = false)
  /\ (forall sent canceled c',
        send choice done_closed c e wait = Returned sent canceled c' ->
        sent = negb (ch_closed c) && has_room c && negb (done_closed && choice)
        /\ canceled
           = done_closed && (choice || negb (ch_closed c) && negb (has_room c))
        /\ sent && canceled = false
        /\ c' = (if sent then enqueue e c else c))
  /\ (done_closed = false \/ (ch_closed c = false /\ has_room c = false) ->
      send true done_closed c e wait = send false done_closed c e wait).
Proof.
  unfold send, send_body, select, chan_send.
  destruct wait, done_closed, choice, (ch_closed c) eqn:Ec, (has_room c) eqn:Er;
    cbn [negb andb orb bindR];
    (split; [split; [try discriminate; tauto | intros (? & ? & ? & ?); congruence]|]);
    (split; [intros sent canceled c'; try discriminate;
             intros [= <- <- <-]; tauto|]);
    try reflexivity; intros [?|[? ?]]; congruence.
Qed.

(** X17: the results of [pushEvent].  The error is always nil;
    success is that of the send; the subscription is to be removed
    exactly when the event was sent and carries [FlagOnce]; the call
    can block only for an event without [FlagSkip], on an open and
    full mailbox while [done] is open. *)
Theorem pushEvent_outcomes (choice done_closed : bool) (c : Chan) (h : Heap)
    (e : Event) :
  match pushEvent choice done_closed c h e with
  | PushBlocked =>
      has_flag (GetFlag h e) FlagSkip = false /\ done_closed = false
      /\ ch_closed c = false /\ has_room c = false
  | Pushed success remove err c' =>
      err = None
      /\ success
         = negb (ch_closed c) && has_room c && negb (done_closed && choice)
      /\ remove = success && has_flag (GetFlag h e) FlagOnce
      /\ c' = (if success then enqueue e c else c)
  end.
Proof.
  unfold pushEvent, send, send_body, select, chan_send.
  destruct (has_flag (GetFlag h e) FlagSkip), done_closed, choice,
    (ch_closed c) eqn:Ec, (has_room c) eqn:Er;
    cbn [negb andb orb bindR]; repeat split;
    destruct (has_flag (GetFlag h e) FlagOnce); reflexivity.
Qed.

Lemma closes_buf c c' D i : closes c c' D -> ch_buf (c' i) = ch_buf (c i).
Proof.
  intros H. destruct (H i) as [H1 H2].
  destruct (in_dec Nat.eq_dec i D) as [Hi|Hi].
  - now rewrite H1.
  - now rewrite H2.
Qed.

Section DeliverySent.

Context {W : Type}.
Variable path_Match : string -> string -> bool * option GoPath.error.
Implicit Types (s : State W) (t : Task W).

(** X18: a delivery to an open mailbox with room, when the [select]
    does not pick a closed [done], finishes with the event at the end
    of the mailbox, behind the events that were waiting there, and with
    the other mailboxes and the events as they were -- also when the
    event carries [FlagOnce] and the deferred [Off] closes the mailbox:
    a closed mailbox keeps its pending events.  The worker therefore
    handles the waiting events first and then the delivered one.
    Without [FlagOnce] the registry is untouched and no mailbox is
    closed. *)
Theorem deliver_sent_fifo (choice done_closed : bool) s t :
  wf s ->
  ch_closed (chans s (ch (t_lm t))) = false ->
  has_room (chans s (ch (t_lm t))) = true ->
  done_closed && choice = false ->
  exists s',
    deliver path_Match choice done_closed s t = Finished s'
    /\ ch_buf (chans s' (ch (t_lm t)))
       = ch_buf (chans s (ch (t_lm t))) ++ [t_event t]
    /\ (forall i, i <> ch (t_lm t) -> ch_buf (chans s' i) = ch_buf (chans s i))
    /\ heap s' = heap s
    /\ (forall w,
          observe (t_lm t) (heap s') (ch_buf (chans s' (ch (t_lm t)))) w
          = (try w' <- observe (t_lm t) (heap s)
                         (ch_buf (chans s (ch (t_lm t)))) w;
             Handle (listener (t_lm t)) (objs (heap s) (t_event t)) w'))
    /\ (has_flag (GetFlag (heap s) (t_event t)) FlagOnce = false ->
        listMans s' = listMans s
        /\ forall i, ch_closed (chans s' i) = ch_closed (chans s i)).
Proof.
  intros Hwf Hc Hr Hd.
  set (lm := t_lm t) in *. set (c := chans s (ch lm)) in *.
  assert (Hpush : pushEvent choice done_closed c (heap s) (t_event t)
                  = Pushed true (has_flag (GetFlag (heap s) (t_event t)) FlagOnce)
                      None (enqueue (t_event t) c)).
  { unfold pushEvent, send, send_body, select, chan_send in *.
    rewrite Hc, Hr in *. cbn [orb] in *. rewrite andb_true_r in *.
    destruct done_closed, choice; try discriminate; cbn [negb andb bindR];
      reflexivity. }
  set (s1 := set_chans s (<[ch lm := enqueue (t_event t) c]> (chans s))).
  assert (Hwf1 : wf s1).
  { apply wf_set_chans; [assumption|]. intros i.
    destruct (Nat.eq_dec i (ch lm)) as [->|Hne].
    - rewrite fn_lookup_insert. cbn [enqueue ch_closed]. reflexivity.
    - now rewrite fn_lookup_insert_ne by congruence. }
  assert (Hb1 : ch_buf (chans s1 (ch lm)) = ch_buf c ++ [t_event t]).
  { unfold s1. cbn [chans set_chans]. now rewrite fn_lookup_insert. }
  assert (Hb1' : forall i, i <> ch lm -> chans s1 i = chans s i).
  { intros i Hi. unfold s1. cbn [chans set_chans].
    now rewrite fn_lookup_insert_ne by congruence. }
  assert (Hobs : forall s', heap s' = heap s ->
            ch_buf (chans s' (ch lm)) = ch_buf c ++ [t_event t] ->
            forall w,
              observe lm (heap s') (ch_buf (chans s' (ch lm))) w
              = (try w' <- observe lm (heap s) (ch_buf c) w;
                 Handle (listener lm) (objs (heap s) (t_event t)) w')).
  { intros s' Hh Hb w. rewrite Hh, Hb, observe_app.
    destruct (observe lm (heap s) (ch_buf c) w) as [w'|]; cbn [bindR observe];
      [|reflexivity].
    now destruct (Handle (listener lm) (objs (heap s) (t_event t)) w'). }
  unfold deliver. fold lm. fold c. rewrite Hpush. fold s1.
  destruct (has_flag (GetFlag (heap s) (t_event t)) FlagOnce) eqn:Eo.
  - destruct (Off_spec path_Match s1 (Topic (heap s1) (t_event t))
                [listener lm] Hwf1) as (s2 & E2 & _ & C2 & S2).
    rewrite E2. exists s2. split; [reflexivity|].
    assert (Hh : heap s2 = heap s) by (destruct S2 as (_ & _ & _ & ->); reflexivity).
    assert (Hb : ch_buf (chans s2 (ch lm)) = ch_buf c ++ [t_event t]).
    { now rewrite (closes_buf _ _ _ _ C2). }
    split; [exact Hb|]. split.
    { intros i Hi. rewrite (closes_buf _ _ _ _ C2). now rewrite Hb1'. }
    split; [exact Hh|]. split; [now apply Hobs | discriminate].
  - exists s1. split; [reflexivity|]. split; [exact Hb1|]. split.
    { intros i Hi. now rewrite Hb1'. }
    split; [reflexivity|]. split; [now apply Hobs|].
    intros _. split; [reflexivity|]. intros i.
    destruct (Nat.eq_dec i (ch lm)) as [->|Hne].
    + unfold s1. cbn [chans set_chans]. rewrite fn_lookup_insert.
      cbn [enqueue ch_closed]. reflexivity.
    + now rewrite Hb1'.
Qed.

End DeliverySent.

(** ** The worker of a typed listener *)

(** X19: the worker of a listener made by [ListenerFuncOf] for the
    type [T] acts as if its mailbox held the pointers to [EventOf[T]]
    only: the other events are taken out of the mailbox and dropped,
    and the order of the remaining ones is kept. *)
Theorem typed_worker_filters {W} (T : GoType) (p : string)
    (fn : string * Flag * GoVal T -> W -> Res W) (c : nat)
    (mws : list Middleware) (h : Heap) (mailbox : list Event) (w : W) :
  observe (mkListenerManager c mws (ListenerFuncOf T p fn)) h mailbox w
  = observe (mkListenerManager c mws (ListenerFuncOf T p fn)) h
      (filter (fun e => bool_decide (dyn_type (objs h e) = Some T)) mailbox) w.
Proof.
  revert w. induction mailbox as [|e mailbox IH]; intros w; [reflexivity|].
  cbn [filter]. destruct (bool_decide_reflect (dyn_type (objs h e) = Some T))
    as [Hty|Hty].
  - cbn [observe]. destruct (Handle _ (objs h e) w); cbn [bindR];
      [apply IH | reflexivity].
  - cbn [observe listener]. rewrite <- IH.
    unfold ListenerFuncOf at 1, assert_EventOf. cbn [Handle].
    destruct (objs h e) as [t f sub|T' t f sub]; [reflexivity|].
    destruct (decide (T' = T)) as [->|Hne]; [|reflexivity].
    exfalso. now apply Hty.
Qed.

(** ** Malformed topics *)

Section Unresolved.

Context {W : Type}.
Variable path_Match : string -> string -> bool * option GoPath.error.
Implicit Types (s : State W).

(** X20: a topic that the glob primitive rejects as a pattern, for
    the registered topics and for itself as names, can be subscribed
    to but not reached through its own name: right after [On] the
    topic is listed by [Topics], yet [Listeners] for it is empty, an
    emit to it launches nothing, and [Off] with it, with or without
    listeners, removes nothing and leaves the new mailbox open. *)
Theorem malformed_topic_unreachable s (Q : string) (l : Listener W)
    (mws : list Middleware) :
  (forall K, In K (Topics s) \/ K = Q -> snd (path_Match Q K) <> None) ->
  In Q (Topics (On s Q l mws))
  /\ Listeners path_Match (On s Q l mws) Q = []
  /\ (forall ls, Off path_Match (On s Q l mws) Q ls = Ok (On s Q l mws))
  /\ ch_closed (chans (On s Q l mws) (next_chan s)) = false
  /\ (forall (h : Heap) (event : Event),
        Topic h event = Q ->
        fst (Emit path_Match (set_heap (On s Q l mws) h) event) = []).
Proof.
  intros H.
  assert (HT : Topics (On s Q l mws)
               = if mem Q (Topics s) then Topics s else Topics s ++ [Q]).
  { rewrite !Topics_keys. unfold On, newListenerManager.
    cbn [listMans set_listMans]. apply keys_Store. }
  assert (HM : forall s', Topics s' = Topics (On s Q l mws) ->
                          fst (matched path_Match s' Q) = []).
  { intros s' Es'. rewrite matched_spec. cbn [fst].
    destruct (Topics s') as [|K rest] eqn:E'; [reflexivity|].
    assert (HK : In K (Topics s) \/ K = Q).
    { assert (Hin : In K (Topics (On s Q l mws))) by (rewrite <- Es'; now left).
      rewrite HT in Hin. destruct (mem Q (Topics s)); [now left|].
      apply in_app_iff in Hin as [Hin|[<-|[]]]; [now left | now right]. }
    specialize (H K HK). cbn [before_error].
    destruct (snd (path_Match Q K)); [reflexivity | congruence]. }
  split; [|split; [|split; [|split]]].
  - rewrite HT. destruct (mem Q (Topics s)) eqn:E.
    + now apply mem_In.
    + apply in_app_iff. right. now left.
  - specialize (HM (On s Q l mws) eq_refl). unfold Listeners.
    destruct (matched path_Match (On s Q l mws) Q) as [M e].
    cbn [fst] in HM. now subst M.
  - intros ls. specialize (HM (On s Q l mws) eq_refl). unfold Off.
    destruct (matched path_Match (On s Q l mws) Q) as [M e].
    cbn [fst] in HM. now subst M.
  - unfold On, newListenerManager. cbn [chans set_listMans].
    now rewrite fn_lookup_insert.
  - intros h event EQ. specialize (HM (set_heap (On s Q l mws) h) eq_refl).
    unfold Emit. cbn [heap set_heap]. rewrite EQ.
    destruct (matched path_Match (set_heap (On s Q l mws) h) Q) as [M e].
    cbn [fst] in HM. now subst M.
Qed.

End Unresolved.

(** ** [On] followed by [Off] *)

Section RoundTrip.

Context {W : Type}.
Variable path_Match : string -> string -> bool * option GoPath.error.
Implicit Types (s : State W) (reg : smap (smap (listenerManager W))).

Lemma sm_dropped_absent (sm : smap (listenerManager W)) p :
  Load p sm = None -> sm_dropped [p] false sm = [].
Proof.
  unfold sm_dropped. induction sm as [|[k lm] sm IH]; [reflexivity|].
  cbn [Load filter fst]. rewrite mem_one.
  destruct (String.eqb k p); [discriminate | assumption].
Qed.

Lemma sm_without_app ps (sm1 sm2 : smap (listenerManager W)) :
  sm_without ps (sm1 ++ sm2) = sm_without ps sm1 ++ sm_without ps sm2.
Proof. unfold sm_without. apply filter_app. Qed.

Lemma sm_dropped_app ps (sm1 sm2 : smap (listenerManager W)) :
  sm_dropped ps false (sm1 ++ sm2)
  = sm_dropped ps false sm1 ++ sm_dropped ps false sm2.
Proof. unfold sm_dropped. apply filter_app. Qed.

Lemma sm_without_self p (lm : listenerManager W) :
  sm_without [p] [(p, lm)] = [].
Proof.
  unfold sm_without. cbn [filter fst]. now rewrite mem_one, String.eqb_refl.
Qed.

Lemma sm_dropped_self p (lm : listenerManager W) :
  sm_dropped [p] false [(p, lm)] = [(p, lm)].
Proof.
  unfold sm_dropped. cbn [filter fst]. now rewrite mem_one, String.eqb_refl.
Qed.

Lemma off_reg_same ps ts reg :
  (forall kv, In kv reg -> mem (fst kv) ts = true ->
              sm_without ps (snd kv) = snd kv /\ snd kv <> []) ->
  off_reg ps false ts reg = reg.
Proof.
  induction reg as [|kv reg IH]; intros H; [reflexivity|].
  rewrite off_reg_cons, IH by (intros kv' Hin; apply H; now right).
  destruct (mem (fst kv) ts) eqn:E; [|reflexivity].
  destruct (H kv (or_introl eq_refl) E) as [H1 H2].
  unfold off_entry. rewrite H1. destruct kv as [k sm]. cbn [fst snd] in *.
  destruct sm; [congruence | reflexivity].
Qed.

Lemma off_closed_none ps ts reg :
  (forall kv, In kv reg -> mem (fst kv) ts = true ->
              sm_dropped ps false (snd kv) = []) ->
  off_closed ps false ts reg = [].
Proof.
  induction reg as [|kv reg IH]; intros H; [reflexivity|].
  rewrite off_closed_cons, IH by (intros kv' Hin; apply H; now right).
  destruct (mem (fst kv) ts) eqn:E; [|reflexivity].
  now rewrite (H kv (or_introl eq_refl) E).
Qed.

(** X21: subscribing and unsubscribing at once is a round trip.
    When the topic matches itself and the glob primitive reports no
    error for it, and the listener is subscribed under no registered
    topic matching it in one direction or the other, [Off] with the
    topic and the listener right after [On] gives back the registry as
    it was; what remains of the two calls is the new mailbox, closed,
    and the counter of mailboxes. *)
Theorem On_Off_round_trip s (topic : string) (l : Listener W)
    (mws : list Middleware) :
  wf s ->
  (forall K, In K (Topics s) \/ K = topic -> snd (path_Match topic K) = None) ->
  fst (path_Match topic topic) = true ->
  (forall K sm, bidir path_Match topic K = true ->
                Load K (listMans s) = Some sm -> Load (lptr l) sm = None) ->
  exists s',
    Off path_Match (On s topic l mws) topic [l] = Ok s'
    /\ listMans s' = listMans s
    /\ chans s' (next_chan s) = mkChan (Cap s) [] true false
    /\ (forall i, i <> next_chan s -> chans s' i = chans s i)
    /\ next_chan s' = S (next_chan s)
    /\ Cap s' = Cap s /\ middlewares s' = middlewares s /\ heap s' = heap s.
Proof.
  intros Hwf Herr Hself Hfree.
  pose proof (wf_On path_Match s topic l mws Hwf) as Hwf1.
  destruct (Off_spec path_Match (On s topic l mws) topic [l] Hwf1)
    as (s' & E & R & C & S).
  cbn [is_nil map] in R, C.
  set (p := lptr l) in *.
  set (lm := mkListenerManager (next_chan s) mws l).
  assert (HT : Topics (On s topic l mws)
               = if mem topic (Topics s) then Topics s else Topics s ++ [topic]).
  { rewrite !Topics_keys. unfold On, newListenerManager.
    cbn [listMans set_listMans]. apply keys_Store. }
  assert (HM : fst (matched path_Match (On s topic l mws) topic)
               = filter (bidir path_Match topic) (Topics (On s topic l mws))).
  { rewrite matched_no_error; [reflexivity|].
    intros K HK. apply Herr. rewrite HT in HK.
    destruct (mem topic (Topics s)); [now left|].
    apply in_app_iff in HK as [HK|[<-|[]]]; [now left | now right]. }
  rewrite HM in R, C.
  set (M := filter (bidir path_Match topic) (Topics (On s topic l mws))) in *.
  assert (Hbself : bidir path_Match topic topic = true).
  { unfold bidir. now rewrite Hself. }
  assert (HtM : mem topic M = true).
  { apply mem_In. unfold M. apply filter_In. split; [|assumption].
    rewrite HT. destruct (mem topic (Topics s)) eqn:Em.
    - now apply mem_In.
    - apply in_app_iff. right. now left. }
  assert (HinM : forall K, mem K M = true -> bidir path_Match topic K = true).
  { intros K HK. apply mem_In in HK. unfold M in HK.
    now apply filter_In in HK. }
  destruct Hwf as (Hk & Hin & Hp & Hne & Hc & Ho & Hlt).
  assert (Hold_same : forall r, incl r (listMans s) ->
            off_reg [p] false M r = r /\ off_closed [p] false M r = []).
  { intros r Hr. split.
    - apply off_reg_same. intros [K sm] Hkv HK. cbn [fst snd] in *.
      apply Hr in Hkv. split.
      + apply sm_without_absent. apply (Hfree K); [now apply HinM|].
        now apply In_Load.
      + rewrite Forall_forall in Hne. apply (Hne _ Hkv).
    - apply off_closed_none. intros [K sm] Hkv HK. cbn [fst snd] in *.
      apply Hr in Hkv. apply sm_dropped_absent.
      apply (Hfree K); [now apply HinM|]. now apply In_Load. }
  assert (Hboth : listMans s' = listMans s
                  /\ off_closed [p] false M (listMans (On s topic l mws))
                     = [next_chan s]).
  { rewrite R. unfold On, newListenerManager. cbn [listMans set_listMans].
    fold lm. fold p.
    destruct (Load topic (listMans s)) as [sm0|] eqn:HL.
    - assert (Hp0 : Load p sm0 = None) by (apply (Hfree topic); assumption).
      destruct (Load_split _ _ _ Hk HL) as (r1 & r2 & Es & Hr1 & Hr2).
      rewrite Es, Store_split by assumption.
      rewrite (Store_absent p lm sm0 Hp0).
      destruct (Hold_same r1) as [A1 B1].
      { rewrite Es. intros x Hx. apply in_app_iff. now left. }
      destruct (Hold_same r2) as [A2 B2].
      { rewrite Es. intros x Hx. apply in_app_iff. right. now right. }
      rewrite off_reg_app, off_reg_cons, off_closed_app, off_closed_cons.
      cbn [fst snd]. rewrite HtM, A1, A2, B1, B2.
      unfold off_entry. cbn [fst snd].
      rewrite sm_without_app, sm_dropped_app, sm_without_self, sm_dropped_self.
      rewrite (sm_without_absent sm0 p Hp0), (sm_dropped_absent sm0 p Hp0).
      rewrite app_nil_r. cbn [app chs_of map snd ch lm].
      split; [|reflexivity].
      destruct sm0 as [|e sm0]; [|reflexivity].
      exfalso. rewrite Forall_forall in Hne.
      apply (Hne (topic, [])); [|reflexivity]. now apply Load_In.
    - rewrite (Store_absent topic _ (listMans s) HL).
      destruct (Hold_same (listMans s) (incl_refl _)) as [A B].
      rewrite off_reg_app, off_closed_app, A, B.
      rewrite off_reg_cons, off_closed_cons. cbn [fst snd].
      rewrite HtM. unfold off_entry. cbn [fst snd Store].
      rewrite sm_without_self, sm_dropped_self.
      cbn. now rewrite app_nil_r. }
  destruct Hboth as [HR HD]. rewrite HD in C.
  exists s'. split; [exact E|]. split; [exact HR|].
  destruct S as (S1 & S2 & S3 & S4).
  split; [|split; [|split; [|split; [|split]]]].
  - destruct (C (next_chan s)) as [C1 _]. rewrite C1 by now left.
    unfold On, newListenerManager. cbn [chans set_listMans].
    rewrite fn_lookup_insert. reflexivity.
  - intros i Hi. destruct (C i) as [_ C2]. rewrite C2.
    + unfold On, newListenerManager. cbn [chans set_listMans].
      now rewrite fn_lookup_insert_ne by congruence.
    + intros [Hx|[]]. congruence.
  - rewrite S3. reflexivity.
  - rewrite S1. reflexivity.
  - rewrite S2. reflexivity.
  - rewrite S4. reflexivity.
Qed.

End RoundTrip.

(** ** [Once] subscriptions, the emitted event, and [Off] twice *)

Lemma has_flag_lor f bit : has_flag (Z.lor f bit) bit = true.
Proof.
  unfold has_flag. apply Z.eqb_eq.
  now rewrite <- Z.lor_assoc, Z.lor_diag.
Qed.

Lemma run_mws_app fns1 fns2 o :
  run_mws (fns1 ++ fns2) o = run_mws fns2 (run_mws fns1 o).
Proof. unfold run_mws. apply fold_left_app. Qed.

Section OnceSubscriptions.

Context {W : Type}.
Variable path_Match : string -> string -> bool * option GoPath.error.
Implicit Types (s : State W).




End OnceSubscriptions.

Section EmitAndOff.

Context {W : Type}.
Variable path_Match : string -> string -> bool * option GoPath.error.
Implicit Types (s : State W).

Lemma Emit_pure_shared s o ts :
  snd (Emit_pure path_Match s o ts)
  = run_mws (flat_map (getMiddlewares path_Match s) ts) o.
Proof.
  revert o. induction ts as [|t ts IH]; intros o; [reflexivity|].
  rewrite Emit_pure_cons. cbn [flat_map]. rewrite run_mws_app, <- IH.
  now destruct (Emit_pure path_Match s _ ts).
Qed.

(** X23: what [Emit] does to the event it is given.  When the
    middlewares act through the [Event] interface, the emitted event
    ends up as the chains of pattern-scoped middlewares leave it, a
    chain being selected by matching its pattern against each
    registered topic that the event resolves to -- not against the
    topic of the event -- and run once for each of them, in the order
    of the resolution. *)
Theorem Emit_shared_event s (event : Event) :
  mws_local s -> NoDup (keys (listMans s)) -> event < next (heap s) ->
  objs (heap (snd (Emit path_Match s event))) event
  = run_mws
      (flat_map (getMiddlewares path_Match s)
         (fst (matched path_Match s (Topic (heap s) event))))
      (objs (heap s) event).
Proof.
  intros Hl Hk He.
  destruct (Emit_refines path_Match s event Hl Hk He)
    as (tasks & s' & E & _ & _ & _ & O).
  rewrite E. cbn [snd]. rewrite O. apply Emit_pure_shared.
Qed.

(** X24: on a well-formed registry, a second [Off] with the same
    topic and listeners changes nothing. *)
Theorem Off_idempotent s (T : string) (ls : list (Listener W)) :
  wf s ->
  exists s', Off path_Match s T ls = Ok s' /\ Off path_Match s' T ls = Ok s'.
Proof.
  intros Hwf.
  destruct (Off_spec path_Match s T ls Hwf) as (s' & E & R & C & S).
  exists s'. split; [exact E|].
  assert (Hwf' : wf s') by (apply (wf_Off path_Match s T ls s' Hwf E)).
  destruct ls as [|l ls].
  - cbn [is_nil map] in R.
    apply Off_noop; [assumption| |].
    + left. now apply (matched_after_Off_all path_Match s s' T).
    + intros K sm l _ _ [].
  - cbn [is_nil] in R.
    apply Off_noop; [assumption | right; discriminate |].
    intros K sm l' HK HL Hl'.
    pose proof (matched_off_incl path_Match s s' T _ _ K R HK) as HK0.
    pose proof Hwf as (Hk & _).
    rewrite R, (Load_off_reg path_Match) in HL by exact Hk.
    apply mem_In in HK0. rewrite HK0 in HL.
    destruct (Load K (listMans s)) as [sm0|]; [|discriminate].
    assert (Hsm : sm = sm_without (map lptr (l :: ls)) sm0).
    { destruct (sm_without (map lptr (l :: ls)) sm0); congruence. }
    subst sm. apply Load_None. unfold sm_without, keys.
    intros Hin. apply in_map_iff in Hin as (e & Ee & Hin).
    apply filter_In in Hin as [_ Hq].
    assert (Hm : mem (fst e) (map lptr (l :: ls)) = true).
    { apply mem_In. rewrite Ee. now apply in_map. }
    rewrite Hm in Hq. discriminate.
Qed.

End EmitAndOff.

(** ** An emit runs to completion *)

Section Completion.

Context {W : Type}.
Variable path_Match : string -> string -> bool * option GoPath.error.
Implicit Types (s : State W) (t : Task W).

Lemma deliver_not_blocked choice s t :
  ch_closed (chans s (ch (t_lm t))) = true
  \/ has_room (chans s (ch (t_lm t))) = true ->
  deliver path_Match choice false s t <> StillBlocked.
Proof.
  intros H. unfold deliver, pushEvent, send, send_body, select, chan_send.
  cbn [andb].
  destruct (ch_closed (chans s (ch (t_lm t)))) eqn:Ec; cbn [orb bindR].
  - destruct (Off _ _ _ _); discriminate.
  - destruct H as [H|H]; [discriminate|]. rewrite H. cbn [bindR negb andb].
    destruct (has_flag _ FlagOnce); [destruct (Off _ _ _ _)|]; discriminate.
Qed.

(** What a finished delivery leaves of the other mailboxes: they are
    as they were, or closed. *)
Lemma deliver_frame choice done_closed s t s' i :
  wf s ->
  deliver path_Match choice done_closed s t = Finished s' ->
  i <> ch (t_lm t) ->
  chans s' i = chans s i \/ chans s' i = set_closed (chans s i).
Proof.
  intros Hwf E Hi. unfold deliver, pushEvent in E.
  destruct (send choice done_closed _ _ _) as [sent canceled c|] eqn:Es;
    [|discriminate].
  apply send_keeps_closed in Es.
  assert (Hwf1 : wf (set_chans s (<[ch (t_lm t) := c]> (chans s)))).
  { apply wf_set_chans; [assumption|]. intros j.
    destruct (Nat.eq_dec j (ch (t_lm t))) as [->|Hne].
    - now rewrite fn_lookup_insert.
    - now rewrite fn_lookup_insert_ne by congruence. }
  assert (H1 : chans (set_chans s (<[ch (t_lm t) := c]> (chans s))) i
               = chans s i).
  { cbn [chans set_chans]. now rewrite fn_lookup_insert_ne by congruence. }
  destruct (if negb sent && negb canceled then false
            else if negb canceled
                 then has_flag (GetFlag (heap s) (t_event t)) FlagOnce
                 else false).
  - destruct (Off_spec path_Match _
                (Topic (heap (set_chans s (<[ch (t_lm t) := c]> (chans s))))
                   (t_event t))
                [listener (t_lm t)] Hwf1) as (s2 & E2 & _ & C2 & _).
    rewrite E2 in E. injection E as <-.
    destruct (C2 i) as [Ca Cb]. rewrite H1 in Ca, Cb.
    destruct (in_dec Nat.eq_dec i
                (off_closed (map lptr [listener (t_lm t)])
                   (is_nil [listener (t_lm t)])
                   (fst (matched path_Match
                           (set_chans s (<[ch (t_lm t) := c]> (chans s)))
                           (Topic (heap (set_chans s (<[ch (t_lm t) := c]> (chans s))))
                              (t_event t))))
                   (listMans (set_chans s (<[ch (t_lm t) := c]> (chans s))))))
      as [Hin|Hout].
    + right. now apply Ca.
    + left. now apply Cb.
  - injection E as <-. left. exact H1.
Qed.

Lemma run_tasks_through choice ts s :
  wf s ->
  NoDup (map (fun t => ch (t_lm t)) ts) ->
  Forall (fun t => ch_closed (chans s (ch (t_lm t))) = true
                   \/ has_room (chans s (ch (t_lm t))) = true) ts ->
  exists s', run_tasks path_Match choice s ts = Ok (s', []).
Proof.
  revert s. induction ts as [|t ts IH]; intros s Hwf Hnd Hok.
  - now exists s.
  - cbn [map] in Hnd. apply NoDup_cons_iff in Hnd as [Ht Hnd].
    apply Forall_cons_iff in Hok as [Hok_t Hok].
    cbn [run_tasks].
    pose proof (deliver_not_blocked choice s t Hok_t) as Hnb.
    pose proof (wf_deliver_safe path_Match choice false s t Hwf) as Hnc.
    destruct (deliver path_Match choice false s t) as [s1| |] eqn:E;
      [|congruence|congruence].
    apply IH.
    + now apply (wf_deliver path_Match choice false s t).
    + assumption.
    + rewrite Forall_forall in *. intros x Hx.
      assert (Hne : ch (t_lm x) <> ch (t_lm t)).
      { intros Heq. apply Ht. rewrite <- Heq.
        apply (in_map (fun t => ch (t_lm t))). exact Hx. }
      destruct (deliver_frame choice false s t s1 _ Hwf E Hne) as [-> | ->].
      * now apply Hok.
      * left. reflexivity.
Qed.

Lemma deliveries_chs o (sm : smap (listenerManager W)) :
  NoDup (chs_of sm) ->
  NoDup (map (fun d => ch (fst d)) (deliveries_of o sm))
  /\ forall i, In i (map (fun d => ch (fst d)) (deliveries_of o sm)) ->
               In i (chs_of sm).
Proof.
  unfold deliveries_of, chs_of. induction sm as [|e sm IH]; intros Hnd.
  - split; [constructor | intros i []].
  - cbn [map] in Hnd. apply NoDup_cons_iff in Hnd as [He Hnd].
    destruct (IH Hnd) as [IH1 IH2]. cbn [flat_map].
    destruct (has_flag _ FlagVoid); cbn [app map fst].
    + split; [assumption|]. intros i Hi. right. now apply IH2.
    + split.
      * constructor; [|assumption]. intros Hin. apply He. now apply IH2.
      * intros i [<-|Hi]; [now left | right; now apply IH2].
Qed.

Lemma Emit_pure_chs s o ts :
  wf s -> NoDup ts ->
  NoDup (map (fun d => ch (fst d)) (fst (Emit_pure path_Match s o ts)))
  /\ forall i,
       In i (map (fun d => ch (fst d)) (fst (Emit_pure path_Match s o ts))) ->
       exists K sm, In K ts /\ Load K (listMans s) = Some sm /\ In i (chs_of sm).
Proof.
  intros Hwf. pose proof Hwf as (Hk & _ & _ & _ & Hc & _).
  revert o. induction ts as [|t ts IH]; intros o Hnd.
  - split; [constructor | intros i []].
  - apply NoDup_cons_iff in Hnd as [Ht Hnd]. rewrite Emit_pure_cons.
    destruct (IH (run_mws (getMiddlewares path_Match s t) o) Hnd) as [IH1 IH2].
    destruct (Emit_pure path_Match s _ ts) as [ds' o']. cbn [fst] in *.
    rewrite map_app.
    assert (Hds : exists ds,
      ds = map (fun d => ch (fst d))
             match Load t (listMans s) with
             | Some sm =>
                 deliveries_of (run_mws (getMiddlewares path_Match s t) o) sm
             | None => []
             end
      /\ NoDup ds
      /\ forall i, In i ds ->
           exists sm, Load t (listMans s) = Some sm /\ In i (chs_of sm)).
    { eexists. split; [reflexivity|].
      destruct (Load t (listMans s)) as [sm|] eqn:HL.
      - destruct (deliveries_chs (run_mws (getMiddlewares path_Match s t) o) sm)
          as [D1 D2].
        { apply (NoDup_chs_inner (listMans s) t); [assumption | now apply Load_In]. }
        split; [assumption|]. intros i Hi. exists sm. split; [reflexivity | now apply D2].
      - split; [constructor | intros i []]. }
    destruct Hds as (ds & -> & D1 & D2).
    split.
    + apply NoDup_app_intro; [assumption | assumption |].
      intros i Hi Hi'. destruct (D2 i Hi) as (sm & HL & Hin).
      destruct (IH2 i Hi') as (K & sm' & HK & HL' & Hin').
      assert (t = K).
      { apply (chs_outer_inj (listMans s) t sm K sm' i); assumption. }
      subst K. contradiction.
    + intros i Hi. apply in_app_iff in Hi as [Hi|Hi].
      * destruct (D2 i Hi) as (sm & HL & Hin).
        exists t, sm. split; [now left | tauto].
      * destruct (IH2 i Hi) as (K & sm' & HK & HL' & Hin').
        exists K, sm'. split; [now right | tauto].
Qed.

(** X25: an emit runs to completion when no mailbox is full.  On a
    well-formed state whose middlewares act through the [Event]
    interface and whose registered mailboxes all have room for one
    more event, the deliveries that [Emit] launches go to pairwise
    distinct mailboxes, and one pass over them, in whatever order they
    are run, finishes every one of them, whatever the random picks and
    also when some of them carry [FlagOnce] and unsubscribe: none
    blocks, none panics, so the wait group reaches zero and the
    completion signal is closed. *)
Theorem Emit_runs_to_completion s (event : Event) (choice : bool) :
  mws_local s -> wf s -> event < next (heap s) ->
  Forall (fun i => has_room (chans s i) = true) (all_chs (listMans s)) ->
  NoDup (map (fun t => ch (t_lm t)) (fst (Emit path_Match s event)))
  /\ forall ts,
       Permutation ts (fst (Emit path_Match s event)) ->
       exists s',
         run_tasks path_Match choice (snd (Emit path_Match s event)) ts
         = Ok (s', []).
Proof.
  intros Hl Hwf He Hroom. pose proof Hwf as (Hk & _).
  destruct (Emit_refines path_Match s event Hl Hk He)
    as (tasks & s1 & E & R1 & C1 & V & _).
  destruct (Emit_pure_chs s (objs (heap s) event)
              (fst (matched path_Match s (Topic (heap s) event))) Hwf)
    as [P1 P2].
  { now apply matched_NoDup. }
  rewrite E. cbn [fst snd]. rewrite <- V in P1, P2.
  unfold view in P1, P2. rewrite map_map in P1, P2. cbn [fst] in P1, P2.
  split; [exact P1|]. intros ts Hperm.
  assert (Hwf1 : wf s1).
  { pose proof (wf_Emit path_Match s event Hwf) as H. now rewrite E in H. }
  apply run_tasks_through; [assumption | |].
  { apply (Permutation_NoDup (l := map (fun t => ch (t_lm t)) tasks));
      [|exact P1].
    apply Permutation_map. now apply Permutation_sym. }
  rewrite Forall_forall in *. intros t Ht. right. rewrite C1.
  apply Hroom.
  destruct (P2 (ch (t_lm t))) as (K & sm & _ & HL & Hin).
  { apply (in_map (fun t => ch (t_lm t))).
    now apply (Permutation_in t Hperm). }
  now apply (Load_all_chs _ K sm).
Qed.

Lemma deliver_plain choice s t :
  ch_closed (chans s (ch (t_lm t))) = false ->
  has_room (chans s (ch (t_lm t))) = true ->
  has_flag (GetFlag (heap s) (t_event t)) FlagOnce = false ->
  deliver path_Match choice false s t
  = Finished (set_chans s (<[ch (t_lm t)
                            := enqueue (t_event t) (chans s (ch (t_lm t)))]>
                             (chans s))).
Proof.
  intros Hc Hr Ho.
  unfold deliver, pushEvent, send, send_body, select, chan_send.
  rewrite Hc, Hr, Ho. reflexivity.
Qed.

Lemma run_tasks_plain choice ts s :
  NoDup (map (fun t => ch (t_lm t)) ts) ->
  Forall (fun t => ch_closed (chans s (ch (t_lm t))) = false
                   /\ has_room (chans s (ch (t_lm t))) = true
                   /\ has_flag (GetFlag (heap s) (t_event t)) FlagOnce = false)
    ts ->
  exists s',
    run_tasks path_Match choice s ts = Ok (s', [])
    /\ listMans s' = listMans s /\ heap s' = heap s
    /\ (forall t, In t ts ->
          chans s' (ch (t_lm t)) = enqueue (t_event t) (chans s (ch (t_lm t))))
    /\ (forall i, ~ In i (map (fun t => ch (t_lm t)) ts) ->
          chans s' i = chans s i).
Proof.
  revert s. induction ts as [|t ts IH]; intros s Hnd Hok.
  - exists s. repeat split; trivial. intros t [].
  - cbn [map] in Hnd. apply NoDup_cons_iff in Hnd as [Ht Hnd].
    apply Forall_cons_iff in Hok as [(Hc & Hr & Ho) Hok].
    cbn [run_tasks]. rewrite deliver_plain by assumption.
    set (s1 := set_chans s _).
    assert (Hother : forall i, i <> ch (t_lm t) -> chans s1 i = chans s i).
    { intros i Hi. unfold s1. cbn [chans set_chans].
      now rewrite fn_lookup_insert_ne by congruence. }
    assert (Hne : forall x, In x ts -> ch (t_lm x) <> ch (t_lm t)).
    { intros x Hx Heq. apply Ht. rewrite <- Heq.
      apply (in_map (fun t => ch (t_lm t))). exact Hx. }
    destruct (IH s1 Hnd) as (s' & E & R & H & Cin & Cout).
    { rewrite Forall_forall in *. intros x Hx.
      rewrite Hother by now apply Hne. now apply Hok. }
    exists s'. split; [exact E|]. split; [exact R|]. split; [exact H|]. split.
    + intros x [<-|Hx].
      * rewrite Cout by assumption. unfold s1. cbn [chans set_chans].
        now rewrite fn_lookup_insert.
      * rewrite Cin by assumption. now rewrite Hother by now apply Hne.
    + intros i Hi. cbn [map In] in Hi.
      rewrite Cout by tauto. apply Hother. intros ->. tauto.
Qed.

(** X26: an emit reaches every subscriber.  On a well-formed state
    whose middlewares act through the [Event] interface and never set
    the Void bit, and whose registered mailboxes all have room, the
    deliveries of an event that is not void, none of which carries
    [FlagOnce], all finish in one pass, in whatever order they are
    run: there is one for each subscription under each topic the event
    resolves to, and the mailbox of that subscription ends with the
    copy of the event made for it; the other mailboxes and the
    registry are as they were. *)
Theorem Emit_reaches_subscribers s (event : Event) (choice : bool) :
  mws_local s -> mws_never_void s -> wf s -> event < next (heap s) ->
  has_flag (GetFlag (heap s) event) FlagVoid = false ->
  Forall (fun i => has_room (chans s i) = true) (all_chs (listMans s)) ->
  Forall (fun t => has_flag (GetFlag (heap (snd (Emit path_Match s event)))
                               (t_event t)) FlagOnce = false)
    (fst (Emit path_Match s event)) ->
  map t_lm (fst (Emit path_Match s event))
  = subscribers s (fst (matched path_Match s (Topic (heap s) event)))
  /\ forall ts,
       Permutation ts (fst (Emit path_Match s event)) ->
       exists s',
         run_tasks path_Match choice (snd (Emit path_Match s event)) ts
         = Ok (s', [])
         /\ listMans s' = listMans s
         /\ (forall t, In t (fst (Emit path_Match s event)) ->
               ch_buf (chans s' (ch (t_lm t)))
               = ch_buf (chans s (ch (t_lm t))) ++ [t_event t])
         /\ (forall i,
               ~ In i (map (fun t => ch (t_lm t))
                         (fst (Emit path_Match s event))) ->
               chans s' i = chans s i).
Proof.
  intros Hl Hv Hwf He Ho Hroom Honce. pose proof Hwf as (Hk & _).
  destruct (Emit_refines path_Match s event Hl Hk He)
    as (tasks & s1 & E & R1 & C1 & V & _).
  destruct (Emit_pure_chs s (objs (heap s) event)
              (fst (matched path_Match s (Topic (heap s) event))) Hwf)
    as [P1 P2].
  { now apply matched_NoDup. }
  destruct (Emit_pure_all path_Match s (objs (heap s) event)
              (fst (matched path_Match s (Topic (heap s) event))) Hv Ho)
    as [A1 _].
  rewrite E in *. cbn [fst snd] in *. rewrite <- V in P1, P2, A1.
  unfold view in P1, P2, A1. rewrite map_map in P1, P2, A1.
  cbn [fst] in P1, P2, A1.
  split; [exact A1|]. intros ts Hperm.
  assert (Hchs : Permutation (map (fun t => ch (t_lm t)) ts)
                   (map (fun t => ch (t_lm t)) tasks))
    by now apply Permutation_map.
  destruct (run_tasks_plain choice ts s1) as (s' & E' & R' & _ & Cin & Cout).
  { apply (Permutation_NoDup (Permutation_sym Hchs) P1). }
  { rewrite Forall_forall in *. intros t Ht.
    apply (Permutation_in t Hperm) in Ht.
    assert (Hreg : In (ch (t_lm t)) (all_chs (listMans s))).
    { destruct (P2 (ch (t_lm t))) as (K & sm & _ & HL & Hin).
      { apply (in_map (fun t => ch (t_lm t))). exact Ht. }
      now apply (Load_all_chs _ K sm). }
    rewrite C1. split; [|split].
    - destruct Hwf as (_ & _ & _ & _ & _ & Hopen & _).
      rewrite Forall_forall in Hopen. now apply Hopen.
    - now apply Hroom.
    - now apply Honce. }
  exists s'. split; [exact E'|]. split; [congruence|].
  split.
  - intros t Ht. apply (Permutation_in t (Permutation_sym Hperm)) in Ht.
    rewrite (Cin t Ht), C1. reflexivity.
  - intros i Hi. rewrite Cout, C1; [reflexivity|].
    intros Hin. apply Hi. now apply (Permutation_in i Hchs).
Qed.

End Completion.

(** ** Void events *)

Lemma mw_on_obj_Void o :
  mw_on_obj Void o = obj_SetFlag o (Z.lor (obj_Flag o) FlagVoid).
Proof. unfold mw_on_obj, Void, SetFlag, GetFlag. cbn. now rewrite fn_lookup_insert. Qed.

Lemma Void_sets_void o : has_flag (obj_Flag (mw_on_obj Void o)) FlagVoid = true.
Proof. rewrite mw_on_obj_Void, obj_Flag_SetFlag. apply has_flag_lor. Qed.

Lemma Void_keeps_void : keeps_void Void.
Proof. intros o _. apply Void_sets_void. Qed.

Lemma Once_keeps_void : keeps_void Once.
Proof.
  intros o H. rewrite mw_on_obj_Once, obj_Flag_SetFlag.
  rewrite has_flag_Void in *. rewrite Z.lor_spec, H. reflexivity.
Qed.

Lemma Skip_keeps_void : keeps_void Skip.
Proof.
  intros o H. rewrite mw_on_obj_Skip, obj_Flag_SetFlag.
  rewrite has_flag_Void in *. rewrite Z.lor_spec, H. reflexivity.
Qed.

Lemma run_mws_keeps_void fns o :
  Forall keeps_void fns ->
  has_flag (obj_Flag o) FlagVoid = true ->
  has_flag (obj_Flag (run_mws fns o)) FlagVoid = true.
Proof.
  unfold run_mws. revert o. induction fns as [|fn fns IH]; intros o Hf Ho;
    [assumption|].
  apply Forall_cons_iff in Hf as [Hfn Hf]. cbn [fold_left].
  apply IH; [assumption|]. now apply Hfn.
Qed.

Lemma run_mws_with_Void fns o :
  Forall keeps_void fns -> In Void fns ->
  has_flag (obj_Flag (run_mws fns o)) FlagVoid = true.
Proof.
  intros Hf Hin. apply in_split in Hin as (a & b & ->).
  rewrite run_mws_app. apply Forall_app in Hf as [_ Hf].
  apply Forall_cons_iff in Hf as [_ Hf].
  change (run_mws (Void :: b) (run_mws a o))
    with (run_mws b (mw_on_obj Void (run_mws a o))).
  apply run_mws_keeps_void; [assumption|]. apply Void_sets_void.
Qed.

Section VoidEvents.

Context {W : Type}.
Variable path_Match : string -> string -> bool * option GoPath.error.
Implicit Types (s : State W).

Lemma getMiddlewares_keep_void s t :
  Forall (fun kv => Forall keeps_void (snd kv)) (middlewares s) ->
  Forall keeps_void (getMiddlewares path_Match s t).
Proof.
  intros H. rewrite getMiddlewares_flat_map.
  induction (middlewares s) as [|[k mws] m IH]; [constructor|].
  apply Forall_cons_iff in H as [Hk H]. cbn [flat_map fst snd] in *.
  apply Forall_app. split; [|now apply IH].
  destruct (bidir path_Match k t); [assumption | constructor].
Qed.

Lemma deliveries_none o (sm : smap (listenerManager W)) :
  Forall (fun e => Forall keeps_void (lm_middlewares (snd e))) sm ->
  has_flag (obj_Flag o) FlagVoid = true ->
  deliveries_of o sm = [].
Proof.
  intros Hsm Ho. unfold deliveries_of.
  induction sm as [|e sm IH]; [reflexivity|].
  apply Forall_cons_iff in Hsm as [He Hsm]. cbn [flat_map].
  rewrite run_mws_keeps_void; [|assumption|now rewrite obj_Flag_Clone].
  cbn [app]. now apply IH.
Qed.

Lemma Emit_pure_none s o ts :
  mws_keep_void s ->
  has_flag (obj_Flag o) FlagVoid = true ->
  fst (Emit_pure path_Match s o ts) = [].
Proof.
  intros [Hp Hl]. revert o. induction ts as [|t ts IH]; intros o Ho;
    [reflexivity|].
  rewrite Emit_pure_cons.
  assert (Ho1 : has_flag (obj_Flag (run_mws (getMiddlewares path_Match s t) o))
                  FlagVoid = true).
  { apply run_mws_keeps_void; [|assumption].
    now apply getMiddlewares_keep_void. }
  specialize (IH _ Ho1).
  destruct (Emit_pure path_Match s _ ts) as [ds' o']. cbn [fst] in *.
  subst ds'. rewrite app_nil_r.
  destruct (Load t (listMans s)) as [sm|] eqn:HL; [|reflexivity].
  apply deliveries_none; [|assumption].
  rewrite Forall_forall in Hl. apply (Hl (t, sm)). now apply Load_In.
Qed.

(** X27: a void event reaches nobody.  When the middlewares act
    through the [Event] interface and none of them clears the Void
    bit, an emit launches no delivery at all, and returns a completion
    signal that is already closed, as soon as the event is void when it
    is emitted, or the pattern-scoped chain of the first topic it
    resolves to contains [Void]: the bit set on the emitted event is
    inherited by every copy made afterwards. *)
Theorem Emit_void_reaches_nobody s (event : Event) :
  mws_local s -> mws_keep_void s ->
  NoDup (keys (listMans s)) -> event < next (heap s) ->
  has_flag (GetFlag (heap s) event) FlagVoid = true
  \/ (forall K rest,
        fst (matched path_Match s (Topic (heap s) event)) = K :: rest ->
        In Void (getMiddlewares path_Match s K)) ->
  fst (Emit path_Match s event) = []
  /\ done_at_return (fst (Emit path_Match s event)) = true
  /\ listMans (snd (Emit path_Match s event)) = listMans s
  /\ chans (snd (Emit path_Match s event)) = chans s.
Proof.
  intros Hl Hv Hk He Hvoid.
  destruct (Emit_refines path_Match s event Hl Hk He)
    as (tasks & s' & E & R & C & V & _).
  rewrite E. cbn [fst snd].
  assert (Hnone : fst (Emit_pure path_Match s (objs (heap s) event)
                         (fst (matched path_Match s (Topic (heap s) event))))
                  = []).
  { destruct Hvoid as [Ho|Hfirst]; [now apply Emit_pure_none|].
    destruct (fst (matched path_Match s (Topic (heap s) event)))
      as [|K rest]; [reflexivity|].
    specialize (Hfirst K rest eq_refl). rewrite Emit_pure_cons.
    assert (Ho1 : has_flag
                    (obj_Flag (run_mws (getMiddlewares path_Match s K)
                                 (objs (heap s) event))) FlagVoid = true).
    { apply run_mws_with_Void; [|assumption].
      apply getMiddlewares_keep_void, Hv. }
    pose proof (Emit_pure_none s _ rest Hv Ho1) as Hrest.
    destruct (Emit_pure path_Match s _ rest) as [ds' o']. cbn [fst] in *.
    subst ds'. rewrite app_nil_r.
    destruct (Load K (listMans s)) as [sm|] eqn:HL; [|reflexivity].
    apply deliveries_none; [|assumption].
    destruct Hv as [_ Hlm]. rewrite Forall_forall in Hlm.
    apply (Hlm (K, sm)). now apply Load_In. }
  rewrite Hnone in V. unfold view in V.
  assert (tasks = []) by (destruct tasks; [reflexivity | discriminate]).
  subst tasks. repeat split; assumption.
Qed.

End VoidEvents.

(** ** The further properties at work on the sample states *)

Lemma Clone_independent_witness :
  fst (Clone 0 (snd (NewEvent "a" nil_any h0))) <> 0
  /\ objs (snd (Clone 0 (snd (NewEvent "a" nil_any h0))))
       (fst (Clone 0 (snd (NewEvent "a" nil_any h0))))
     = objs (snd (NewEvent "a" nil_any h0)) 0.
Proof.
  destruct (Clone_independent (snd (NewEvent "a" nil_any h0)) 0) as (H1 & H2 & _).
  - cbn. lia.
  - split; assumption.
Defined.

Lemma flag_middlewares_bits_witness :
  Z.testbit (GetFlag (Void 0 h0) 0) 1 = true
  /\ Z.testbit (GetFlag (Once 0 h0) 0) 1 = false.
Proof.
  destruct (flag_middlewares_bits h0 0 1) as (H1 & H2 & _); [lia|].
  split; [exact H2 | exact H1].
Defined.

Lemma Use_getMiddlewares_witness :
  Permutation
    (getMiddlewares GoPath.Match (Use (New nat 0 h0) "a*" [Skip]) "ab") [Skip]
  /\ Use (Use (New nat 0 h0) "a*" [Skip]) "a*" [] = New nat 0 h0.
Proof.
  destruct (Use_getMiddlewares GoPath.Match (New nat 0 h0) "a*" "ab" Skip [])
    as (H1 & _ & H3); [reflexivity|].
  split; [exact H1 | exact H3].
Defined.

Lemma On_replaces_same_identity_witness :
  Permutation (Topics (On star_state "*" (counting "0xc000010000") [Once])) ["*"]
  /\ ~ In 0 (all_chs (listMans (On star_state "*" (counting "0xc000010000") [Once])))
  /\ forall T ls s',
       Off GoPath.Match (On star_state "*" (counting "0xc000010000") [Once]) T ls
       = Ok s' ->
       ch_closed (chans s' 0) = false.
Proof.
  destruct (On_replaces_same_identity GoPath.Match star_state "*"
              (counting "0xc000010000") [Once]
              [("0xc000010000", mkListenerManager 0 [] (counting "0xc000010000"))]
              (mkListenerManager 0 [] (counting "0xc000010000")))
    as (H1 & _ & H3 & _ & H5).
  - wf_facts.
  - reflexivity.
  - reflexivity.
  - split; [exact H1|]. split; [exact H3 | exact H5].
Defined.

Lemma Listeners_subscribers_witness :
  map lptr (Listeners GoPath.Match shared_state "a")
  = ["0xc000010000"; "0xc000010008"; "0xc000010000"].
Proof.
  rewrite (Listeners_subscribers GoPath.Match shared_state "a").
  - reflexivity.
  - cbn. list_facts.
Defined.

Lemma Off_listeners_selective_witness :
  exists s',
    Off GoPath.Match shared_state "a" [counting "0xc000010000"] = Ok s'
    /\ Topics s' = ["a"]
    /\ map lptr (Listeners GoPath.Match s' "a") = ["0xc000010008"]
    /\ ch_closed (chans s' 0) = true /\ ch_closed (chans s' 1) = true
    /\ ch_closed (chans s' 2) = false.
Proof.
  destruct (Off_listeners_selective GoPath.Match shared_state "a"
              (counting "0xc000010000") []) as (s' & E & _).
  - wf_facts.
  - exists s'. split; [exact E|].
    vm_compute in E. injection E as <-. repeat split.
Defined.

Lemma reachable_registry_witness :
  NoDup (Topics shared_state)
  /\ forall K sm, Load K (listMans shared_state) = Some sm ->
                  sm <> [] /\ NoDup (keys sm).
Proof.
  destruct (reachable_registry GoPath.Match shared_state) as (H1 & H2 & _).
  - unfold shared_state. repeat apply reach_On. apply reach_New.
  - split; assumption.
Defined.

Lemma reachable_never_panics_witness :
  (exists s',
     Off GoPath.Match once_state "*" [] = Ok s' /\ reachable GoPath.Match s')
  /\ deliver GoPath.Match false false once_state once_task <> Crashed.
Proof.
  destruct (reachable_never_panics GoPath.Match once_state) as (H1 & H2 & _).
  - unfold once_state. apply reach_Once. apply reach_New.
  - split; [apply H1 | apply H2].
Defined.

Lemma unresolved_query_inert_witness :
  Listeners GoPath.Match test_off_state "other" = []
  /\ (forall ls, Off GoPath.Match test_off_state "other" ls = Ok test_off_state)
  /\ forall event : nat,
       Topic (heap test_off_state) event = "other" ->
       Emit GoPath.Match test_off_state event = ([], test_off_state)
       /\ done_at_return (fst (Emit GoPath.Match test_off_state event)) = true.
Proof.
  apply (unresolved_query_inert GoPath.Match test_off_state "other").
  reflexivity.
Defined.

Lemma shared_emit_local : mws_local shared_emit_state.
Proof.
  split; cbn; list_facts; first [apply Skip_local | apply Once_local].
Qed.

Lemma Emit_allocates_copies_witness :
  next (heap (snd (Emit GoPath.Match shared_emit_state 0))) = 4
  /\ map t_event (fst (Emit GoPath.Match shared_emit_state 0)) = [1; 2; 3].
Proof.
  destruct (Emit_allocates_copies GoPath.Match shared_emit_state 0)
    as (H1 & _).
  - apply shared_emit_local.
  - cbn. list_facts.
  - cbn. lia.
  - split; [exact H1 | reflexivity].
Defined.


Lemma deliver_sent_fifo_witness :
  exists s',
    deliver GoPath.Match false false star_parked
      (mkTask (mkListenerManager 0 [] (counting "0xc000010000")) 0)
    = Finished s'
    /\ ch_buf (chans s' 0) = [0].
Proof.
  destruct (deliver_sent_fifo GoPath.Match false false star_parked
              (mkTask (mkListenerManager 0 [] (counting "0xc000010000")) 0))
    as (s' & E & B & _).
  - wf_facts.
  - reflexivity.
  - reflexivity.
  - reflexivity.
  - exists s'. split; [exact E | exact B].
Defined.

Lemma malformed_topic_unreachable_witness :
  In "[" (Topics (On star_state "[" (counting "0xc000010008") []))
  /\ Listeners GoPath.Match (On star_state "[" (counting "0xc000010008") []) "["
     = []
  /\ forall ls,
       Off GoPath.Match (On star_state "[" (counting "0xc000010008") []) "[" ls
       = Ok (On star_state "[" (counting "0xc000010008") []).
Proof.
  destruct (malformed_topic_unreachable GoPath.Match star_state "["
              (counting "0xc000010008") []) as (H1 & H2 & H3 & _).
  - intros K [[<-|[]]| ->] HK; vm_compute in HK; discriminate HK.
  - split; [exact H1|]. split; [exact H2 | exact H3].
Defined.

Lemma On_Off_round_trip_witness :
  exists s',
    Off GoPath.Match (On star_state "a" (counting "0xc000010008") [Once]) "a"
      [counting "0xc000010008"] = Ok s'
    /\ listMans s' = listMans star_state
    /\ ch_closed (chans s' 1) = true.
Proof.
  destruct (On_Off_round_trip GoPath.Match star_state "a"
              (counting "0xc000010008") [Once]) as (s' & E & R & C & _).
  - wf_facts.
  - intros K [[<-|[]]| ->]; reflexivity.
  - reflexivity.
  - intros K sm _ HL. apply Load_In in HL.
    destruct HL as [[= <- <-]|[]]. reflexivity.
  - exists s'. split; [exact E|]. split; [exact R|].
    cbn in C. now rewrite C.
Defined.

Lemma Emit_shared_event_witness :
  obj_Flag (objs (heap (snd (Emit GoPath.Match void_state 0))) 0) = FlagSkip.
Proof.
  rewrite (Emit_shared_event GoPath.Match void_state 0).
  - reflexivity.
  - split; cbn; list_facts; first [apply Skip_local | apply Void_local].
  - cbn. list_facts.
  - cbn. lia.
Defined.

Lemma Off_idempotent_witness :
  exists s',
    Off GoPath.Match test_off_state "test" [counting "0xc000010000"] = Ok s'
    /\ Off GoPath.Match s' "test" [counting "0xc000010000"] = Ok s'.
Proof.
  apply (Off_idempotent GoPath.Match test_off_state "test"
           [counting "0xc000010000"]).
  wf_facts.
Defined.

Lemma Emit_runs_to_completion_witness :
  exists s',
    run_tasks GoPath.Match false (snd (Emit GoPath.Match shared_emit_state 0))
      (fst (Emit GoPath.Match shared_emit_state 0))
    = Ok (s', []).
Proof.
  destruct (Emit_runs_to_completion GoPath.Match shared_emit_state 0 false)
    as [_ H].
  - apply shared_emit_local.
  - wf_facts.
  - cbn. lia.
  - cbn. repeat constructor.
  - apply H. apply Permutation_refl.
Defined.

Lemma Emit_reaches_subscribers_witness :
  exists s',
    run_tasks GoPath.Match false (snd (Emit GoPath.Match plain_state 0))
      (fst (Emit GoPath.Match plain_state 0))
    = Ok (s', [])
    /\ ch_buf (chans s' 0) = [1] /\ ch_buf (chans s' 1) = [2].
Proof.
  destruct (Emit_reaches_subscribers GoPath.Match plain_state 0 false)
    as (_ & H).
  - split; cbn; list_facts; apply Skip_local.
  - split; cbn; list_facts; apply Skip_never_void.
  - wf_facts.
  - cbn. lia.
  - reflexivity.
  - cbn. repeat constructor.
  - vm_compute. repeat constructor.
  - destruct (H _ (Permutation_refl _)) as (s' & E & _ & B & _).
    exists s'. split; [exact E|]. split.
    + apply (B (mkTask (mkListenerManager 0 [] (counting "0xc000010000")) 1)).
      vm_compute. left. reflexivity.
    + apply (B (mkTask (mkListenerManager 1 [Skip] (counting "0xc000010000")) 2)).
      vm_compute. right. left. reflexivity.
Defined.

Lemma Emit_void_reaches_nobody_witness :
  fst (Emit GoPath.Match muted_state 0) = []
  /\ done_at_return (fst (Emit GoPath.Match muted_state 0)) = true.
Proof.
  destruct (Emit_void_reaches_nobody GoPath.Match muted_state 0)
    as (H1 & H2 & _).
  - split; cbn; list_facts; apply Void_local.
  - split; cbn; list_facts; apply Void_keeps_void.
  - cbn. list_facts.
  - cbn. lia.
  - right. intros K rest HK. vm_compute in HK. injection HK as <- <-.
    left. reflexivity.
  - split; assumption.
Defined.

